(** * Streaming ingestion and request lifecycle of the chat client

    A shallow embedding of the two TypeScript modules that carry the
    streaming core of the front end:

    - the group streaming store ([useGroupStreamingStore]): the
      brace-counted frame extractor, the quasi-JSON normaliser, the
      validator [isValidLogisticsStreamStep] and the store actions;
    - the agent API hook ([useAgentAPI]): the request generation counter,
      [cancel], [sendMessage] and the line-framed streaming loop of
      [sendMessageWithCallback];

    together with the retry executor [withRetry], whose source is not at
    hand and which is modelled from its specification.

    JavaScript strings are sequences of UTF-16 code units; they are
    modelled as lists of [N].  [JSON.parse] is modelled by a parser of the
    JSON grammar.  Asynchronous code is modelled by explicit state passing:
    every [await] is a point where the environment hands a result to a
    step function that receives the current shared state. *)

From Stdlib Require Import List NArith ZArith Bool Lia String Ascii Sorted.
From Equations Require Import Equations.
Import ListNotations.



(* ================================================================== *)
(** ** JavaScript strings *)
(* ================================================================== *)

Module Js.

Local Open Scope N_scope.

(** A string is its list of UTF-16 code units. *)
Definition str := list N.

(** Literals: [lit] reads an ASCII literal; [litq] reads one in which a
    backquote stands for the double-quote character (code unit 34). *)
Definition lit (s : string) : str :=
  map N_of_ascii (list_ascii_of_string s).

Definition litq (s : string) : str :=
  map (fun c => if c =? 96 then 34 else c) (lit s).

Definition str_eq_dec : forall a b : str, {a = b} + {a <> b} :=
  list_eq_dec N.eq_dec.

Definition str_eqb (a b : str) : bool :=
  if str_eq_dec a b then true else false.

(** [s.startsWith(p)] *)
Fixpoint startsWith (s p : str) {struct p} : bool :=
  match p with
  | [] => true
  | c :: p' =>
      match s with
      | [] => false
      | d :: s' => (c =? d) && startsWith s' p'
      end
  end.

(** [s.replace(/pat/g, rep)] for a pattern that is a literal, non-empty
    word: matches are found left to right and do not overlap.  [skip]
    counts the code units of the current match still to be dropped. *)
Fixpoint replace_from (pat rep : str) (skip : nat) (s : str) : str :=
  match s with
  | [] => []
  | c :: s' =>
      match skip with
      | S k => replace_from pat rep k s'
      | O =>
          if startsWith s pat
          then rep ++ replace_from pat rep (Nat.pred (List.length pat)) s'
          else c :: replace_from pat rep O s'
      end
  end.

Definition replaceAll (pat rep s : str) : str := replace_from pat rep O s.

(** The code units that [String.prototype.trim] strips: WhiteSpace and
    LineTerminator of the ECMAScript grammar. *)
Definition is_whitespace (c : N) : bool :=
  (c =? 9) || (c =? 10) || (c =? 11) || (c =? 12) || (c =? 13) ||
  (c =? 32) || (c =? 160) || (c =? 5760) ||
  ((8192 <=? c) && (c <=? 8202)) ||
  (c =? 8232) || (c =? 8233) || (c =? 8239) || (c =? 8287) ||
  (c =? 12288) || (c =? 65279).

Fixpoint trimStart (s : str) : str :=
  match s with
  | [] => []
  | c :: s' => if is_whitespace c then trimStart s' else s
  end.

Definition trimEnd (s : str) : str := rev (trimStart (rev s)).

(** [s.trim()] *)
Definition trim (s : str) : str := trimEnd (trimStart s).

(** [s.split('\n')]: never empty; the last piece is what follows the last
    line feed. *)
Fixpoint split_lines (s : str) : list str :=
  match s with
  | [] => [[]]
  | c :: s' =>
      match split_lines s' with
      | [] => [[c]]
      | cur :: rest => if c =? 10 then [] :: cur :: rest
                       else (c :: cur) :: rest
      end
  end.

(** [pieces.join(sep)] *)
Fixpoint join (sep : str) (pieces : list str) : str :=
  match pieces with
  | [] => []
  | piece :: rest =>
      match rest with
      | [] => piece
      | _ :: _ => piece ++ sep ++ join sep rest
      end
  end.

End Js.

(* ================================================================== *)
(** ** JSON values and [JSON.parse] *)
(* ================================================================== *)

Module Json.

Import Js.
Local Open Scope N_scope.

(** A parsed JSON value.  A number keeps its lexeme; of the double it
    denotes the code only ever asks whether it is zero ([denotes_zero]
    below). *)
#[local] Unset Elimination Schemes.
Inductive json : Type :=
| JNull
| JBool (b : bool)
| JNum (lexeme : str)
| JStr (s : str)
| JArr (items : list json)
| JObj (members : list (str * json)).
#[local] Set Elimination Schemes.

Notation "'let?' x ':=' a 'in' b" :=
  (match a with Some x => b | None => None end)
  (at level 10, x pattern, a at level 200, b at level 200).

(** JSON white space: space, tab, line feed, carriage return. *)
Definition is_ws (c : N) : bool :=
  (c =? 32) || (c =? 9) || (c =? 10) || (c =? 13).

Fixpoint skip_ws (s : str) : str :=
  match s with
  | [] => []
  | c :: s' => if is_ws c then skip_ws s' else s
  end.

Definition is_digit (c : N) : bool := (48 <=? c) && (c <=? 57).

Definition hex_value (c : N) : option N :=
  if is_digit c then Some (c - 48)
  else if (97 <=? c) && (c <=? 102) then Some (c - 87)
  else if (65 <=? c) && (c <=? 70) then Some (c - 55)
  else None.

(** The body of a string literal, after the opening quote: returns the
    decoded string and what follows the closing quote. *)
Fixpoint parse_string_body (s : str) : option (str * str) :=
  match s with
  | [] => None
  | c :: r =>
      if c =? 34 then Some ([], r)
      else if c =? 92 then
        match r with
        | [] => None
        | e :: r1 =>
            if e =? 117 then
              match r1 with
              | h1 :: h2 :: h3 :: h4 :: r2 =>
                  let? a := hex_value h1 in
                  let? b := hex_value h2 in
                  let? c3 := hex_value h3 in
                  let? d := hex_value h4 in
                  let? (body, rest) := parse_string_body r2 in
                  Some (((a * 16 + b) * 16 + c3) * 16 + d :: body, rest)
              | _ => None
              end
            else
              let? u := (if e =? 34 then Some 34
                       else if e =? 92 then Some 92
                       else if e =? 47 then Some 47
                       else if e =? 98 then Some 8
                       else if e =? 102 then Some 12
                       else if e =? 110 then Some 10
                       else if e =? 114 then Some 13
                       else if e =? 116 then Some 9
                       else None) in
              let? (body, rest) := parse_string_body r1 in
              Some (u :: body, rest)
        end
      else if c <? 32 then None
      else
        let? (body, rest) := parse_string_body r in
        Some (c :: body, rest)
  end.

Fixpoint span_digits (s : str) : str * str :=
  match s with
  | [] => ([], [])
  | c :: r =>
      if is_digit c
      then let '(ds, rest) := span_digits r in (c :: ds, rest)
      else ([], s)
  end.

(** At least one digit. *)
Definition digits1 (s : str) : option (str * str) :=
  match span_digits s with
  | ([], _) => None
  | (ds, rest) => Some (ds, rest)
  end.

(** The JSON number grammar: an optional minus sign; an integer part that
    is a single 0 or a non-zero digit followed by digits; an optional
    fraction (a dot and at least one digit); an optional exponent (e or E,
    an optional sign, at least one digit). *)
Definition number_sign (s : str) : str * str :=
  match s with
  | c :: r => if c =? 45 then ([c], r) else ([], s)
  | [] => ([], s)
  end.

Definition number_int (s : str) : option (str * str) :=
  match s with
  | c :: r =>
      if c =? 48 then Some ([c], r)
      else if is_digit c then digits1 s
      else None
  | [] => None
  end.

Definition number_frac (s : str) : option (str * str) :=
  match s with
  | c :: r =>
      if c =? 46 then
        let? (ds, rest) := digits1 r in Some (c :: ds, rest)
      else Some ([], s)
  | [] => Some ([], s)
  end.

Definition number_exp (s : str) : option (str * str) :=
  match s with
  | c :: r =>
      if (c =? 101) || (c =? 69) then
        match r with
        | g :: r' =>
            if (g =? 43) || (g =? 45)
            then let? (ds, rest) := digits1 r' in Some (c :: g :: ds, rest)
            else let? (ds, rest) := digits1 r in Some (c :: ds, rest)
        | [] => None
        end
      else Some ([], s)
  | [] => Some ([], s)
  end.

Definition parse_number (s : str) : option (str * str) :=
  let '(sign, s1) := number_sign s in
  let? (int, s2) := number_int s1 in
  let? (frac, s3) := number_frac s2 in
  let? (exp, s4) := number_exp s3 in
  Some (sign ++ int ++ frac ++ exp, s4).

(** One value, with no white space before it.  The three functions call
    one another on inputs that never grow, and at least one code unit is
    consumed in every two calls. *)
Fixpoint parse_value (fuel : nat) (s : str) {struct fuel}
  : option (json * str) :=
  match fuel with
  | O => None
  | S fuel' =>
      match s with
      | [] => None
      | c :: r =>
          if c =? 123 then
            match skip_ws r with
            | c' :: r' =>
                if c' =? 125 then Some (JObj [], r')
                else parse_members fuel' (c' :: r') []
            | [] => None
            end
          else if c =? 91 then
            match skip_ws r with
            | c' :: r' =>
                if c' =? 93 then Some (JArr [], r')
                else parse_items fuel' (c' :: r') []
            | [] => None
            end
          else if c =? 34 then
            let? (body, rest) := parse_string_body r in Some (JStr body, rest)
          else if startsWith s (lit "true") then Some (JBool true, skipn 4 s)
          else if startsWith s (lit "false") then Some (JBool false, skipn 5 s)
          else if startsWith s (lit "null") then Some (JNull, skipn 4 s)
          else let? (lexeme, rest) := parse_number s in Some (JNum lexeme, rest)
      end
  end

with parse_members (fuel : nat) (s : str) (acc : list (str * json))
  {struct fuel} : option (json * str) :=
  match fuel with
  | O => None
  | S fuel' =>
      match s with
      | c :: r =>
          if c =? 34 then
            let? (key, s1) := parse_string_body r in
            match skip_ws s1 with
            | colon :: s2 =>
                if colon =? 58 then
                  let? (v, s3) := parse_value fuel' (skip_ws s2) in
                  match skip_ws s3 with
                  | d :: s4 =>
                      if d =? 44
                      then parse_members fuel' (skip_ws s4) (acc ++ [(key, v)])
                      else if d =? 125
                      then Some (JObj (acc ++ [(key, v)]), s4)
                      else None
                  | [] => None
                  end
                else None
            | [] => None
            end
          else None
      | [] => None
      end
  end

with parse_items (fuel : nat) (s : str) (acc : list json)
  {struct fuel} : option (json * str) :=
  match fuel with
  | O => None
  | S fuel' =>
      let? (v, s1) := parse_value fuel' s in
      match skip_ws s1 with
      | d :: s2 =>
          if d =? 44 then parse_items fuel' (skip_ws s2) (acc ++ [v])
          else if d =? 93 then Some (JArr (acc ++ [v]), s2)
          else None
      | [] => None
      end
  end.

(** [JSON.parse(text)]: [None] stands for the thrown [SyntaxError].  Two
    units of fuel for each code unit are never used up. *)
Definition JSON_parse (text : str) : option json :=
  let? (v, rest) := parse_value (S (2 * List.length text)) (skip_ws text) in
  match skip_ws rest with
  | [] => Some v
  | _ :: _ => None
  end.

(** *** Property access, truthiness *)

(** The last member named [k]: for a repeated key [JSON.parse] keeps the
    last value. *)
Fixpoint lookup (k : str) (members : list (str * json)) : option json :=
  match members with
  | [] => None
  | (k', v) :: rest =>
      match lookup k rest with
      | Some v' => Some v'
      | None => if str_eqb k k' then Some v else None
      end
  end.

(** The result of [v.k] or [v[k]] for one of the field names the source
    reads ([response], [node], [status] and the six event fields; none of
    them is an array index, [length], or a member of a built-in
    prototype).  Reading a property of [null] throws a [TypeError]. *)
Inductive access : Type :=
| Throws
| Undefined
| Value (v : json).

Definition get (v : json) (k : str) : access :=
  match v with
  | JNull => Throws
  | JObj members =>
      match lookup k members with
      | Some x => Value x
      | None => Undefined
      end
  | _ => Undefined
  end.

(** The number a lexeme denotes.  [digits_value] reads a run of decimal
    digits; [lexeme_parts] gives the mantissa (the digits of the integer
    and fraction parts read as one integer) and the power of ten it is
    scaled by (the written exponent less the number of fraction digits),
    so that the absolute value denoted is [mantissa * 10 ^ scale]. *)
Fixpoint digits_value (acc : N) (ds : str) : N :=
  match ds with
  | [] => acc
  | d :: r => digits_value (acc * 10 + (d - 48)) r
  end.

Definition lexeme_exponent (s : str) : Z :=
  match s with
  | _ :: g :: r =>
      if g =? 45 then (- Z.of_N (digits_value 0 r))%Z
      else if g =? 43 then Z.of_N (digits_value 0 r)
      else Z.of_N (digits_value 0 (g :: r))
  | _ => 0%Z
  end.

Definition lexeme_parts (lexeme : str) : N * Z :=
  let '(_, s1) := number_sign lexeme in
  let '(int, s2) := span_digits s1 in
  let '(frac, s3) :=
    match s2 with
    | c :: r => if c =? 46 then span_digits r else ([], s2)
    | [] => ([], s2)
    end in
  (digits_value 0 (int ++ frac),
   (lexeme_exponent s3 - Z.of_nat (List.length frac))%Z).

(** [JSON.parse] turns the lexeme into the double nearest to the value it
    denotes, ties going to the even neighbour.  The least positive double
    is [2 ^ -1074], so the result is zero (of either sign) exactly when
    the absolute value is at most [2 ^ -1075]. *)
Definition denotes_zero (lexeme : str) : bool :=
  let '(mantissa, scale) := lexeme_parts lexeme in
  (mantissa =? 0) ||
  ((scale <? 0)%Z &&
   (mantissa * 2 ^ 1075 <=? 10 ^ Z.to_N (- scale))).

(** ToBoolean on a parsed value. *)
Definition truthy (v : json) : bool :=
  match v with
  | JNull => false
  | JBool b => b
  | JNum lexeme => negb (denotes_zero lexeme)
  | JStr s => match s with [] => false | _ :: _ => true end
  | JArr _ | JObj _ => true
  end.

End Json.

(* ================================================================== *)
(** ** The group streaming store *)
(* ================================================================== *)

Module GroupStore.

Import Js Json.
Local Open Scope N_scope.

(** *** Domain events and their validator *)

(** The six declared fields of a [LogisticsStreamStep]. *)
Record LogisticsStreamStep : Type := {
  order_id : str;
  sender : str;
  receiver : str;
  message : str;
  timestamp : str;
  state : str
}.

Definition requiredStringFields : list str :=
  [lit "order_id"; lit "sender"; lit "receiver";
   lit "message"; lit "timestamp"; lit "state"].

(** [typeof data === "object"] *)
Definition typeof_object (data : json) : bool :=
  match data with
  | JNull | JArr _ | JObj _ => true
  | _ => false
  end.

(** [typeof data[field] === "string" && data[field].trim() !== ""] *)
Definition nonblank_string_field (data : json) (field : str) : bool :=
  match get data field with
  | Value (JStr s) => negb (str_eqb (trim s) [])
  | _ => false
  end.

Definition isValidLogisticsStreamStep (data : json) : bool :=
  if negb (truthy data) || negb (typeof_object data) then false
  else forallb (nonblank_string_field data) requiredStringFields.

(** The value the type guard narrows [data] to.  The store keeps the parsed
    object; the model keeps its six declared fields. *)
Definition string_field (data : json) (field : str) : str :=
  match get data field with
  | Value (JStr s) => s
  | _ => []
  end.

Definition as_step (data : json) : LogisticsStreamStep :=
  {| order_id := string_field data (lit "order_id");
     sender := string_field data (lit "sender");
     receiver := string_field data (lit "receiver");
     message := string_field data (lit "message");
     timestamp := string_field data (lit "timestamp");
     state := string_field data (lit "state") |}.

(** *** The store *)

Record LogisticsStreamingState : Type := {
  events : list LogisticsStreamStep;
  finalResponse : option str;
  isStreaming : bool;
  isComplete : bool;
  error : option str;
  currentOrderId : option str;
  executionKey : option str
}.

Definition initialState : LogisticsStreamingState :=
  {| events := [];
     finalResponse := None;
     isStreaming := false;
     isComplete := false;
     error := None;
     currentOrderId := None;
     executionKey := None |}.

Definition DELIVERED : str := lit "DELIVERED".

Definition addEvent (event : LogisticsStreamStep)
  (st : LogisticsStreamingState) : LogisticsStreamingState :=
  {| events := events st ++ [event];
     finalResponse := finalResponse st;
     isStreaming :=
       if str_eqb (state event) DELIVERED then false else isStreaming st;
     isComplete :=
       if str_eqb (state event) DELIVERED then true else isComplete st;
     error := error st;
     currentOrderId := Some (order_id event);
     executionKey := executionKey st |}.

Definition setFinalResponse (response : str)
  (st : LogisticsStreamingState) : LogisticsStreamingState :=
  {| events := events st;
     finalResponse := Some response;
     isStreaming := false;
     isComplete := true;
     error := error st;
     currentOrderId := currentOrderId st;
     executionKey := executionKey st |}.

Definition setError (err : str)
  (st : LogisticsStreamingState) : LogisticsStreamingState :=
  {| events := events st;
     finalResponse := finalResponse st;
     isStreaming := false;
     isComplete := true;
     error := Some err;
     currentOrderId := currentOrderId st;
     executionKey := executionKey st |}.

Definition setStreaming (streaming : bool)
  (st : LogisticsStreamingState) : LogisticsStreamingState :=
  {| events := events st;
     finalResponse := finalResponse st;
     isStreaming := streaming;
     isComplete := isComplete st;
     error := error st;
     currentOrderId := currentOrderId st;
     executionKey := executionKey st |}.

Definition setComplete (complete : bool)
  (st : LogisticsStreamingState) : LogisticsStreamingState :=
  {| events := events st;
     finalResponse := finalResponse st;
     isStreaming := false;
     isComplete := complete;
     error := error st;
     currentOrderId := currentOrderId st;
     executionKey := executionKey st |}.

Definition setCurrentOrderId (orderId : str)
  (st : LogisticsStreamingState) : LogisticsStreamingState :=
  {| events := events st;
     finalResponse := finalResponse st;
     isStreaming := isStreaming st;
     isComplete := isComplete st;
     error := error st;
     currentOrderId := Some orderId;
     executionKey := executionKey st |}.

Definition setExecutionKey (key : str)
  (st : LogisticsStreamingState) : LogisticsStreamingState :=
  {| events := events st;
     finalResponse := finalResponse st;
     isStreaming := isStreaming st;
     isComplete := isComplete st;
     error := error st;
     currentOrderId := currentOrderId st;
     executionKey := Some key |}.

(** [set(initialState)] merges all seven fields of [initialState]. *)
Definition reset (st : LogisticsStreamingState) : LogisticsStreamingState :=
  initialState.

(** The status the consumers read off the flags ([groupIsComplete &&
    !groupIsStreaming], then [groupFinalResponse] or [groupError]). *)
Inductive Status : Type := Idle | Streaming | Complete | Error.

Definition status (st : LogisticsStreamingState) : Status :=
  if isStreaming st then Streaming
  else if isComplete st then
    match error st with Some _ => Error | None => Complete end
  else Idle.

(** The order id of the most recent event of a log. *)
Definition latest_order_id (log : list LogisticsStreamStep) : option str :=
  match rev log with
  | [] => None
  | event :: _ => Some (order_id event)
  end.

(** An event none of whose six fields is blank. *)
Definition nonblank_step (event : LogisticsStreamStep) : bool :=
  forallb (fun field => negb (str_eqb (trim field) []))
    [order_id event; sender event; receiver event; message event;
     timestamp event; state event].

(** *** [startStreaming]: frames *)

(** What the [console.error] calls of [startStreaming] report. *)
Inductive LogEntry : Type :=
| DictParseError (response : str)
| JsonParseError (jsonStr : str)
| StreamingError (message : option str).

(** The store together with the console. *)
Record World : Type := {
  store : LogisticsStreamingState;
  console : list LogEntry
}.

Definition update (f : LogisticsStreamingState -> LogisticsStreamingState)
  (w : World) : World :=
  {| store := f (store w); console := console w |}.

Definition log (entry : LogEntry) (w : World) : World :=
  {| store := store w; console := console w ++ [entry] |}.

(** Control after a step of the loop body: go on, or [return] from
    [startStreaming]. *)
Inductive Flow (A : Type) : Type :=
| Continue (a : A)
| Return (a : A).
Arguments Continue {A} a.
Arguments Return {A} a.

(** The four chained [replace] calls on [parsed.response]. *)
Definition normalise (response : str) : str :=
  replaceAll (lit "None") (lit "null")
    (replaceAll (lit "False") (lit "false")
       (replaceAll (lit "True") (lit "true")
          (replaceAll (lit "'") (litq "`") response))).

(** Whether [parsed.response] has the shape of an embedded literal. *)
Definition literal_style (response : str) : bool :=
  startsWith response (lit "{'") || startsWith response (litq "{`").

(** The inner [try] block, for a non-empty string [response] of literal
    style. *)
Definition process_literal (w : World) (response : str) : World :=
  match JSON_parse (normalise response) with
  | None => log (DictParseError response) w
  | Some eventObj =>
      if isValidLogisticsStreamStep eventObj
      then update (addEvent (as_step eventObj)) w
      else w
  end.

(** The outer [try] block on one extracted [jsonStr]. *)
Definition process_frame (w : World) (jsonStr : str) : Flow World :=
  match JSON_parse jsonStr with
  | None => Continue (log (JsonParseError jsonStr) w)
  | Some parsed =>
      match get parsed (lit "response") with
      | Throws => Continue (log (JsonParseError jsonStr) w)
      | Undefined => Continue w
      | Value (JStr response) =>
          if truthy (JStr response) then
            if literal_style response
            then Continue (process_literal w response)
            else Return (update (setFinalResponse response) w)
          else Continue w
      | Value _ => Continue w
      end
  end.

(** *** [startStreaming]: the brace-counted extractor *)

(** The [for] loop: the index of the first closing brace that brings
    [braceCount] back to zero; [None] is [jsonEnd === -1]. *)
Fixpoint scan_braces (remaining : str) (i : nat) (braceCount : Z)
  : option nat :=
  match remaining with
  | [] => None
  | c :: rest =>
      if c =? 123 then scan_braces rest (S i) (braceCount + 1)%Z
      else if c =? 125 then
        if (braceCount - 1 =? 0)%Z then Some i
        else scan_braces rest (S i) (braceCount - 1)%Z
      else scan_braces rest (S i) braceCount
  end.

Definition find_json_end (remaining : str) : option nat :=
  scan_braces remaining O 0%Z.

(** The numbers of opening and of closing braces in a text. *)
Definition opens (s : str) : nat := count_occ N.eq_dec s 123.
Definition closes (s : str) : nat := count_occ N.eq_dec s 125.

(** How one pass over [remaining] ends: the loop is left with [buffer]
    holding the unfinished text, or the body has executed [return]. *)
Inductive Drained (A : Type) : Type :=
| Pending (a : A) (buffer : str)
| Returned (a : A).
Arguments Pending {A} a buffer.
Arguments Returned {A} a.

Section Drain.

Context {A : Type}.

(** What the loop body does with one extracted [jsonStr]. *)
Variable handle : A -> str -> Flow A.

(** The [while (remaining.length > 0)] loop. *)
Equations drain (remaining : str) (a : A) : Drained A
  by wf (List.length remaining) lt :=
  drain [] a := Pending a [];
  drain (c :: rest) a with find_json_end (c :: rest) := {
    | None => Pending a (c :: rest);
    | Some jsonEnd with handle a (firstn (jsonEnd + 1) (c :: rest)) := {
        | Return a' => Returned a';
        | Continue a' => drain (skipn (jsonEnd + 1) (c :: rest)) a'
      }
  }.
Next Obligation.
  rewrite length_skipn. cbn [List.length]. lia.
Qed.

End Drain.

(** The extractor on its own: the same loop with a body that only records
    each [jsonStr].  [extract oldBuffer chunk] is what one read emits and
    what it keeps for the next read. *)
Definition collect (emitted : list str) (jsonStr : str) : Flow (list str) :=
  Continue (emitted ++ [jsonStr]).

Definition extract (oldBuffer chunk : str) : list str * str :=
  match drain collect (oldBuffer ++ chunk) [] with
  | Pending emitted newBuffer => (emitted, newBuffer)
  | Returned emitted => (emitted, [])
  end.

(** Feeding chunks one at a time, threading the retained buffer. *)
Fixpoint extract_chunks (buffer : str) (chunks : list str)
  : list str * str :=
  match chunks with
  | [] => ([], buffer)
  | chunk :: rest =>
      let '(emitted, buffer') := extract buffer chunk in
      let '(later, final) := extract_chunks buffer' rest in
      (emitted ++ later, final)
  end.

(** Running a loop body over frames already extracted. *)
Fixpoint handle_frames {A : Type} (handle : A -> str -> Flow A)
  (frames : list str) (a : A) : Flow A :=
  match frames with
  | [] => Continue a
  | jsonStr :: rest =>
      match handle a jsonStr with
      | Return a' => Return a'
      | Continue a' => handle_frames handle rest a'
      end
  end.

(** *** [startStreaming]: the read loop *)

(** What one [await reader.read()] delivers before [done]: a decoded chunk,
    or a rejection (with [error.message] when the error is an [Error]). *)
Inductive Read : Type :=
| Chunk (text : str)
| ReadFails (message : option str).

(** What [await fetch(...)] delivers. *)
Inductive Response : Type :=
| FetchFails (message : option str)
| NotOk (status statusText : str)
| NoReader
| Body (reads : list Read).

(** The body of one iteration of [while (true)] after a chunk arrived:
    [buffer += chunk], then the inner loop. *)
Definition on_chunk (buffer chunk : str) (w : World) : Drained World :=
  drain process_frame (buffer ++ chunk) w.

(** The outer [catch]. *)
Definition on_failure (message : option str) (w : World) : World :=
  update
    (setError (match message with
               | Some m => m
               | None => lit "Streaming failed"
               end))
    (log (StreamingError message) w).

(** The reads of one response body, in order; the list ends where the
    reader reports [done]. *)
Fixpoint read_loop (reads : list Read) (buffer : str) (w : World) : World :=
  match reads with
  | [] => update (setComplete true) w
  | ReadFails message :: _ => on_failure message w
  | Chunk text :: rest =>
      match on_chunk buffer text w with
      | Returned w' => w'
      | Pending w' buffer' => read_loop rest buffer' w'
      end
  end.

(** [reset(); setStreaming(true)], the part of [startStreaming] that runs
    before the first [await]. *)
Definition begin_streaming (w : World) : World :=
  update (setStreaming true) (update reset w).

(** One whole run of [startStreaming] with nothing else touching the store
    in between. *)
Definition startStreaming (prompt : str) (response : Response) (w : World)
  : World :=
  let w0 := begin_streaming w in
  match response with
  | FetchFails message => on_failure message w0
  | NotOk status statusText =>
      on_failure (Some (lit "HTTP " ++ status ++ lit ": " ++ statusText)) w0
  | NoReader => on_failure (Some (lit "No response body reader available")) w0
  | Body reads => read_loop reads [] w0
  end.

End GroupStore.

(* ================================================================== *)
(** ** The agent API hook *)
(* ================================================================== *)

Module AgentAPI.

Import Js Json.
Local Open Scope N_scope.

Inductive Role : Type := USER | ASSISTANT.

(** What a message holds as its content.  The hook declares it a string,
    and every message the hook itself writes holds a [Text].  A stream may
    bring a truthy [response] that is not a string: as a first token it
    becomes the content as it is, and a later token is added to the content
    with the [+] of JavaScript.  That operator concatenates two strings;
    where an operand is not a string it is left unevaluated here, and
    [Sum first rest] stands for the value of [first + r1 + ... + rn],
    grouped to the left. *)
Inductive Content : Type :=
| Text (s : str)
| Sum (first : json) (rest : list json).

(** [chunk] as the content of a new message, and [content + chunk]. *)
Definition as_content (chunk : json) : Content :=
  match chunk with
  | JStr s => Text s
  | other => Sum other []
  end.

Definition plus (content : Content) (chunk : json) : Content :=
  match content, chunk with
  | Text s, JStr t => Text (s ++ t)
  | Text s, other => Sum (JStr s) [other]
  | Sum first rest, _ => Sum first (rest ++ [chunk])
  end.

Record Message : Type := {
  role : Role;
  content : Content;
  id : str;
  animate : bool
}.

(** Which of the optional callbacks the caller supplied. *)
Record Callbacks : Type := {
  onStart : bool;
  onSuccess : bool;
  onError : bool;
  onNodeHighlight : bool
}.

(** A callback invocation, with its argument. *)
Inductive Call : Type :=
| Started
| Succeeded (response : str)
| Failed (error : str)
| NodeHighlighted (nodeId : json).

(** A request put on the network: the URL, the prompt, the thread id of
    the streaming endpoint, and the controller whose signal it carries. *)
Record Request : Type := {
  url : str;
  prompt_sent : str;
  thread_sent : option str;
  controller : nat
}.

(** Everything the hook and its caller share: the [loading] state, the
    refs, the session storage entry, the caller's message list (reached
    through [setMessages]), and what has been observed from outside: the
    callbacks invoked, the lines logged, the requests issued.  A controller
    is named by the generation of the request that created it. *)
Record Client : Type := {
  loading : bool;
  requestIdRef : nat;
  abortRef : option nat;
  aborted : list nat;
  wsRef : bool;
  provisioning_thread_id : option str;
  messages : list Message;
  calls : list Call;
  logged : list str;
  requests : list Request
}.

Definition setLoading (b : bool) (c : Client) : Client :=
  {| loading := b; requestIdRef := requestIdRef c; abortRef := abortRef c;
     aborted := aborted c; wsRef := wsRef c;
     provisioning_thread_id := provisioning_thread_id c;
     messages := messages c; calls := calls c; logged := logged c;
     requests := requests c |}.

Definition setRequestId (n : nat) (c : Client) : Client :=
  {| loading := loading c; requestIdRef := n; abortRef := abortRef c;
     aborted := aborted c; wsRef := wsRef c;
     provisioning_thread_id := provisioning_thread_id c;
     messages := messages c; calls := calls c; logged := logged c;
     requests := requests c |}.

Definition setAbortRef (k : option nat) (c : Client) : Client :=
  {| loading := loading c; requestIdRef := requestIdRef c; abortRef := k;
     aborted := aborted c; wsRef := wsRef c;
     provisioning_thread_id := provisioning_thread_id c;
     messages := messages c; calls := calls c; logged := logged c;
     requests := requests c |}.

Definition abort (c : Client) : Client :=
  match abortRef c with
  | None => c
  | Some k =>
      {| loading := loading c; requestIdRef := requestIdRef c;
         abortRef := abortRef c; aborted := k :: aborted c; wsRef := wsRef c;
         provisioning_thread_id := provisioning_thread_id c;
         messages := messages c; calls := calls c; logged := logged c;
         requests := requests c |}
  end.

Definition closeWebSocket (c : Client) : Client :=
  {| loading := loading c; requestIdRef := requestIdRef c;
     abortRef := abortRef c; aborted := aborted c; wsRef := false;
     provisioning_thread_id := provisioning_thread_id c;
     messages := messages c; calls := calls c; logged := logged c;
     requests := requests c |}.

Definition setThreadId (t : option str) (c : Client) : Client :=
  {| loading := loading c; requestIdRef := requestIdRef c;
     abortRef := abortRef c; aborted := aborted c; wsRef := wsRef c;
     provisioning_thread_id := t;
     messages := messages c; calls := calls c; logged := logged c;
     requests := requests c |}.

(** [setMessages(updater)] *)
Definition setMessages (updater : list Message -> list Message) (c : Client)
  : Client :=
  {| loading := loading c; requestIdRef := requestIdRef c;
     abortRef := abortRef c; aborted := aborted c; wsRef := wsRef c;
     provisioning_thread_id := provisioning_thread_id c;
     messages := updater (messages c); calls := calls c; logged := logged c;
     requests := requests c |}.

Definition invoke (call : Call) (c : Client) : Client :=
  {| loading := loading c; requestIdRef := requestIdRef c;
     abortRef := abortRef c; aborted := aborted c; wsRef := wsRef c;
     provisioning_thread_id := provisioning_thread_id c;
     messages := messages c; calls := calls c ++ [call]; logged := logged c;
     requests := requests c |}.

Definition console_error (line : str) (c : Client) : Client :=
  {| loading := loading c; requestIdRef := requestIdRef c;
     abortRef := abortRef c; aborted := aborted c; wsRef := wsRef c;
     provisioning_thread_id := provisioning_thread_id c;
     messages := messages c; calls := calls c; logged := logged c ++ [line];
     requests := requests c |}.

Definition send (r : Request) (c : Client) : Client :=
  {| loading := loading c; requestIdRef := requestIdRef c;
     abortRef := abortRef c; aborted := aborted c; wsRef := wsRef c;
     provisioning_thread_id := provisioning_thread_id c;
     messages := messages c; calls := calls c; logged := logged c;
     requests := requests c ++ [r] |}.

(** *** [cancel] and [resetWebSocket] *)

Definition cancel (c : Client) : Client :=
  setLoading false
    (setRequestId (requestIdRef c + 1)%nat (closeWebSocket (abort c))).

Definition resetWebSocket (c : Client) : Client :=
  setRequestId (requestIdRef c + 1)%nat
    (closeWebSocket (setThreadId None c)).

(** Whether the generation a request took is still the current one. *)
Definition isCurrent (myRequestId : nat) (c : Client) : bool :=
  Nat.eqb (requestIdRef c) myRequestId.

Definition placeholder_id : str := lit "loading-placeholder".

(** [prev.filter(m => m.id !== "loading-placeholder")] *)
Definition without_placeholder (prev : list Message) : list Message :=
  filter (fun m => negb (str_eqb (id m) placeholder_id)) prev.

(** [list.findIndex(p)]; [None] is [-1]. *)
Fixpoint findIndex (p : Message -> bool) (l : list Message) : option nat :=
  match l with
  | [] => None
  | m :: rest =>
      if p m then Some O
      else match findIndex p rest with
           | Some i => Some (S i)
           | None => None
           end
  end.

(** [updated[i] = f(updated[i])] on a copy, for an index inside the list. *)
Fixpoint update_at (i : nat) (f : Message -> Message) (l : list Message)
  : list Message :=
  match l, i with
  | [], _ => []
  | m :: rest, O => f m :: rest
  | m :: rest, S j => m :: update_at j f rest
  end.

(** The updater passed to [setMessages] for a streamed token. *)
Definition append_token (activeAssistantMessageId : str) (chunk : json)
  (prevMessages : list Message) : list Message :=
  let filtered := without_placeholder prevMessages in
  match findIndex (fun m => str_eqb (id m) activeAssistantMessageId) filtered
  with
  | Some existingIndex =>
      update_at existingIndex
        (fun m => {| role := role m; content := plus (content m) chunk;
                     id := id m; animate := false |})
        filtered
  | None =>
      filtered ++ [{| role := ASSISTANT; content := as_content chunk;
                      id := activeAssistantMessageId; animate := true |}]
  end.

(** ToBoolean on the result of a property read. *)
Definition truthy_access (a : access) : bool :=
  match a with
  | Value v => truthy v
  | _ => false
  end.

Section Hook.

(** The helpers of [utils/patternUtils], which this module imports. *)
Variable getApiUrlForPattern : option str -> str.
Variable shouldEnableRetries : option str -> bool.
Variable isProvisioningPattern : option str -> bool.

(** [RETRY_CONFIG.maxRetries] of [utils/retryUtils], which this module
    imports too, as a template literal prints it. *)
Variable maxRetries : str.

(** *** [sendMessage] *)

(** How the synchronous part of a call ends: with a thrown error, or with
    the request in flight under the generation it took. *)
Inductive Begun : Type :=
| Threw (message : str) (c : Client)
| InFlight (myRequestId : nat) (c : Client).

Definition sendMessage (prompt : str) (pattern : option str) (c : Client)
  : Begun :=
  match trim prompt with
  | [] => Threw (lit "Prompt cannot be empty") c
  | _ :: _ =>
      let apiUrl := getApiUrlForPattern pattern in
      let myRequestId := (requestIdRef c + 1)%nat in
      let c1 := setLoading true c in
      let c2 := setAbortRef (Some myRequestId) c1 in
      let c3 := setRequestId myRequestId c2 in
      InFlight myRequestId
        (send {| url := apiUrl ++ lit "/agent/prompt";
                 prompt_sent := prompt;
                 thread_sent := None;
                 controller := myRequestId |} c3)
  end.

(** The [finally] block, run when the call settles either way. *)
Definition sendMessage_finally (myRequestId : nat) (c : Client) : Client :=
  if isCurrent myRequestId c then setLoading false c else c.

(** *** [sendMessageWithCallback] *)

(** The values [uuid()] returns during one call. *)
Record Ids : Type := {
  userMessageId : str;
  freshThreadId : str;
  assistantMessageId : str;
  errorMessageId : str
}.

(** The locals of one call that are live across its [await]s. *)
Record Pending : Type := {
  myRequestId : nat;
  callbacks : Callbacks;
  ids : Ids;
  buffer : str
}.

Definition with_buffer (b : str) (p : Pending) : Pending :=
  {| myRequestId := myRequestId p; callbacks := callbacks p; ids := ids p;
     buffer := b |}.

(** The placeholder; its text ends with the four code units the source
    file holds after the dots (00F0, 0178, 00A7, 00A0). *)
Definition loadingMessage : Message :=
  {| role := ASSISTANT;
     content := Text (lit "Thinking . . . " ++ [240; 376; 167; 160]);
     id := placeholder_id;
     animate := true |}.

(** Which branch a call took. *)
Inductive Branch : Type := StreamingBranch | HttpBranch.

(** The part that runs before the first [await]. *)
Definition sendMessageWithCallback (prompt : str) (cb : Callbacks)
  (pattern : option str) (uuids : Ids) (c : Client)
  : Client * Pending * Branch :=
  let my := (requestIdRef c + 1)%nat in
  let c1 := setRequestId my c in
  let userMessage :=
    {| role := USER; content := Text prompt; id := userMessageId uuids;
       animate := false |} in
  let c2 := setMessages (fun prev => prev ++ [userMessage; loadingMessage]) c1 in
  let c3 := setLoading true c2 in
  let c4 := if onStart cb then invoke Started c3 else c3 in
  let p := {| myRequestId := my; callbacks := cb; ids := uuids;
              buffer := [] |} in
  let apiUrl := getApiUrlForPattern pattern in
  let c5 := setAbortRef (Some my) c4 in
  if isProvisioningPattern pattern then
    let threadId :=
      match provisioning_thread_id c5 with
      | Some (u :: t) => u :: t
      | _ => freshThreadId uuids
      end in
    let c6 := setThreadId (Some threadId) c5 in
    (send {| url := apiUrl ++ lit "/agent/prompt/stream";
             prompt_sent := prompt;
             thread_sent := Some threadId;
             controller := my |} c6,
     p, StreamingBranch)
  else
    (send {| url := apiUrl ++ lit "/agent/prompt";
             prompt_sent := prompt;
             thread_sent := None;
             controller := my |} c5,
     p, HttpBranch).

(** The body of [for (const line of lines)]. *)
Definition process_line (p : Pending) (c : Client) (line : str) : Client :=
  match trim line with
  | [] => c
  | _ :: _ =>
      match JSON_parse line with
      | None => console_error (lit "Error parsing stream line:") c
      | Some data =>
          match get data (lit "response") with
          | Throws => console_error (lit "Error parsing stream line:") c
          | response =>
              let chunk :=
                match response with
                | Value v => if truthy v then v else JStr []
                | _ => JStr []
                end in
              let nodeId := get data (lit "node") in
              let c1 :=
                match nodeId with
                | Value v =>
                    if truthy v && onNodeHighlight (callbacks p)
                    then invoke (NodeHighlighted v) c
                    else c
                | _ => c
                end in
              if truthy chunk
              then setMessages
                     (append_token (assistantMessageId (ids p)) chunk) c1
              else c1
          end
      end
  end.

(** After the [while] loop of the streaming branch. *)
Definition stream_end (p : Pending) (c : Client) : Client :=
  if isCurrent (myRequestId p) c then
    let c1 := setLoading false c in
    if onSuccess (callbacks p)
    then invoke (Succeeded (lit "Workflow completed")) c1
    else c1
  else c.

(** The [catch] of the streaming branch. *)
Definition stream_failure (p : Pending) (error : str) (c : Client) : Client :=
  let c1 :=
    if isCurrent (myRequestId p) c then
      setLoading false
        (setMessages
           (fun prev =>
              without_placeholder prev ++
              [{| role := ASSISTANT;
                  content := Text (lit "Error: Failed to fetch stream.");
                  id := errorMessageId (ids p);
                  animate := false |}]) c)
    else c in
  if onError (callbacks p) then invoke (Failed error) c1 else c1.

(** What [await fetch(...)] delivers. *)
Inductive Fetched : Type :=
| FetchRejected (error : str)
| ResponseNotOk (status : str)
| ResponseNoBody
| ResponseOk.

(** What [await reader.read()] delivers. *)
Inductive ReadResult : Type :=
| ReadRejected (error : str)
| ReadDone
| ReadValue (text : str).

(** Resuming after [await fetch]: the call goes on to its first read
    ([Some]) or has ended ([None]). *)
Definition on_response (p : Pending) (r : Fetched) (c : Client)
  : Client * option Pending :=
  match r with
  | FetchRejected error => (stream_failure p error c, None)
  | ResponseNotOk status =>
      (stream_failure p (lit "HTTP error! status: " ++ status) c, None)
  | ResponseNoBody => (stream_failure p (lit "No response body") c, None)
  | ResponseOk => (c, Some p)
  end.

(** Resuming after [await reader.read()]: one iteration of [while (true)],
    followed by what comes after the loop when it is left. *)
Definition on_read (p : Pending) (r : ReadResult) (c : Client)
  : Client * option Pending :=
  match r with
  | ReadRejected error => (stream_failure p error c, None)
  | ReadDone => (stream_end p c, None)
  | ReadValue text =>
      if negb (isCurrent (myRequestId p) c) then (stream_end p c, None)
      else
        let lines := split_lines (buffer p ++ text) in
        (fold_left (process_line p) (removelast lines) c,
         Some (with_buffer (last lines []) p))
  end.

(** Resuming after the awaited call of the plain HTTP branch settled:
    [try] or [catch], then [finally].  [responseText] is the
    [response.data.response] of the reply, a string as the interface
    [ApiResponse] declares it. *)
Definition on_http_success (p : Pending) (responseText : str)
  (assistantId : str) (c : Client) : Client :=
  let c1 :=
    if isCurrent (myRequestId p) c then
      setMessages
        (fun prev =>
           without_placeholder prev ++
           [{| role := ASSISTANT; content := Text responseText;
               id := assistantId; animate := true |}]) c
    else c in
  let c2 :=
    if onSuccess (callbacks p) then invoke (Succeeded responseText) c1
    else c1 in
  if isCurrent (myRequestId p) c2 then setLoading false c2 else c2.

Definition on_http_failure (p : Pending) (error : str) (c : Client)
  : Client :=
  let c1 :=
    if isCurrent (myRequestId p) c then
      setMessages
        (fun prev =>
           without_placeholder prev ++
           [{| role := ASSISTANT;
               content := Text (lit "Sorry, I encountered an error.");
               id := errorMessageId (ids p);
               animate := false |}]) c
    else c in
  let c2 := if onError (callbacks p) then invoke (Failed error) c1 else c1 in
  if isCurrent (myRequestId p) c2 then setLoading false c2 else c2.

(** The updater that [onRetryAttempt] hands to [setMessages], for the
    attempt number as the template literal prints it: the content of the
    last message is overwritten in place.  On an empty list the assignment
    throws, and no list comes back. *)
Definition retry_notice (attempt : str) (prev : list Message)
  : option (list Message) :=
  match prev with
  | [] => None
  | _ :: _ =>
      Some (update_at (List.length prev - 1)
              (fun m =>
                 {| role := role m;
                    content := Text (lit "Retrying... (" ++ attempt ++
                                     lit "/" ++ maxRetries ++ lit ")");
                    id := id m;
                    animate := animate m |})
              prev)
  end.

(** *** Runs of the hook *)

(** The reads of a streaming call, one after the other, for as long as the
    call goes on. *)
Fixpoint read_values (p : Pending) (texts : list str) (c : Client)
  : Client * option Pending :=
  match texts with
  | [] => (c, Some p)
  | text :: rest =>
      match on_read p (ReadValue text) c with
      | (c', Some p') => read_values p' rest c'
      | (c', None) => (c', None)
      end
  end.

(** A line that brings no response text: it is blank, or does not parse,
    or its [response] is missing or falsy. *)
Definition silent_line (line : str) : bool :=
  match JSON_parse line with
  | Some data => negb (truthy_access (get data (lit "response")))
  | None => true
  end.

(** What can happen to the hook, one event at a time: a call of one of its
    functions; the resumption of a call in flight after an [await]; for a
    call of a pattern with retries enabled, what [withRetry] does between
    two attempts (it tells [onRetryAttempt], which only the plain HTTP
    branch of [sendMessageWithCallback] supplies, and it calls
    [makeApiCall] again, which issues the request of the call once more);
    and the clean-up of the effect when the component unmounts, which
    aborts the controller in [abortRef] and closes the socket without
    clearing either ref. *)
Inductive Event : Type :=
| CallCancel
| CallResetWebSocket
| CallSendMessage (prompt : str) (pattern : option str)
| SettleSendMessage (myRequestId : nat)
| CallSendMessageWithCallback (prompt : str) (cb : Callbacks)
    (pattern : option str) (uuids : Ids)
| ResumeFetch (p : Pending) (r : Fetched)
| ResumeRead (p : Pending) (r : ReadResult)
| SettleHttpSuccess (p : Pending) (responseText assistantId : str)
| SettleHttpFailure (p : Pending) (error : str)
| NoticeRetry (pattern : option str) (attempt : str)
| RetryRequest (pattern : option str) (request : Request)
| Unmount.

Definition step (c : Client) (e : Event) : Client :=
  match e with
  | CallCancel => cancel c
  | CallResetWebSocket => resetWebSocket c
  | CallSendMessage prompt pattern =>
      match sendMessage prompt pattern c with
      | Threw _ c' => c'
      | InFlight _ c' => c'
      end
  | SettleSendMessage my => sendMessage_finally my c
  | CallSendMessageWithCallback prompt cb pattern uuids =>
      fst (fst (sendMessageWithCallback prompt cb pattern uuids c))
  | ResumeFetch p r => fst (on_response p r c)
  | ResumeRead p r => fst (on_read p r c)
  | SettleHttpSuccess p responseText assistantId =>
      on_http_success p responseText assistantId c
  | SettleHttpFailure p error => on_http_failure p error c
  | NoticeRetry pattern attempt =>
      if negb (isProvisioningPattern pattern) && shouldEnableRetries pattern
      then match retry_notice attempt (messages c) with
           | Some updated => setMessages (fun _ => updated) c
           | None => c
           end
      else c
  | RetryRequest pattern request =>
      if shouldEnableRetries pattern then send request c else c
  | Unmount => abort c
  end.

Definition run (events : list Event) (c : Client) : Client :=
  fold_left step events c.

End Hook.

End AgentAPI.

(* ================================================================== *)
(** ** The callers of the hook *)
(* ================================================================== *)

Module App.

Import Js Json AgentAPI.
Local Open Scope N_scope.

(** The pieces of the state of [App] that [handleApiResponse] and the
    callbacks of [ChatArea] write. *)
Record Shell : Type := {
  agentResponse : str;
  isAgentLoading : bool;
  apiError : bool;
  groupCommResponseReceived : bool;
  aiReplied : bool
}.

(** [updated[updated.length - 1] = f(updated[updated.length - 1])] on a
    copy.  On an empty array the index is [-1], which is not an element:
    the array stays empty. *)
Fixpoint set_last (f : Message -> Message) (l : list Message)
  : list Message :=
  match l with
  | [] => []
  | m :: rest =>
      match rest with
      | [] => [f m]
      | _ :: _ => m :: set_last f rest
      end
  end.

(** [handleApiResponse(response, isError)]; [isGroup] is
    [selectedPattern === PATTERNS.GROUP_COMMUNICATION].  The message list
    is the one [App] hands to [ChatArea] and, through it, to the hook. *)
Definition handleApiResponse (isGroup : bool) (response : str)
  (isError : bool) (state : Shell * Client) : Shell * Client :=
  let '(shell, c) := state in
  ({| agentResponse := response;
      isAgentLoading := false;
      apiError := if isGroup then isError else apiError shell;
      groupCommResponseReceived :=
        if isGroup && negb isError then true
        else groupCommResponseReceived shell;
      aiReplied := aiReplied shell |},
   setMessages
     (set_last (fun m => {| role := role m; content := Text response;
                            id := id m; animate := negb isError |}))
     c).

(** The callbacks [processMessageWithQuery] of [ChatArea] hands to
    [sendMessageWithCallback]: [onSuccess], [onError] and the
    [onSenderHighlight] it received from [App]; no [onStart]. *)
Definition chat_callbacks : Callbacks :=
  {| onStart := false; onSuccess := true; onError := true;
     onNodeHighlight := true |}.

(** What these callbacks do when the hook invokes them.  [pattern] is the
    [pattern] prop of [ChatArea]; [onApiResponse] is [handleApiResponse]. *)
Definition on_call (isGroup : bool) (pattern : option str) (call : Call)
  (state : Shell * Client) : Shell * Client :=
  match call with
  | Started => state
  | NodeHighlighted _ => state
  | Succeeded response =>
      let '(shell, c) := state in
      let replied :=
        ({| agentResponse := agentResponse shell;
            isAgentLoading := isAgentLoading shell;
            apiError := apiError shell;
            groupCommResponseReceived := groupCommResponseReceived shell;
            aiReplied := true |}, c) in
      match pattern with
      | Some name =>
          if str_eqb name (lit "provisioning") then replied
          else handleApiResponse isGroup response false replied
      | None => handleApiResponse isGroup response false replied
      end
  | Failed _ =>
      handleApiResponse isGroup (lit "Sorry, I encountered an error.") true
        state
  end.

(** A step of the hook followed by the callbacks it invoked: the calls the
    step added to the record are handed to [on_call] in order. *)
Definition with_callbacks (isGroup : bool) (pattern : option str)
  (shell : Shell) (before after : Client) : Shell * Client :=
  fold_left (fun state call => on_call isGroup pattern call state)
    (skipn (List.length (calls before)) (calls after))
    (shell, after).

(** The state of [ChatArea] that [processMessageWithQuery] writes: its
    input box and its own loading flag, and the [buttonClicked] flag of
    [App]. *)
Record Chat : Type := {
  content_box : str;
  chat_loading : bool;
  buttonClicked : bool
}.

Section ChatArea.

Variable getApiUrlForPattern : option str -> str.
Variable isProvisioningPattern : option str -> bool.

(** [processMessageWithQuery(messageContent)] up to its [await]: [None]
    when it returns at once, else the locals of the call it started. *)
Definition processMessageWithQuery (messageContent : str)
  (pattern : option str) (uuids : Ids) (chat : Chat) (c : Client)
  : Chat * Client * option (Pending * Branch) :=
  match trim messageContent with
  | [] => (chat, c, None)
  | _ :: _ =>
      let chat' := {| content_box := []; chat_loading := true;
                      buttonClicked := true |} in
      let '(c', p, branch) :=
        sendMessageWithCallback getApiUrlForPattern isProvisioningPattern
          messageContent chat_callbacks pattern uuids c in
      (chat', c', Some (p, branch))
  end.

End ChatArea.

End App.

(* ================================================================== *)
(** ** The retry executor *)
(* ================================================================== *)

Module Retry.

Section Executor.

(** Failures and success values of the wrapped operation. *)
Variables E V : Type.

(** One [onRetry] notification: the index of the attempt that failed, its
    error, and the delay waited before the next attempt. *)
Record Notice : Type := {
  attemptIndex : nat;
  failure : E;
  delay : Z
}.

(** The operation factory: what its call number [attemptIndex] settles
    to. *)
Variable operation : nat -> E + V.
Variable base : Z.

(** Modelled from the spec: [withRetry] of [utils/retryUtils], which is
    imported by the hook but is not among the sources.  Attempt the
    operation; on failure, if attempts remain, compute
    [delay = base * 2^attemptIndex], notify [onRetry], wait and retry;
    when no attempt remains the failure is the result.  [remaining]
    counts the attempts left after the current one. *)
Fixpoint attempt (remaining : nat) (index : nat) : (E + V) * list Notice :=
  match operation index with
  | inr value => (inr value, [])
  | inl error =>
      match remaining with
      | O => (inl error, [])
      | S remaining' =>
          let notice := {| attemptIndex := index;
                           failure := error;
                           delay := (base * 2 ^ Z.of_nat index)%Z |} in
          let '(result, notices) := attempt remaining' (S index) in
          (result, notice :: notices)
      end
  end.

(** Modelled from the spec: the entry point of [withRetry], which makes
    the first attempt with [maxAttempts - 1] attempts left after it. *)
Definition withRetry (maxAttempts : nat) : (E + V) * list Notice :=
  attempt (Nat.pred maxAttempts) O.

End Executor.

Arguments attemptIndex {E} _.
Arguments failure {E} _.
Arguments delay {E} _.
Arguments attempt {E V} operation base remaining index.
Arguments withRetry {E V} operation base maxAttempts.

End Retry.

(* ================================================================== *)
(** ** Literal-style renderings of an event *)
(* ================================================================== *)

Module Literal.

Import Js Json GroupStore.
Local Open Scope N_scope.

(** A flat dictionary of text fields written the way the agent writes a
    domain event into [response]: each key and value verbatim between
    quotes [q], [": "] after a key and [", "] between members.  With the
    apostrophe for [q] this is the literal style; with the double quote it
    is JSON. *)
Definition member_then (q : N) (kv : str * str) (tail : str) : str :=
  q :: fst kv ++ q :: 58 :: 32 :: q :: snd kv ++ q :: tail.

Fixpoint members_then (q : N) (fields : list (str * str)) (tail : str)
  : str :=
  match fields with
  | [] => tail
  | kv :: rest =>
      match rest with
      | [] => member_then q kv tail
      | _ :: _ => member_then q kv (44 :: 32 :: members_then q rest tail)
      end
  end.

Definition render_dict (q : N) (fields : list (str * str)) : str :=
  123 :: members_then q fields [125].

Definition literal_repr (fields : list (str * str)) : str :=
  render_dict 39 fields.

(** The value of the last field named [k]. *)
Fixpoint field_text (k : str) (fields : list (str * str)) : option str :=
  match fields with
  | [] => None
  | (k', v) :: rest =>
      match field_text k rest with
      | Some v' => Some v'
      | None => if str_eqb k k' then Some v else None
      end
  end.

(** A text field as a member of a parsed object. *)
Definition as_member (kv : str * str) : str * json :=
  (fst kv, JStr (snd kv)).

Definition text_or_empty (o : option str) : str :=
  match o with Some v => v | None => [] end.

(** The event a dictionary of fields describes. *)
Definition event_of (fields : list (str * str)) : LogisticsStreamStep :=
  {| order_id := text_or_empty (field_text (lit "order_id") fields);
     sender := text_or_empty (field_text (lit "sender") fields);
     receiver := text_or_empty (field_text (lit "receiver") fields);
     message := text_or_empty (field_text (lit "message") fields);
     timestamp := text_or_empty (field_text (lit "timestamp") fields);
     state := text_or_empty (field_text (lit "state") fields) |}.

(** The fields of an event, in the order of its declaration. *)
Definition fields_of (event : LogisticsStreamStep) : list (str * str) :=
  [(lit "order_id", order_id event); (lit "sender", sender event);
   (lit "receiver", receiver event); (lit "message", message event);
   (lit "timestamp", timestamp event); (lit "state", state event)].

(** Field [k] is present and is not blank. *)
Definition present_nonblank (fields : list (str * str)) (k : str) : bool :=
  match field_text k fields with
  | Some v => negb (str_eqb (trim v) [])
  | None => false
  end.

(** What the first [replace] does to one code unit. *)
Definition requote (c : N) : N := if c =? 39 then 34 else c.

(** [pat] occurs somewhere in [s]. *)
Fixpoint occurs (pat s : str) : bool :=
  match s with
  | [] => false
  | _ :: s' => startsWith s pat || occurs pat s'
  end.

(** A code unit that means itself both inside the apostrophes of the
    literal and inside the double quotes of JSON: no quote of either kind,
    no backslash, no control character. *)
Definition plain_unit (c : N) : bool :=
  (32 <=? c) && negb (c =? 34) && negb (c =? 39) && negb (c =? 92).

(** A text the normaliser leaves alone. *)
Definition clean (s : str) : bool :=
  forallb plain_unit s &&
  negb (occurs (lit "True") s) &&
  negb (occurs (lit "False") s) &&
  negb (occurs (lit "None") s).

Definition clean_fields (fields : list (str * str)) : bool :=
  forallb (fun kv => clean (fst kv) && clean (snd kv)) fields.

(** *** Literals with their layout *)

(** What the code units written between the quotes of a string stand for,
    when they are plain units and the escapes that Python and JSON read
    alike: a backslash before a backslash, a double quote, [b], [f], [n],
    [r] or [t], and a backslash before [u] and four hexadecimal digits.
    [None] when the text holds anything else: a quote of either kind that
    is not escaped, a control character, another escape. *)
Fixpoint unescape (s : str) : option str :=
  match s with
  | [] => Some []
  | c :: r =>
      if c =? 92 then
        match r with
        | [] => None
        | e :: r1 =>
            if e =? 117 then
              match r1 with
              | h1 :: h2 :: h3 :: h4 :: r2 =>
                  let? a := hex_value h1 in
                  let? b := hex_value h2 in
                  let? c3 := hex_value h3 in
                  let? d := hex_value h4 in
                  let? body := unescape r2 in
                  Some (((a * 16 + b) * 16 + c3) * 16 + d :: body)
              | _ => None
              end
            else
              let? u := (if e =? 34 then Some 34
                       else if e =? 92 then Some 92
                       else if e =? 98 then Some 8
                       else if e =? 102 then Some 12
                       else if e =? 110 then Some 10
                       else if e =? 114 then Some 13
                       else if e =? 116 then Some 9
                       else None) in
              let? body := unescape r1 in
              Some (u :: body)
        end
      else if plain_unit c then
        let? body := unescape r in Some (c :: body)
      else None
  end.

Definition text_of (s : str) : str :=
  match unescape s with
  | Some d => d
  | None => []
  end.

(** A written string the normaliser leaves alone and both languages read
    alike. *)
Definition sound (s : str) : bool :=
  match unescape s with Some _ => true | None => false end &&
  negb (occurs (lit "True") s) &&
  negb (occurs (lit "False") s) &&
  negb (occurs (lit "None") s).

(** A literal as Python or JSON writes values: one of the three words, a
    number, a string between quotes, a list between brackets, a dictionary
    with string keys between braces.  The tree keeps how the text is
    written.  Every word says whether it is written with its capital
    letter ([None], [True], [False], as Python does) or without ([null],
    [true], [false]); every string and key says whether it stands between
    single quotes or between double quotes, and holds the code units
    written between them ([text_of] gives what they stand for).  Every
    place where white space may stand holds the run of code units that
    stands there ([lead] before an item or a key, [after] behind a value,
    [before_colon] and [after_colon] around the colon, [inner] between the
    brackets of an empty list or dictionary). *)
Inductive py : Type :=
| PyNone (capital : bool)
| PyBool (capital : bool) (b : bool)
| PyNum (lexeme : str)
| PyStr (single : bool) (s : str)
| PyEmptyList (inner : str)
| PyList (items : py_items)
| PyEmptyDict (inner : str)
| PyDict (members : py_members)
with py_items : Type :=
| OneItem (lead : str) (v : py) (after : str)
| MoreItems (lead : str) (v : py) (after : str) (rest : py_items)
with py_members : Type :=
| OneMember (lead : str) (single : bool)
    (key before_colon after_colon : str) (v : py) (after : str)
| MoreMembers (lead : str) (single : bool)
    (key before_colon after_colon : str) (v : py) (after : str)
    (rest : py_members).

Scheme py_mut := Induction for py Sort Prop
  with py_items_mut := Induction for py_items Sort Prop
  with py_members_mut := Induction for py_members Sort Prop.
Combined Scheme py_mutind from py_mut, py_items_mut, py_members_mut.

(** A spelling: the quote of a string, given whether the tree has it
    between single quotes, and the three words, given whether the tree has
    them with a capital. *)
Record Spelling : Type := {
  quote : bool -> N;
  word_true : bool -> str;
  word_false : bool -> str;
  word_none : bool -> str
}.

(** The spelling the tree records, and that of JSON. *)
Definition as_written : Spelling :=
  {| quote := fun single => if single then 39 else 34;
     word_true := fun capital => if capital then lit "True" else lit "true";
     word_false :=
       fun capital => if capital then lit "False" else lit "false";
     word_none := fun capital => if capital then lit "None" else lit "null" |}.

Definition strict : Spelling :=
  {| quote := fun _ => 34;
     word_true := fun _ => lit "true";
     word_false := fun _ => lit "false";
     word_none := fun _ => lit "null" |}.

(** The spelling after the first, the second and the third [replace] of
    the normaliser; after the fourth it is [strict]. *)
Definition quoted : Spelling :=
  {| quote := fun _ => 34;
     word_true := word_true as_written;
     word_false := word_false as_written;
     word_none := word_none as_written |}.

Definition quoted_true : Spelling :=
  {| quote := fun _ => 34;
     word_true := fun _ => lit "true";
     word_false := word_false as_written;
     word_none := word_none as_written |}.

Definition quoted_false : Spelling :=
  {| quote := fun _ => 34;
     word_true := fun _ => lit "true";
     word_false := fun _ => lit "false";
     word_none := word_none as_written |}.

(** The text of a literal, followed by [tail]. *)
Fixpoint write_value (sp : Spelling) (v : py) (tail : str) {struct v}
  : str :=
  match v with
  | PyNone capital => word_none sp capital ++ tail
  | PyBool capital b =>
      (if b then word_true sp capital else word_false sp capital) ++ tail
  | PyNum lexeme => lexeme ++ tail
  | PyStr single s => quote sp single :: s ++ quote sp single :: tail
  | PyEmptyList inner => 91 :: inner ++ 93 :: tail
  | PyList items => 91 :: write_items sp items (93 :: tail)
  | PyEmptyDict inner => 123 :: inner ++ 125 :: tail
  | PyDict members => 123 :: write_members sp members (125 :: tail)
  end

with write_items (sp : Spelling) (items : py_items) (tail : str)
  {struct items} : str :=
  match items with
  | OneItem lead v after => lead ++ write_value sp v (after ++ tail)
  | MoreItems lead v after rest =>
      lead ++ write_value sp v (after ++ 44 :: write_items sp rest tail)
  end

with write_members (sp : Spelling) (members : py_members) (tail : str)
  {struct members} : str :=
  match members with
  | OneMember lead single key before_colon after_colon v after =>
      lead ++ quote sp single :: key ++ quote sp single :: before_colon ++
      58 :: after_colon ++ write_value sp v (after ++ tail)
  | MoreMembers lead single key before_colon after_colon v after rest =>
      lead ++ quote sp single :: key ++ quote sp single :: before_colon ++
      58 :: after_colon ++
      write_value sp v (after ++ 44 :: write_members sp rest tail)
  end.

(** The value a literal denotes. *)
Fixpoint value_of (v : py) : json :=
  match v with
  | PyNone _ => JNull
  | PyBool _ b => JBool b
  | PyNum lexeme => JNum lexeme
  | PyStr _ s => JStr (text_of s)
  | PyEmptyList _ => JArr []
  | PyList items => JArr (values_of items)
  | PyEmptyDict _ => JObj []
  | PyDict members => JObj (members_of members)
  end

with values_of (items : py_items) : list json :=
  match items with
  | OneItem _ v _ => [value_of v]
  | MoreItems _ v _ rest => value_of v :: values_of rest
  end

with members_of (members : py_members) : list (str * json) :=
  match members with
  | OneMember _ _ key _ _ v _ => [(text_of key, value_of v)]
  | MoreMembers _ _ key _ _ v _ rest =>
      (text_of key, value_of v) :: members_of rest
  end.

(** A run of JSON white space. *)
Definition blank (gap : str) : bool := forallb is_ws gap.

(** A lexeme that is one number of the JSON grammar, all of it. *)
Definition json_number (lexeme : str) : bool :=
  match parse_number lexeme with
  | Some (l, []) => str_eqb l lexeme
  | _ => false
  end.

(** The literals the normaliser is right about, however they are
    spelled: white space where white space may stand, numbers in the
    notation of JSON, and strings (keys too) that are [sound]. *)
Fixpoint well_formed (v : py) : bool :=
  match v with
  | PyNone _ | PyBool _ _ => true
  | PyNum lexeme => json_number lexeme
  | PyStr _ s => sound s
  | PyEmptyList inner | PyEmptyDict inner => blank inner
  | PyList items => well_formed_items items
  | PyDict members => well_formed_members members
  end

with well_formed_items (items : py_items) : bool :=
  match items with
  | OneItem lead v after => blank lead && well_formed v && blank after
  | MoreItems lead v after rest =>
      blank lead && well_formed v && blank after && well_formed_items rest
  end

with well_formed_members (members : py_members) : bool :=
  match members with
  | OneMember lead _ key before_colon after_colon v after =>
      blank lead && sound key && blank before_colon && blank after_colon &&
      well_formed v && blank after
  | MoreMembers lead _ key before_colon after_colon v after rest =>
      blank lead && sound key && blank before_colon && blank after_colon &&
      well_formed v && blank after && well_formed_members rest
  end.

(** The units a number is written with, and a text before which a number
    ends: the empty text, or one that begins with another unit. *)
Definition number_unit (c : N) : bool :=
  is_digit c || (c =? 43) || (c =? 45) || (c =? 46) || (c =? 69) ||
  (c =? 101).

Definition stops (t : str) : bool :=
  match t with
  | [] => true
  | d :: _ => negb (number_unit d)
  end.

(** What stands between the opening brace and the first key. *)
Definition first_lead (members : py_members) : str :=
  match members with
  | OneMember lead _ _ _ _ _ _ => lead
  | MoreMembers lead _ _ _ _ _ _ _ => lead
  end.

(** What the literal writes for key [k], the last time it writes it. *)
Fixpoint written (k : str) (members : py_members) : option py :=
  match members with
  | OneMember _ _ key _ _ v _ =>
      if str_eqb k (text_of key) then Some v else None
  | MoreMembers _ _ key _ _ v _ rest =>
      match written k rest with
      | Some v' => Some v'
      | None => if str_eqb k (text_of key) then Some v else None
      end
  end.

(** Key [k] is written with a string that does not stand for a blank
    text. *)
Definition written_nonblank (members : py_members) (k : str) : bool :=
  match written k members with
  | Some (PyStr _ s) => negb (str_eqb (trim (text_of s)) [])
  | _ => false
  end.

(** What the string written for key [k] stands for; the empty string when
    there is none. *)
Definition written_text (k : str) (members : py_members) : str :=
  match written k members with
  | Some (PyStr _ s) => text_of s
  | _ => []
  end.

(** The event a dictionary literal describes. *)
Definition event_written (members : py_members) : LogisticsStreamStep :=
  {| order_id := written_text (lit "order_id") members;
     sender := written_text (lit "sender") members;
     receiver := written_text (lit "receiver") members;
     message := written_text (lit "message") members;
     timestamp := written_text (lit "timestamp") members;
     state := written_text (lit "state") members |}.

End Literal.

(* ================================================================== *)
(** ** Sample inputs *)
(* ================================================================== *)

Module Samples.

Import Js Json GroupStore.

Definition fresh_world : World :=
  {| store := initialState; console := [] |}.

Definition delivered_event : LogisticsStreamStep :=
  {| order_id := lit "1"; sender := lit "A"; receiver := lit "B";
     message := lit "hi"; timestamp := lit "t"; state := lit "DELIVERED" |}.


(** A store that a terminal event has completed. *)
Definition completed_store : LogisticsStreamingState :=
  addEvent delivered_event (setStreaming true initialState).

(** The frames that carry the two events, a final response, and an empty
    response. *)
Definition delivered_frame : str :=
  litq "{`response`: `{'order_id': '1', 'sender': 'A', 'receiver': 'B', 'message': 'hi', 'timestamp': 't', 'state': 'DELIVERED'}`}".


Definition final_frame : str := litq "{`response`: `All done`}".

(** An event whose message contains the word [None], and the literal, as
    Python prints it, of an event whose message contains an apostrophe. *)
Definition none_event : LogisticsStreamStep :=
  {| order_id := lit "7"; sender := lit "A"; receiver := lit "B";
     message := lit "None left"; timestamp := lit "t";
     state := lit "IN_TRANSIT" |}.

Definition apostrophe_response : str :=
  litq "{'order_id': '7', 'sender': 'A', 'receiver': 'B', 'message': `it's late`, 'timestamp': 't', 'state': 'IN_TRANSIT'}".

Definition empty_response_frame : str := litq "{`response`: ``}".

(** The delivered event as a literal written without the usual spaces,
    with one string between double quotes and with a True, a None, a
    string with an escape, a list of numbers and an empty dictionary among
    its values. *)
Definition compact_literal : Literal.py_members :=
  Literal.MoreMembers [] true (lit "order_id") [] []
    (Literal.PyStr true (lit "1")) []
   (Literal.MoreMembers (lit " ") true (lit "sender") (lit " ") (lit " ")
      (Literal.PyStr true (lit "A")) []
   (Literal.MoreMembers [] true (lit "receiver") [] []
      (Literal.PyStr false (lit "B")) []
   (Literal.MoreMembers [] true (lit "message") [] []
      (Literal.PyStr true (lit "hi")) []
   (Literal.MoreMembers [] true (lit "timestamp") [] []
      (Literal.PyStr true (lit "t")) []
   (Literal.MoreMembers [] true (lit "state") [] []
      (Literal.PyStr true (lit "DELIVERED")) []
   (Literal.MoreMembers [] true (lit "urgent") [] []
      (Literal.PyBool true true) []
   (Literal.MoreMembers [] true (lit "eta") [] [] (Literal.PyNone true) []
   (Literal.MoreMembers [] true (lit "note") [] []
      (Literal.PyStr true (lit "two\nlines")) []
   (Literal.MoreMembers [] true (lit "legs") [] []
      (Literal.PyList
         (Literal.MoreItems [] (Literal.PyNum (lit "1")) []
            (Literal.OneItem (lit " ") (Literal.PyNum (lit "-2.5e3")) [])))
      []
   (Literal.OneMember [] true (lit "meta") [] []
      (Literal.PyEmptyDict (lit " ")) [])))))))))).

(** A client that has issued nothing yet, a caller that supplies every
    callback, and stand-ins for the helpers of [utils/patternUtils] and
    for the retry limit of [utils/retryUtils]. *)
Definition idle_client : AgentAPI.Client :=
  {| AgentAPI.loading := false; AgentAPI.requestIdRef := O;
     AgentAPI.abortRef := None; AgentAPI.aborted := [];
     AgentAPI.wsRef := false; AgentAPI.provisioning_thread_id := None;
     AgentAPI.messages := []; AgentAPI.calls := []; AgentAPI.logged := [];
     AgentAPI.requests := [] |}.

Definition every_callback : AgentAPI.Callbacks :=
  {| AgentAPI.onStart := true; AgentAPI.onSuccess := true;
     AgentAPI.onError := true; AgentAPI.onNodeHighlight := true |}.

Definition some_ids : AgentAPI.Ids :=
  {| AgentAPI.userMessageId := lit "u-1";
     AgentAPI.freshThreadId := lit "t-1";
     AgentAPI.assistantMessageId := lit "a-1";
     AgentAPI.errorMessageId := lit "e-1" |}.

Definition local_url (pattern : option str) : str :=
  lit "http://127.0.0.1:9090".

Definition always_provisioning (pattern : option str) : bool := true.

Definition retrying (pattern : option str) : bool := true.

Definition three_retries : str := lit "3".


(** The first streaming call as [ChatArea] makes it. *)
Definition chat_call : AgentAPI.Client * AgentAPI.Pending :=
  fst (AgentAPI.sendMessageWithCallback local_url always_provisioning
         (lit "deploy") App.chat_callbacks None some_ids idle_client).

(** An operation that times out twice and then answers. *)
Definition flaky (index : nat) : str + str :=
  if Nat.ltb index 2 then inl (lit "timeout") else inr (lit "pong").

(** The first streaming call on the idle client: the state it leaves and
    its locals. *)
Definition first_call : AgentAPI.Client * AgentAPI.Pending :=
  fst (AgentAPI.sendMessageWithCallback local_url always_provisioning
         (lit "deploy") every_callback None some_ids idle_client).

End Samples.

(* ================================================================== *)
(** * Properties *)
(* ================================================================== *)

Import Js Json.

(** ** Strings *)

Lemma str_eqb_eq (a b : str) : str_eqb a b = true <-> a = b.
Proof.
  unfold str_eqb. destruct (str_eq_dec a b); split; congruence.
Qed.

Lemma str_eqb_neq (a b : str) : str_eqb a b = false <-> a <> b.
Proof.
  unfold str_eqb. destruct (str_eq_dec a b); split; congruence.
Qed.

Lemma str_eqb_refl (a : str) : str_eqb a a = true.
Proof. now apply str_eqb_eq. Qed.

(** Induction on the length of a string. *)
Lemma str_length_ind (P : str -> Prop) :
  (forall s, (forall t, (List.length t < List.length s)%nat -> P t) -> P s) ->
  forall s, P s.
Proof.
  intros step s.
  assert (H : forall n t, (List.length t < n)%nat -> P t).
  { induction n as [|n IH]; intros t Ht; [lia|].
    apply step. intros u Hu. apply IH. lia. }
  apply (H (S (List.length s))). lia.
Qed.

(** ** The parser's fuel *)

Section ParserFuel.

Local Open Scope N_scope.

Ltac break_hyp H :=
  match type of H with
  | context [match ?x with _ => _ end] => destruct x eqn:?
  | context [if ?x then _ else _] => destruct x eqn:?
  end.

Lemma skip_ws_length (s : str) :
  (List.length (skip_ws s) <= List.length s)%nat.
Proof.
  induction s as [|c s IH]; simpl; [lia|].
  destruct (is_ws c); simpl; lia.
Qed.

Lemma parse_string_body_shorter : forall (s body rest : str),
  parse_string_body s = Some (body, rest) ->
  (List.length rest < List.length s)%nat.
Proof.
  induction s as [s IH] using str_length_ind. intros body rest H.
  destruct s as [|c r]; [discriminate|]. cbn [parse_string_body] in H.
  destruct (c =? 34).
  { injection H as _ <-. simpl. lia. }
  destruct (c =? 92).
  - destruct r as [|e r1]; [discriminate|].
    destruct (e =? 117).
    + destruct r1 as [|h1 [|h2 [|h3 [|h4 r2]]]]; try discriminate.
      repeat break_hyp H; try discriminate.
      match goal with
      | E : parse_string_body r2 = Some _ |- _ => apply IH in E; [|simpl; lia]
      end.
      injection H as _ <-. simpl in *. lia.
    + repeat break_hyp H; try discriminate;
        match goal with
        | E : parse_string_body r1 = Some _ |- _ =>
            apply IH in E; [|simpl; lia]
        end;
        injection H as _ <-; simpl in *; lia.
  - destruct (c <? 32); [discriminate|].
    repeat break_hyp H; try discriminate.
    match goal with
    | E : parse_string_body r = Some _ |- _ => apply IH in E; [|simpl; lia]
    end.
    injection H as _ <-. simpl in *. lia.
Qed.

Lemma span_digits_length (s : str) :
  (List.length (snd (span_digits s)) <= List.length s)%nat.
Proof.
  induction s as [|c s IH]; simpl; [lia|].
  destruct (is_digit c); [|simpl; lia].
  destruct (span_digits s). simpl in *. lia.
Qed.

Lemma digits1_shorter (s ds rest : str) :
  digits1 s = Some (ds, rest) -> (List.length rest < List.length s)%nat.
Proof.
  unfold digits1. destruct s as [|c s]; [discriminate|]. simpl.
  destruct (is_digit c); [|discriminate].
  pose proof (span_digits_length s) as Hlen.
  destruct (span_digits s) as [ds' rest']. simpl in *.
  intros H. injection H as _ <-. lia.
Qed.

Lemma parse_number_shorter (s lexeme rest : str) :
  parse_number s = Some (lexeme, rest) ->
  (List.length rest < List.length s)%nat.
Proof.
  unfold parse_number. intros H.
  destruct (number_sign s) as [sign s1] eqn:Hsign.
  assert (H1 : (List.length s1 <= List.length s)%nat).
  { unfold number_sign in Hsign. destruct s as [|c r].
    - injection Hsign as _ <-. lia.
    - destruct (c =? 45); injection Hsign as _ <-; simpl; lia. }
  destruct (number_int s1) as [[int s2]|] eqn:Hint; [|discriminate].
  assert (H2 : (List.length s2 < List.length s1)%nat).
  { unfold number_int in Hint. destruct s1 as [|c r]; [discriminate|].
    destruct (c =? 48).
    - injection Hint as _ <-. simpl. lia.
    - destruct (is_digit c); [|discriminate].
      now apply digits1_shorter in Hint. }
  destruct (number_frac s2) as [[frac s3]|] eqn:Hfrac; [|discriminate].
  assert (H3 : (List.length s3 <= List.length s2)%nat).
  { unfold number_frac in Hfrac. destruct s2 as [|c r].
    - injection Hfrac as _ <-. lia.
    - destruct (c =? 46).
      + destruct (digits1 r) as [[ds rest']|] eqn:Hd; [|discriminate].
        apply digits1_shorter in Hd. injection Hfrac as _ <-. simpl. lia.
      + injection Hfrac as _ <-. lia. }
  destruct (number_exp s3) as [[exp s4]|] eqn:Hexp; [|discriminate].
  assert (H4 : (List.length s4 <= List.length s3)%nat).
  { unfold number_exp in Hexp. destruct s3 as [|c r].
    - injection Hexp as _ <-. lia.
    - destruct ((c =? 101) || (c =? 69)).
      + destruct r as [|g r']; [discriminate|].
        destruct ((g =? 43) || (g =? 45)).
        * destruct (digits1 r') as [[ds rest']|] eqn:Hd; [|discriminate].
          apply digits1_shorter in Hd. injection Hexp as _ <-. simpl. lia.
        * destruct (digits1 (g :: r')) as [[ds rest']|] eqn:Hd;
            [|discriminate].
          apply digits1_shorter in Hd. injection Hexp as _ <-.
          simpl in *. lia.
      + injection Hexp as _ <-. lia. }
  injection H as _ <-. lia.
Qed.

(** A successful parse consumes at least one code unit. *)
Lemma parse_shorter (fuel : nat) :
  (forall s v rest,
     parse_value fuel s = Some (v, rest) ->
     (List.length rest < List.length s)%nat) /\
  (forall s acc v rest,
     parse_members fuel s acc = Some (v, rest) ->
     (List.length rest < List.length s)%nat) /\
  (forall s acc v rest,
     parse_items fuel s acc = Some (v, rest) ->
     (List.length rest < List.length s)%nat).
Proof.
  induction fuel as [|fuel (IHv & IHm & IHi)];
    [repeat split; intros; discriminate|].
  repeat apply conj.
  - intros s v rest H. destruct s as [|c r]; [discriminate|].
    cbn [parse_value] in H.
    destruct (c =? 123).
    { pose proof (skip_ws_length r) as Hws.
      destruct (skip_ws r) as [|c' r'] eqn:Er; [discriminate|].
      destruct (c' =? 125).
      - injection H as _ <-. simpl in *. lia.
      - apply IHm in H. simpl in *. lia. }
    destruct (c =? 91).
    { pose proof (skip_ws_length r) as Hws.
      destruct (skip_ws r) as [|c' r'] eqn:Er; [discriminate|].
      destruct (c' =? 93).
      - injection H as _ <-. simpl in *. lia.
      - apply IHi in H. simpl in *. lia. }
    destruct (c =? 34).
    { destruct (parse_string_body r) as [[body rest']|] eqn:Eb;
        [|discriminate].
      apply parse_string_body_shorter in Eb.
      injection H as _ <-. simpl. lia. }
    destruct (startsWith (c :: r) (lit "true")) eqn:Et.
    { injection H as _ <-.
      destruct r as [|? [|? [|? ?]]]; try discriminate; simpl; lia. }
    destruct (startsWith (c :: r) (lit "false")) eqn:Ef.
    { injection H as _ <-.
      destruct r as [|? [|? [|? [|? ?]]]]; try discriminate; simpl; lia. }
    destruct (startsWith (c :: r) (lit "null")) eqn:En.
    { injection H as _ <-.
      destruct r as [|? [|? [|? ?]]]; try discriminate; simpl; lia. }
    destruct (parse_number (c :: r)) as [[lexeme rest']|] eqn:Enum;
      [|discriminate].
    apply parse_number_shorter in Enum. now injection H as _ <-.
  - intros s acc v rest H. destruct s as [|c r]; [discriminate|].
    cbn [parse_members] in H.
    destruct (c =? 34); [|discriminate].
    destruct (parse_string_body r) as [[key s1]|] eqn:Ek; [|discriminate].
    apply parse_string_body_shorter in Ek.
    pose proof (skip_ws_length s1) as Hw1.
    destruct (skip_ws s1) as [|colon s2] eqn:E1; [discriminate|].
    destruct (colon =? 58); [|discriminate].
    pose proof (skip_ws_length s2) as Hw2.
    destruct (parse_value fuel (skip_ws s2)) as [[v' s3]|] eqn:Ev;
      [|discriminate].
    apply IHv in Ev.
    pose proof (skip_ws_length s3) as Hw3.
    destruct (skip_ws s3) as [|d s4] eqn:E3; [discriminate|].
    pose proof (skip_ws_length s4) as Hw4.
    destruct (d =? 44).
    + apply IHm in H. simpl in *. lia.
    + destruct (d =? 125); [|discriminate].
      injection H as _ <-. simpl in *. lia.
  - intros s acc v rest H. cbn [parse_items] in H.
    destruct (parse_value fuel s) as [[v' s1]|] eqn:Ev; [|discriminate].
    apply IHv in Ev.
    pose proof (skip_ws_length s1) as Hw1.
    destruct (skip_ws s1) as [|d s2] eqn:E1; [discriminate|].
    pose proof (skip_ws_length s2) as Hw2.
    destruct (d =? 44).
    + apply IHi in H. simpl in *. lia.
    + destruct (d =? 93); [|discriminate].
      injection H as _ <-. simpl in *. lia.
Qed.

(** Fuel above twice the length of the input is never exhausted: more of
    it changes no result. *)
Lemma parse_fuel (fuel : nat) : forall fuel' : nat,
  (fuel <= fuel')%nat ->
  (forall s,
     (2 * List.length s < fuel)%nat ->
     parse_value fuel' s = parse_value fuel s) /\
  (forall s acc,
     (2 * List.length s + 1 < fuel)%nat ->
     parse_members fuel' s acc = parse_members fuel s acc) /\
  (forall s acc,
     (2 * List.length s + 1 < fuel)%nat ->
     parse_items fuel' s acc = parse_items fuel s acc).
Proof.
  induction fuel as [|fuel IH]; intros fuel' Hle;
    [repeat split; intros; lia|].
  destruct fuel' as [|fuel']; [lia|].
  destruct (IH fuel' ltac:(lia)) as (IHv & IHm & IHi).
  repeat apply conj.
  - intros s Hs. destruct s as [|c r]; [reflexivity|].
    cbn [parse_value List.length] in *.
    pose proof (skip_ws_length r) as Hws.
    destruct (c =? 123).
    { destruct (skip_ws r) as [|c' r'] eqn:Er; [reflexivity|].
      destruct (c' =? 125); [reflexivity|].
      apply IHm. simpl in *. lia. }
    destruct (c =? 91); [|reflexivity].
    destruct (skip_ws r) as [|c' r'] eqn:Er; [reflexivity|].
    destruct (c' =? 93); [reflexivity|].
    apply IHi. simpl in *. lia.
  - intros s acc Hs. destruct s as [|c r]; [reflexivity|].
    cbn [parse_members List.length] in *.
    destruct (c =? 34); [|reflexivity].
    destruct (parse_string_body r) as [[key s1]|] eqn:Ek; [|reflexivity].
    apply parse_string_body_shorter in Ek.
    pose proof (skip_ws_length s1) as Hw1.
    destruct (skip_ws s1) as [|colon s2] eqn:E1; [reflexivity|].
    destruct (colon =? 58); [|reflexivity].
    pose proof (skip_ws_length s2) as Hw2.
    rewrite IHv by (simpl in *; lia).
    destruct (parse_value fuel (skip_ws s2)) as [[v s3]|] eqn:Ev;
      [|reflexivity].
    apply (proj1 (parse_shorter fuel)) in Ev.
    pose proof (skip_ws_length s3) as Hw3.
    destruct (skip_ws s3) as [|d s4] eqn:E3; [reflexivity|].
    pose proof (skip_ws_length s4) as Hw4.
    destruct (d =? 44); [|reflexivity].
    apply IHm. simpl in *. lia.
  - intros s acc Hs. cbn [parse_items].
    rewrite IHv by lia.
    destruct (parse_value fuel s) as [[v s1]|] eqn:Ev; [|reflexivity].
    apply (proj1 (parse_shorter fuel)) in Ev.
    pose proof (skip_ws_length s1) as Hw1.
    destruct (skip_ws s1) as [|d s2] eqn:E1; [reflexivity|].
    pose proof (skip_ws_length s2) as Hw2.
    destruct (d =? 44); [|reflexivity].
    apply IHi. simpl in *. lia.
Qed.

(** [JSON_parse] with any larger supply of fuel gives the same result. *)
Lemma JSON_parse_fuel (text : str) (fuel : nat) :
  (2 * List.length text < fuel)%nat ->
  JSON_parse text =
  match parse_value fuel (skip_ws text) with
  | Some (v, rest) =>
      match skip_ws rest with
      | [] => Some v
      | _ :: _ => None
      end
  | None => None
  end.
Proof.
  intros Hf. unfold JSON_parse.
  pose proof (skip_ws_length text) as Hws.
  destruct (parse_fuel (S (2 * List.length text)) fuel ltac:(lia))
    as (Hv & _ & _).
  rewrite Hv by lia. reflexivity.
Qed.

End ParserFuel.

(** ** The brace-counted extractor *)

Section Extractor.

Import GroupStore.

Lemma scan_braces_bound (s : str) : forall i b e,
  scan_braces s i b = Some e -> (i <= e < i + List.length s)%nat.
Proof.
  induction s as [|c s IH]; intros i b e H; simpl in H; [discriminate|].
  simpl.
  destruct (c =? 123)%N.
  - apply IH in H. lia.
  - destruct (c =? 125)%N.
    + destruct (b - 1 =? 0)%Z.
      * injection H as <-. lia.
      * apply IH in H. lia.
    + apply IH in H. lia.
Qed.

(** A closing position found in a text is found in every extension of it. *)
Lemma scan_braces_app (s t : str) : forall i b e,
  scan_braces s i b = Some e -> scan_braces (s ++ t) i b = Some e.
Proof.
  induction s as [|c s IH]; intros i b e H; simpl in *; [discriminate|].
  destruct (c =? 123)%N; [now apply IH|].
  destruct (c =? 125)%N; [|now apply IH].
  destruct (b - 1 =? 0)%Z; [assumption|now apply IH].
Qed.

Lemma find_json_end_bound (s : str) (e : nat) :
  find_json_end s = Some e -> (e < List.length s)%nat.
Proof.
  unfold find_json_end. intros H. apply scan_braces_bound in H. lia.
Qed.

Lemma find_json_end_app (s t : str) (e : nat) :
  find_json_end s = Some e -> find_json_end (s ++ t) = Some e.
Proof. apply scan_braces_app. Qed.

(** The loop, as one equation. *)
Lemma drain_unfold {A : Type} (handle : A -> str -> Flow A)
  (remaining : str) (a : A) :
  drain handle remaining a =
  match remaining with
  | [] => Pending a []
  | _ :: _ =>
      match find_json_end remaining with
      | None => Pending a remaining
      | Some jsonEnd =>
          match handle a (firstn (jsonEnd + 1) remaining) with
          | Return a' => Returned a'
          | Continue a' => drain handle (skipn (jsonEnd + 1) remaining) a'
          end
      end
  end.
Proof.
  destruct remaining as [|c rest]; simp drain; [reflexivity|].
  destruct (find_json_end (c :: rest)) as [jsonEnd|]; simpl; [|reflexivity].
  destruct (handle a (firstn (jsonEnd + 1) (c :: rest))); reflexivity.
Qed.

Lemma skipn_shorter (e : nat) (c : N) (rest : str) :
  (List.length (skipn (e + 1) (c :: rest)) < List.length (c :: rest))%nat.
Proof. rewrite length_skipn. cbn [List.length]. lia. Qed.

(** Appending text to what a pass has seen amounts to a second pass on
    the retained buffer followed by the new text. *)
Lemma drain_app {A : Type} (handle : A -> str -> Flow A) (t : str) :
  forall (s : str) (a : A),
  drain handle (s ++ t) a =
  match drain handle s a with
  | Pending a' buffer => drain handle (buffer ++ t) a'
  | Returned a' => Returned a'
  end.
Proof.
  induction s as [s IH] using str_length_ind. intros a.
  rewrite (drain_unfold handle s).
  destruct s as [|c rest]; [reflexivity|].
  destruct (find_json_end (c :: rest)) as [jsonEnd|] eqn:Hend; [|reflexivity].
  rewrite (drain_unfold handle ((c :: rest) ++ t)).
  rewrite (find_json_end_app _ t _ Hend).
  pose proof (find_json_end_bound _ _ Hend) as Hlt.
  change ((c :: rest) ++ t) with (c :: (rest ++ t)).
  change (c :: (rest ++ t)) with ((c :: rest) ++ t).
  rewrite firstn_app, skipn_app.
  replace (jsonEnd + 1 - List.length (c :: rest))%nat with O by lia.
  rewrite firstn_O, skipn_O, app_nil_r.
  destruct (handle a (firstn (jsonEnd + 1) (c :: rest))) as [a'|a'];
    [|reflexivity].
  apply IH. apply skipn_shorter.
Qed.

(** The recording body never returns, and what it records does not depend
    on what was recorded before. *)
Lemma drain_collect (s : str) : forall emitted,
  drain collect s emitted =
  Pending (emitted ++ fst (extract [] s)) (snd (extract [] s)).
Proof.
  induction s as [s IH] using str_length_ind. intros emitted.
  unfold extract. rewrite app_nil_l.
  rewrite (drain_unfold collect s emitted), (drain_unfold collect s []).
  destruct s as [|c rest]; [now rewrite app_nil_r|].
  destruct (find_json_end (c :: rest)) as [jsonEnd|] eqn:Hend;
    [|now rewrite app_nil_r].
  change (collect ?x ?f) with (Continue (x ++ [f])). cbv iota.
  pose proof (skipn_shorter jsonEnd c rest) as Hlen.
  rewrite (IH _ Hlen (emitted ++ _)), (IH _ Hlen ([] ++ _)).
  simpl. now rewrite <- app_assoc.
Qed.

Lemma extract_nil : extract [] [] = ([], []).
Proof. reflexivity. Qed.

Lemma extract_eq (oldBuffer chunk : str) :
  extract oldBuffer chunk = extract [] (oldBuffer ++ chunk).
Proof. reflexivity. Qed.

(** One pass over [s ++ t]: the values of [s], then those of the text kept
    from [s] followed by [t]. *)
Lemma extract_app (s t : str) :
  extract [] (s ++ t) =
  (fst (extract [] s) ++ fst (extract (snd (extract [] s)) t),
   snd (extract (snd (extract [] s)) t)).
Proof.
  unfold extract at 1. rewrite app_nil_l, drain_app, drain_collect.
  rewrite drain_collect. reflexivity.
Qed.

Lemma extract_none (s : str) :
  find_json_end s = None -> extract [] s = ([], s).
Proof.
  intros Hend. unfold extract. rewrite app_nil_l, drain_unfold, Hend.
  now destruct s.
Qed.

Lemma extract_some (s : str) (jsonEnd : nat) :
  find_json_end s = Some jsonEnd ->
  extract [] s =
  (firstn (jsonEnd + 1) s :: fst (extract [] (skipn (jsonEnd + 1) s)),
   snd (extract [] (skipn (jsonEnd + 1) s))).
Proof.
  intros Hend. unfold extract at 1. rewrite app_nil_l, drain_unfold, Hend.
  destruct s as [|c rest]; [discriminate|].
  change (collect ?x ?f) with (Continue (x ++ [f])). cbv iota.
  now rewrite drain_collect.
Qed.

(** The retained buffer holds no complete value: a pass over it emits
    nothing and keeps it whole. *)
Lemma extract_kept (s : str) :
  extract [] (snd (extract [] s)) = ([], snd (extract [] s)).
Proof.
  induction s as [s IH] using str_length_ind.
  destruct (find_json_end s) as [jsonEnd|] eqn:Hend.
  - rewrite (extract_some _ _ Hend). simpl snd. apply IH.
    destruct s as [|c rest]; [discriminate|]. apply skipn_shorter.
  - rewrite (extract_none _ Hend). simpl snd. now apply extract_none.
Qed.

Lemma extract_chunks_residual (chunks : list str) : forall buffer,
  extract [] buffer = ([], buffer) ->
  extract_chunks buffer chunks = extract buffer (List.concat chunks).
Proof.
  induction chunks as [|chunk rest IH]; intros buffer Hres; simpl.
  - now rewrite extract_eq, app_nil_r.
  - rewrite (extract_eq buffer (chunk ++ List.concat rest)), app_assoc.
    rewrite extract_app. rewrite <- (extract_eq buffer chunk).
    destruct (extract buffer chunk) as [emitted buffer'] eqn:Hx.
    assert (Hk : extract [] buffer' = ([], buffer')).
    { rewrite extract_eq in Hx.
      pose proof (extract_kept (buffer ++ chunk)) as K.
      now rewrite Hx in K. }
    rewrite (IH buffer' Hk). simpl.
    destruct (extract buffer' (List.concat rest)); reflexivity.
Qed.

(** The loop of [startStreaming] with any body: the body is run on the
    values [extract] emits, in order, and the loop keeps the buffer
    [extract] retains, unless the body returns. *)
Lemma drain_frames {A : Type} (handle : A -> str -> Flow A) :
  forall (s : str) (a : A),
  drain handle s a =
  match handle_frames handle (fst (extract [] s)) a with
  | Continue a' => Pending a' (snd (extract [] s))
  | Return a' => Returned a'
  end.
Proof.
  induction s as [s IH] using str_length_ind. intros a.
  unfold extract. rewrite app_nil_l.
  rewrite (drain_unfold handle s), (drain_unfold collect s []).
  destruct s as [|c rest]; [reflexivity|].
  destruct (find_json_end (c :: rest)) as [jsonEnd|] eqn:Hend; [|reflexivity].
  change (collect ?x ?f) with (Continue (x ++ [f])). cbv iota.
  rewrite !drain_collect. simpl fst. simpl snd. simpl handle_frames.
  destruct (handle a (firstn (jsonEnd + 1) (c :: rest))) as [a'|a'];
    [|reflexivity].
  apply IH. apply skipn_shorter.
Qed.

End Extractor.

(** ** The store actions *)

Section Store.

Import GroupStore.

Lemma on_chunk_frames (buffer chunk : str) (w : World) :
  on_chunk buffer chunk w =
  match handle_frames process_frame (fst (extract buffer chunk)) w with
  | Continue w' => Pending w' (snd (extract buffer chunk))
  | Return w' => Returned w'
  end.
Proof. unfold on_chunk. rewrite extract_eq. apply drain_frames. Qed.

(** A buffer that holds no complete value is handed back untouched. *)
Lemma drain_residual {A : Type} (handle : A -> str -> Flow A)
  (buffer : str) (a : A) :
  extract [] buffer = ([], buffer) ->
  drain handle buffer a = Pending a buffer.
Proof. intros H. now rewrite drain_frames, H. Qed.

Lemma drain_pending_residual {A : Type} (handle : A -> str -> Flow A)
  (s : str) (a a' : A) (buffer : str) :
  drain handle s a = Pending a' buffer ->
  extract [] buffer = ([], buffer).
Proof.
  rewrite drain_frames.
  destruct (handle_frames handle (fst (extract [] s)) a); [|discriminate].
  intros H. injection H as _ <-. apply extract_kept.
Qed.

(** The read loop over chunks, as one pass over their concatenation. *)
Lemma read_loop_chunks (chunks : list str) : forall (buffer : str) (w : World),
  extract [] buffer = ([], buffer) ->
  read_loop (map Chunk chunks) buffer w =
  match drain process_frame (buffer ++ List.concat chunks) w with
  | Pending w' _ => update (setComplete true) w'
  | Returned w' => w'
  end.
Proof.
  induction chunks as [|chunk rest IH]; intros buffer w Hres; simpl.
  - now rewrite app_nil_r, (drain_residual _ _ _ Hres).
  - unfold on_chunk.
    rewrite app_assoc,
      (drain_app process_frame (List.concat rest) (buffer ++ chunk) w).
    destruct (drain process_frame (buffer ++ chunk) w) as [w' buffer'|w']
      eqn:E; [|reflexivity].
    apply IH. now apply drain_pending_residual in E.
Qed.

(** C2. Chunk-boundary invariance of the brace-counted extractor: for every
    text and every way of cutting it into chunks, feeding the chunks one at
    a time from an empty buffer, threading the retained buffer, emits the
    same values in the same order, and retains the same buffer, as feeding
    the whole text as one chunk.  The extraction step is the function
    [extract] of the old buffer and the chunk: the loop of [startStreaming]
    runs its body on exactly the values [extract] emits and keeps the
    buffer [extract] returns; so a whole response body leaves the same
    store however it is cut into chunks. *)
Theorem chunk_boundary_invariance :
  (forall chunks : list str,
     extract_chunks [] chunks = extract [] (List.concat chunks)) /\
  (forall (chunks : list str) (w : World),
     read_loop (map Chunk chunks) [] w =
     read_loop [Chunk (List.concat chunks)] [] w) /\
  (forall (buffer chunk : str) (w : World),
     on_chunk buffer chunk w =
     match handle_frames process_frame (fst (extract buffer chunk)) w with
     | Continue w' => Pending w' (snd (extract buffer chunk))
     | Return w' => Returned w'
     end).
Proof.
  repeat apply conj.
  - intros chunks. apply extract_chunks_residual. reflexivity.
  - intros chunks w. rewrite read_loop_chunks by reflexivity.
    simpl. unfold on_chunk. simpl.
    now destruct (drain process_frame (List.concat chunks) w).
  - apply on_chunk_frames.
Qed.

(** The scenario of three reads that cut one frame in the middle of a key
    and of a value: nothing is emitted before the frame is closed, then
    exactly one event is logged and the session is complete. *)
Lemma three_fragments :
  let first := litq "{`respo" in
  let second := litq "nse`: `{'order_id': '1', 'sender': 'A', 'receiver':'B','message':'hi','timestamp':'t','sta" in
  let third := litq "te':'DELIVERED'}`}" in
  extract [] first = ([], first) /\
  extract first second = ([], first ++ second) /\
  fst (extract (first ++ second) third) = [first ++ second ++ third] /\
  store (startStreaming [] (Body [Chunk first; Chunk second; Chunk third])
           Samples.fresh_world) =
  addEvent Samples.delivered_event (setStreaming true initialState).
Proof.
  repeat split; vm_compute; reflexivity.
Qed.

(** C3. In state Streaming, a domain event is appended to the event log
    and its order id becomes [currentOrderId]; the session moves to
    Complete ([isComplete = true], [isStreaming = false]) exactly when the
    event's [state] is the terminal marker DELIVERED, and an event with
    any other [state] leaves the status Streaming. *)
Theorem addEvent_while_streaming :
  forall (st : LogisticsStreamingState) (event : LogisticsStreamStep),
    status st = Streaming ->
    events (addEvent event st) = events st ++ [event] /\
    currentOrderId (addEvent event st) = Some (order_id event) /\
    ((isComplete (addEvent event st) = true /\
      isStreaming (addEvent event st) = false) <->
     state event = DELIVERED) /\
    (state event = DELIVERED -> error st = None ->
     status (addEvent event st) = Complete) /\
    (state event <> DELIVERED -> status (addEvent event st) = Streaming).
Proof.
  intros st event Hs.
  assert (Hstr : isStreaming st = true).
  { unfold status in Hs. destruct (isStreaming st); [reflexivity|].
    destruct (isComplete st); [destruct (error st)|]; discriminate. }
  repeat split; try reflexivity.
  - intros [_ H]. simpl in H.
    destruct (str_eqb (state event) DELIVERED) eqn:E.
    + now apply str_eqb_eq.
    + congruence.
  - simpl. apply str_eqb_eq in H. now rewrite H.
  - simpl. apply str_eqb_eq in H. now rewrite H.
  - intros Hd He. apply str_eqb_eq in Hd. unfold status. simpl.
    now rewrite Hd, He.
  - intros Hd. apply str_eqb_neq in Hd. unfold status. simpl.
    now rewrite Hd, Hstr.
Qed.

Lemma addEvent_while_streaming_witness :
  status (setStreaming true initialState) = Streaming /\
  events (addEvent Samples.delivered_event (setStreaming true initialState)) =
  [Samples.delivered_event].
Proof.
  split; [reflexivity|].
  apply (addEvent_while_streaming (setStreaming true initialState)
           Samples.delivered_event).
  reflexivity.
Defined.

(** C9. From either terminal state, Complete or Error, [reset] clears the
    event log, [finalResponse], [error] and [currentOrderId] and returns
    the session to Idle ([isStreaming = false], [isComplete = false]): the
    state after [reset] is the initial state. *)
Theorem reset_from_terminal :
  forall st : LogisticsStreamingState,
    status st = Complete \/ status st = Error ->
    reset st = initialState /\
    events (reset st) = [] /\
    finalResponse (reset st) = None /\
    error (reset st) = None /\
    currentOrderId (reset st) = None /\
    isStreaming (reset st) = false /\
    isComplete (reset st) = false /\
    status (reset st) = Idle.
Proof.
  intros st _. repeat split.
Qed.

Lemma reset_from_terminal_witness :
  (status Samples.completed_store = Complete /\
   reset Samples.completed_store = initialState) /\
  (status (setError (lit "HTTP 500: ") Samples.completed_store) = Error /\
   reset (setError (lit "HTTP 500: ") Samples.completed_store) = initialState).
Proof.
  split; (split; [reflexivity|]).
  - apply (reset_from_terminal Samples.completed_store). now left.
  - apply (reset_from_terminal
             (setError (lit "HTTP 500: ") Samples.completed_store)).
    now right.
Defined.

(** *** The event log along a stream *)








(** *** The final response *)

Lemma literal_style_nonempty (response : str) :
  literal_style response = true -> truthy (JStr response) = true.
Proof. now destruct response. Qed.

(** C6, as the code has it. When a parsed frame carries a non-empty string
    [response] that begins with neither of the two literal openers,
    [finalResponse] becomes that text, the session is Complete
    ([isComplete = true], [isStreaming = false]) and [startStreaming]
    returns: neither the frames after it in the same chunk nor any later
    read is processed. *)
Theorem final_response_terminates :
  forall (w : World) (jsonStr : str) (parsed : json) (response : str),
    JSON_parse jsonStr = Some parsed ->
    get parsed (lit "response") = Value (JStr response) ->
    response <> [] ->
    literal_style response = false ->
    let w' := update (setFinalResponse response) w in
    process_frame w jsonStr = Return w' /\
    finalResponse (store w') = Some response /\
    isComplete (store w') = true /\
    isStreaming (store w') = false /\
    events (store w') = events (store w) /\
    (forall (w0 : World) (buffer text kept : str)
            (before after : list str) (rest : list Read),
       extract buffer text = (before ++ jsonStr :: after, kept) ->
       handle_frames process_frame before w0 = Continue w ->
       read_loop (Chunk text :: rest) buffer w0 = w').
Proof.
  intros w jsonStr parsed response Hparse Hget Hne Hstyle w'.
  assert (Hframe : process_frame w jsonStr = Return w').
  { unfold process_frame. rewrite Hparse, Hget, Hstyle.
    destruct response; [contradiction|reflexivity]. }
  repeat split; try assumption.
  intros w0 buffer text kept before after rest Hx Hbefore.
  simpl. rewrite on_chunk_frames, Hx. simpl fst.
  assert (Hrun : handle_frames process_frame (before ++ jsonStr :: after) w0
                 = Return w').
  { clear Hx. revert w0 Hbefore.
    induction before as [|f before IH]; intros w0 Hbefore; simpl in *.
    - injection Hbefore as ->. now rewrite Hframe.
    - destruct (process_frame w0 f); [now apply IH|discriminate]. }
  now rewrite Hrun.
Qed.

Lemma final_response_terminates_witness :
  process_frame Samples.fresh_world Samples.final_frame =
  Return (update (setFinalResponse (lit "All done")) Samples.fresh_world).
Proof.
  apply (final_response_terminates Samples.fresh_world Samples.final_frame
           (JObj [(lit "response", JStr (lit "All done"))])
           (lit "All done")).
  - vm_compute. reflexivity.
  - vm_compute. reflexivity.
  - discriminate.
  - vm_compute. reflexivity.
Defined.

(** C6 fails as stated: a frame whose [response] is the empty string, which
    begins with neither opener, sets no final response and does not end the
    stream. *)
Lemma empty_response_is_not_final :
  JSON_parse Samples.empty_response_frame =
  Some (JObj [(lit "response", JStr [])]) /\
  literal_style [] = false /\
  process_frame Samples.fresh_world Samples.empty_response_frame =
  Continue Samples.fresh_world /\
  store (startStreaming []
           (Body [Chunk Samples.empty_response_frame;
                  Chunk Samples.delivered_frame])
           Samples.fresh_world) =
  addEvent Samples.delivered_event (setStreaming true initialState).
Proof.
  repeat split; vm_compute; reflexivity.
Qed.

End Store.

(** ** The quasi-JSON normaliser *)

Section Normaliser.

Import GroupStore Literal.
Local Open Scope N_scope.

(** *** Words that do not occur *)

Lemma startsWith_cut (pat : str) : forall (s : str) (q : N) (b : str),
  ~ In q pat -> startsWith (s ++ q :: b) pat = true -> startsWith s pat = true.
Proof.
  induction pat as [|c pat IH]; intros s q b Hq H; [reflexivity|].
  destruct s as [|d s]; simpl in *.
  - apply andb_prop in H as [H _]. apply N.eqb_eq in H. subst. tauto.
  - apply andb_prop in H as [H1 H2]. rewrite H1. simpl.
    apply (IH s q b); tauto.
Qed.

Lemma occurs_cons (pat : str) (c : N) (s : str) :
  occurs pat (c :: s) = startsWith (c :: s) pat || occurs pat s.
Proof. reflexivity. Qed.

Lemma occurs_cons_sep (pat : str) (q : N) (b : str) :
  pat <> [] -> ~ In q pat -> occurs pat (q :: b) = occurs pat b.
Proof.
  intros Hne Hq. destruct pat as [|c pat]; [contradiction|].
  simpl. destruct (c =? q) eqn:E; [|reflexivity].
  apply N.eqb_eq in E. subst. simpl in Hq. tauto.
Qed.

Lemma occurs_sep (pat : str) (q : N) (b : str) : forall a : str,
  pat <> [] -> ~ In q pat ->
  occurs pat a = false -> occurs pat b = false ->
  occurs pat (a ++ q :: b) = false.
Proof.
  induction a as [|c a IH]; intros Hne Hq Ha Hb.
  - simpl app. now rewrite occurs_cons_sep.
  - rewrite occurs_cons in Ha. apply orb_false_elim in Ha as [Hs Ha].
    rewrite <- app_comm_cons, occurs_cons, (IH Hne Hq Ha Hb), orb_false_r.
    rewrite app_comm_cons.
    destruct (startsWith ((c :: a) ++ q :: b) pat) eqn:E; [|reflexivity].
    apply startsWith_cut in E; [congruence|assumption].
Qed.

(** A word that does not occur is not replaced. *)
Lemma replaceAll_absent (pat rep : str) : forall s : str,
  occurs pat s = false -> replaceAll pat rep s = s.
Proof.
  unfold replaceAll. induction s as [|c s IH]; intros H; [reflexivity|].
  rewrite occurs_cons in H. apply orb_false_elim in H as [Hs Ho].
  cbn [replace_from]. rewrite Hs. f_equal. now apply IH.
Qed.

(** *** The quotes *)

Lemma replaceAll_quotes (s : str) :
  replaceAll (lit "'") (litq "`") s = map requote s.
Proof.
  unfold replaceAll. induction s as [|c s IH]; [reflexivity|].
  cbn [replace_from map]. unfold requote at 1.
  change (startsWith (c :: s) (lit "'")) with ((39 =? c) && true).
  rewrite andb_true_r, N.eqb_sym.
  destruct (c =? 39); simpl; now rewrite IH.
Qed.

Lemma clean_plain (s : str) : clean s = true -> forallb plain_unit s = true.
Proof.
  unfold clean. intros H.
  now apply andb_prop in H as [H _]; apply andb_prop in H as [H _];
    apply andb_prop in H as [H _].
Qed.

Lemma requote_plain (s : str) :
  forallb plain_unit s = true -> map requote s = s.
Proof.
  induction s as [|c s IH]; intros H; [reflexivity|].
  simpl in H. apply andb_prop in H as [Hc Hs].
  simpl. rewrite (IH Hs). f_equal.
  unfold plain_unit in Hc. unfold requote.
  destruct (c =? 39); [|reflexivity].
  now rewrite andb_false_r in Hc.
Qed.

Lemma clean_fields_cons (kv : str * str) (rest : list (str * str)) :
  clean_fields (kv :: rest) = true ->
  clean (fst kv) = true /\ clean (snd kv) = true /\ clean_fields rest = true.
Proof.
  unfold clean_fields. simpl. intros H.
  apply andb_prop in H as [H1 H2]. apply andb_prop in H1 as [Hk Hv].
  auto.
Qed.

Lemma requote_member (kv : str * str) (tail : str) :
  clean (fst kv) = true -> clean (snd kv) = true ->
  map requote (member_then 39 kv tail) = member_then 34 kv (map requote tail).
Proof.
  intros Hk Hv. unfold member_then.
  cbn [map]. rewrite map_app. cbn [map]. rewrite map_app. cbn [map].
  rewrite (requote_plain _ (clean_plain _ Hk)).
  rewrite (requote_plain _ (clean_plain _ Hv)).
  reflexivity.
Qed.

Lemma requote_members (fields : list (str * str)) : forall tail : str,
  clean_fields fields = true ->
  map requote (members_then 39 fields tail) =
  members_then 34 fields (map requote tail).
Proof.
  induction fields as [|kv rest IH]; intros tail H; [reflexivity|].
  apply clean_fields_cons in H as (Hk & Hv & Hrest).
  cbn [members_then]. destruct rest as [|kv' rest'].
  - now apply requote_member.
  - rewrite (requote_member _ _ Hk Hv). cbn [map].
    now rewrite (IH _ Hrest).
Qed.

(** *** The three words *)

Section Word.

(** A word that contains none of the units the rendering puts around keys
    and values. *)
Variable pat : str.
Hypothesis pat_nonempty : pat <> [].
Hypothesis pat_inert : forall q, In q [34; 58; 32; 44; 123; 125] -> ~ In q pat.

Lemma occurs_member (kv : str * str) (tail : str) :
  occurs pat (fst kv) = false -> occurs pat (snd kv) = false ->
  occurs pat tail = false ->
  occurs pat (member_then 34 kv tail) = false.
Proof.
  intros Hk Hv Ht. unfold member_then.
  rewrite occurs_cons_sep by (auto; apply pat_inert; simpl; tauto).
  apply occurs_sep; auto; [apply pat_inert; simpl; tauto|].
  rewrite !occurs_cons_sep by (auto; apply pat_inert; simpl; tauto).
  apply occurs_sep; auto. apply pat_inert; simpl; tauto.
Qed.

Lemma occurs_members (fields : list (str * str)) : forall tail : str,
  (forall kv, In kv fields ->
     occurs pat (fst kv) = false /\ occurs pat (snd kv) = false) ->
  occurs pat tail = false ->
  occurs pat (members_then 34 fields tail) = false.
Proof.
  induction fields as [|kv rest IH]; intros tail H Ht; [assumption|].
  cbn [members_then].
  destruct (H kv (or_introl eq_refl)) as [Hk Hv].
  destruct rest as [|kv' rest'].
  - now apply occurs_member.
  - apply occurs_member; auto.
    rewrite !occurs_cons_sep by (auto; apply pat_inert; simpl; tauto).
    apply IH; auto. intros x Hx. apply H. now right.
Qed.

Lemma occurs_render_dict (fields : list (str * str)) :
  (forall kv, In kv fields ->
     occurs pat (fst kv) = false /\ occurs pat (snd kv) = false) ->
  occurs pat (render_dict 34 fields) = false.
Proof.
  intros H. unfold render_dict.
  rewrite occurs_cons_sep by (auto; apply pat_inert; simpl; tauto).
  apply occurs_members; auto.
  rewrite occurs_cons_sep by (auto; apply pat_inert; simpl; tauto).
  reflexivity.
Qed.

End Word.

Lemma clean_words (s : str) :
  clean s = true ->
  occurs (lit "True") s = false /\
  occurs (lit "False") s = false /\
  occurs (lit "None") s = false.
Proof.
  unfold clean. intros H.
  apply andb_prop in H as [H Hn]. apply andb_prop in H as [H Hf].
  apply andb_prop in H as [_ Ht].
  now rewrite negb_true_iff in Hn, Hf, Ht.
Qed.

Lemma clean_fields_in (fields : list (str * str)) (kv : str * str) :
  clean_fields fields = true -> In kv fields ->
  clean (fst kv) = true /\ clean (snd kv) = true.
Proof.
  unfold clean_fields. rewrite forallb_forall. intros H Hin.
  apply H in Hin. now apply andb_prop in Hin.
Qed.

Ltac inert_word :=
  solve [ discriminate
        | intros q Hq Hin; simpl in Hq, Hin;
          repeat (destruct Hq as [<-|Hq]; [lia|]); contradiction ].

(** On clean fields the normaliser only turns the apostrophes into double
    quotes. *)
Lemma normalise_literal (fields : list (str * str)) :
  clean_fields fields = true ->
  normalise (literal_repr fields) = render_dict 34 fields.
Proof.
  intros H. unfold normalise. rewrite replaceAll_quotes.
  unfold literal_repr, render_dict. cbn [map].
  rewrite (requote_members _ _ H). cbn [map].
  change (123 :: members_then 34 fields [125]) with (render_dict 34 fields).
  assert (Hw : forall kv, In kv fields ->
            (occurs (lit "True") (fst kv) = false /\
             occurs (lit "True") (snd kv) = false) /\
            (occurs (lit "False") (fst kv) = false /\
             occurs (lit "False") (snd kv) = false) /\
            (occurs (lit "None") (fst kv) = false /\
             occurs (lit "None") (snd kv) = false)).
  { intros kv Hin. destruct (clean_fields_in _ _ H Hin) as [Hk Hv].
    apply clean_words in Hk, Hv. tauto. }
  rewrite (replaceAll_absent (lit "True")), (replaceAll_absent (lit "False")),
    (replaceAll_absent (lit "None")); try reflexivity;
    apply occurs_render_dict; try inert_word;
    intros kv Hin; apply Hw in Hin; tauto.
Qed.

(** *** Parsing the normalised text *)

Lemma plain_unit_tests (c : N) :
  plain_unit c = true ->
  (c =? 34) = false /\ (c =? 92) = false /\ (c <? 32) = false.
Proof.
  unfold plain_unit. intros H.
  apply andb_prop in H as [H H92]. apply andb_prop in H as [H _].
  apply andb_prop in H as [H32 H34].
  rewrite negb_true_iff in H34, H92. repeat split; auto.
  apply N.ltb_ge. now apply N.leb_le.
Qed.

(** A run of plain units up to a double quote is a string literal that
    denotes itself. *)
Lemma parse_string_plain (s rest : str) :
  forallb plain_unit s = true ->
  parse_string_body (s ++ 34 :: rest) = Some (s, rest).
Proof.
  induction s as [|c s IH]; intros H; [reflexivity|].
  simpl in H. apply andb_prop in H as [Hc Hs].
  destruct (plain_unit_tests _ Hc) as (H34 & H92 & H32).
  cbn [app parse_string_body]. rewrite H34, H92, H32, (IH Hs). reflexivity.
Qed.

Lemma parse_value_plain (fuel : nat) (s rest : str) :
  forallb plain_unit s = true ->
  parse_value (S fuel) (34 :: s ++ 34 :: rest) = Some (JStr s, rest).
Proof.
  intros H. cbn [parse_value].
  change (34 =? 123) with false. change (34 =? 91) with false.
  change (34 =? 34) with true. cbv iota.
  now rewrite (parse_string_plain _ _ H).
Qed.

Lemma members_then_head (q : N) (fields : list (str * str)) (tail : str) :
  fields <> [] ->
  exists r, members_then q fields tail = q :: r.
Proof.
  destruct fields as [|kv rest]; [contradiction|]. intros _.
  cbn [members_then]. destruct rest; unfold member_then; eauto.
Qed.

Lemma parse_members_rendered (fields : list (str * str)) :
  forall (fuel : nat) (acc : list (str * json)) (tail : str),
    fields <> [] ->
    clean_fields fields = true ->
    (List.length fields < fuel)%nat ->
    parse_members fuel (members_then 34 fields (125 :: tail)) acc =
    Some (JObj (acc ++ map as_member fields), tail).
Proof.
  induction fields as [|kv rest IH]; intros fuel acc tail Hne Hc Hf;
    [contradiction|].
  apply clean_fields_cons in Hc as (Hk & Hv & Hrest).
  apply clean_plain in Hk, Hv.
  destruct fuel as [|fuel]; [simpl in Hf; lia|].
  destruct fuel as [|fuel]; [simpl in Hf; lia|].
  assert (Hmember : forall after d,
            parse_members (S (S fuel)) (member_then 34 kv (d :: after)) acc =
            if d =? 44
            then parse_members (S fuel) (skip_ws after) (acc ++ [as_member kv])
            else if d =? 125
                 then Some (JObj (acc ++ [as_member kv]), after)
                 else if is_ws d
                      then parse_members (S (S fuel))
                             (member_then 34 kv (d :: after)) acc
                      else None).
  { intros after d. unfold member_then.
    cbn [parse_members]. change (34 =? 34) with true. cbv iota.
    rewrite (parse_string_plain _ _ Hk).
    change (skip_ws (58 :: 32 :: 34 :: snd kv ++ 34 :: d :: after)) with
      (58 :: 32 :: 34 :: snd kv ++ 34 :: d :: after).
    change (58 =? 58) with true. cbv iota.
    change (skip_ws (32 :: 34 :: snd kv ++ 34 :: d :: after)) with
      (34 :: snd kv ++ 34 :: d :: after).
    rewrite (parse_value_plain fuel _ _ Hv).
    cbn [skip_ws]. destruct (is_ws d) eqn:Hws.
    - unfold is_ws in Hws.
      destruct (d =? 44) eqn:E44;
        [apply N.eqb_eq in E44; subst; discriminate|].
      destruct (d =? 125) eqn:E125;
        [apply N.eqb_eq in E125; subst; discriminate|].
      reflexivity.
    - reflexivity. }
  cbn [members_then]. destruct rest as [|kv' rest'].
  - rewrite Hmember. reflexivity.
  - rewrite Hmember.
    change (44 =? 44) with true. cbv iota.
    destruct (members_then_head 34 (kv' :: rest') (125 :: tail)) as [r Hr];
      [discriminate|].
    change (skip_ws (32 :: members_then 34 (kv' :: rest') (125 :: tail)))
      with (skip_ws (members_then 34 (kv' :: rest') (125 :: tail))).
    rewrite Hr. change (skip_ws (34 :: r)) with (34 :: r). rewrite <- Hr.
    rewrite IH; [|discriminate|assumption|simpl in *; lia].
    now rewrite <- app_assoc.
Qed.

Lemma members_then_length (fields : list (str * str)) : forall tail : str,
  (List.length fields <= List.length (members_then 34 fields tail))%nat.
Proof.
  induction fields as [|kv rest IH]; intros tail; [simpl; lia|].
  cbn [members_then]. destruct rest as [|kv' rest'].
  - unfold member_then. cbn [List.length]. lia.
  - unfold member_then. cbn [List.length]. rewrite length_app.
    cbn [List.length]. rewrite length_app. cbn [List.length].
    specialize (IH tail). cbn [List.length] in IH. lia.
Qed.

(** The normalised text of a non-empty dictionary of clean fields parses
    to the object with these fields. *)
Lemma JSON_parse_rendered (fields : list (str * str)) :
  fields <> [] ->
  clean_fields fields = true ->
  JSON_parse (render_dict 34 fields) = Some (JObj (map as_member fields)).
Proof.
  intros Hne Hc. unfold JSON_parse, render_dict.
  change (skip_ws (123 :: members_then 34 fields [125])) with
    (123 :: members_then 34 fields [125]).
  cbn [List.length parse_value]. change (123 =? 123) with true. cbv iota.
  destruct (members_then_head 34 fields [125] Hne) as [r Hr].
  rewrite Hr. change (skip_ws (34 :: r)) with (34 :: r).
  change (34 =? 125) with false. cbv iota. rewrite <- Hr.
  rewrite (parse_members_rendered fields _ [] [] Hne Hc).
  - reflexivity.
  - pose proof (members_then_length fields [125]). lia.
Qed.

Lemma lookup_as_member (k : str) (fields : list (str * str)) :
  lookup k (map as_member fields) =
  match field_text k fields with
  | Some v => Some (JStr v)
  | None => None
  end.
Proof.
  induction fields as [|[k' v] rest IH]; [reflexivity|].
  cbn [map as_member fst snd lookup field_text]. rewrite IH.
  destruct (field_text k rest); [reflexivity|].
  now destruct (str_eqb k k').
Qed.

Lemma string_field_as_member (k : str) (fields : list (str * str)) :
  string_field (JObj (map as_member fields)) k =
  text_or_empty (field_text k fields).
Proof.
  unfold string_field, get. rewrite lookup_as_member.
  now destruct (field_text k fields).
Qed.

Lemma as_step_rendered (fields : list (str * str)) :
  as_step (JObj (map as_member fields)) = event_of fields.
Proof.
  unfold as_step, event_of. now rewrite !string_field_as_member.
Qed.

Lemma valid_rendered (fields : list (str * str)) :
  forallb (present_nonblank fields) requiredStringFields = true ->
  isValidLogisticsStreamStep (JObj (map as_member fields)) = true.
Proof.
  intros H. unfold isValidLogisticsStreamStep. cbn [truthy typeof_object negb orb].
  rewrite <- H. clear H.
  induction requiredStringFields as [|k ks IH]; [reflexivity|].
  cbn [forallb]. rewrite IH. f_equal.
  unfold nonblank_string_field, present_nonblank, get.
  rewrite lookup_as_member. now destruct (field_text k fields).
Qed.

(** A candidate that misses a required field, or has it blank or not a
    string, is not a domain event. *)
Lemma invalid_field (eventObj : json) (field : str) :
  In field requiredStringFields ->
  (forall s, get eventObj field = Value (JStr s) -> trim s = []) ->
  isValidLogisticsStreamStep eventObj = false.
Proof.
  intros Hin Hbad. unfold isValidLogisticsStreamStep.
  destruct (negb (truthy eventObj) || negb (typeof_object eventObj));
    [reflexivity|].
  apply not_true_is_false. intros Hall.
  rewrite forallb_forall in Hall. specialize (Hall field Hin).
  unfold nonblank_string_field in Hall.
  destruct (get eventObj field) as [| |v]; try discriminate.
  destruct v; try discriminate.
  rewrite (Hbad _ eq_refl) in Hall. discriminate.
Qed.

Lemma present_nonempty (fields : list (str * str)) :
  forallb (present_nonblank fields) requiredStringFields = true ->
  fields <> [].
Proof. intros H ->. discriminate. Qed.

Lemma event_of_fields (event : LogisticsStreamStep) :
  event_of (fields_of event) = event.
Proof. now destruct event. Qed.

Lemma process_literal_rendered (fields : list (str * str)) (w : World) :
  clean_fields fields = true ->
  forallb (present_nonblank fields) requiredStringFields = true ->
  process_literal w (literal_repr fields) =
  update (addEvent (event_of fields)) w.
Proof.
  intros Hc Hp. unfold process_literal.
  rewrite (normalise_literal _ Hc).
  rewrite (JSON_parse_rendered _ (present_nonempty _ Hp) Hc).
  now rewrite (valid_rendered _ Hp), as_step_rendered.
Qed.

(** *** Numbers followed by more text *)

Lemma stops_digit (t : str) :
  stops t = true -> span_digits t = ([], t).
Proof.
  destruct t as [|d t]; [reflexivity|]. unfold stops, number_unit.
  rewrite negb_true_iff, !orb_false_iff. intros (((((H & _) & _) & _) & _) & _).
  simpl. now rewrite H.
Qed.

Lemma span_digits_app (t : str) : forall s ds rest : str,
  stops t = true ->
  span_digits s = (ds, rest) -> span_digits (s ++ t) = (ds, rest ++ t).
Proof.
  induction s as [|c s IH]; intros ds rest Ht H.
  - injection H as <- <-. now apply stops_digit.
  - simpl in *. destruct (is_digit c).
    + destruct (span_digits s) as [ds' rest'] eqn:E.
      injection H as <- <-. now rewrite (IH _ _ Ht eq_refl).
    + now injection H as <- <-.
Qed.

Lemma span_digits_units (s : str) :
  forallb number_unit (fst (span_digits s)) = true.
Proof.
  induction s as [|c s IH]; [reflexivity|]. simpl.
  destruct (is_digit c) eqn:E; [|reflexivity].
  destruct (span_digits s) as [ds rest]. simpl in *.
  rewrite IH, andb_true_r. unfold number_unit. now rewrite E.
Qed.

Lemma digits1_app (t s ds rest : str) :
  stops t = true ->
  digits1 s = Some (ds, rest) -> digits1 (s ++ t) = Some (ds, rest ++ t).
Proof.
  unfold digits1. intros Ht H.
  destruct (span_digits s) as [ds' rest'] eqn:E.
  rewrite (span_digits_app t _ _ _ Ht E).
  destruct ds'; [discriminate|]. now injection H as <- <-.
Qed.

Lemma digits1_units (s ds rest : str) :
  digits1 s = Some (ds, rest) -> forallb number_unit ds = true.
Proof.
  unfold digits1. intros H. pose proof (span_digits_units s) as U.
  destruct (span_digits s) as [ds' rest']. destruct ds'; [discriminate|].
  now injection H as <- <-.
Qed.

Lemma stops_head (t : str) (c : N) :
  stops t = true -> number_unit c = true ->
  match t with [] => True | d :: _ => (d =? c) = false end.
Proof.
  destruct t as [|d t]; [trivial|]. unfold stops. rewrite negb_true_iff.
  intros Hd Hc. apply N.eqb_neq. intros ->. congruence.
Qed.

Lemma number_sign_app (t s sg s1 : str) :
  stops t = true ->
  number_sign s = (sg, s1) -> number_sign (s ++ t) = (sg, s1 ++ t).
Proof.
  intros Ht H. destruct s as [|c s]; simpl in *.
  - injection H as <- <-.
    pose proof (stops_head t 45 Ht eq_refl) as Hh.
    destruct t as [|d t]; [reflexivity|]. simpl. now rewrite Hh.
  - destruct (c =? 45); now injection H as <- <-.
Qed.

Lemma number_int_app (t s i s2 : str) :
  stops t = true ->
  number_int s = Some (i, s2) -> number_int (s ++ t) = Some (i, s2 ++ t).
Proof.
  intros Ht H. destruct s as [|c s]; [discriminate|]. simpl app.
  unfold number_int in *. destruct (c =? 48).
  - now injection H as <- <-.
  - destruct (is_digit c); [|discriminate].
    now apply (digits1_app t (c :: s)).
Qed.

Lemma number_frac_app (t s f s3 : str) :
  stops t = true ->
  number_frac s = Some (f, s3) -> number_frac (s ++ t) = Some (f, s3 ++ t).
Proof.
  intros Ht H. destruct s as [|c s]; simpl in *.
  - injection H as <- <-.
    pose proof (stops_head t 46 Ht eq_refl) as Hh.
    destruct t as [|d t]; [reflexivity|]. simpl. now rewrite Hh.
  - destruct (c =? 46).
    + destruct (digits1 s) as [[ds rest]|] eqn:E; [|discriminate].
      rewrite (digits1_app t _ _ _ Ht E). now injection H as <- <-.
    + now injection H as <- <-.
Qed.

Lemma number_exp_app (t s e s4 : str) :
  stops t = true ->
  number_exp s = Some (e, s4) -> number_exp (s ++ t) = Some (e, s4 ++ t).
Proof.
  intros Ht H. destruct s as [|c s]; cbn [number_exp app] in *.
  - injection H as <- <-.
    pose proof (stops_head t 101 Ht eq_refl) as H1.
    pose proof (stops_head t 69 Ht eq_refl) as H2.
    destruct t as [|d t]; [reflexivity|]. cbn [number_exp app].
    now rewrite H1, H2.
  - destruct ((c =? 101) || (c =? 69)).
    + destruct s as [|g s]; [discriminate|]. cbn [app].
      destruct ((g =? 43) || (g =? 45)).
      * destruct (digits1 s) as [[ds rest]|] eqn:E; [|discriminate].
        rewrite (digits1_app t _ _ _ Ht E). now injection H as <- <-.
      * destruct (digits1 (g :: s)) as [[ds rest]|] eqn:E; [|discriminate].
        change (g :: s ++ t) with ((g :: s) ++ t).
        rewrite (digits1_app t (g :: s) _ _ Ht E). now injection H as <- <-.
    + now injection H as <- <-.
Qed.

Lemma parse_number_app (t s l rest : str) :
  stops t = true ->
  parse_number s = Some (l, rest) ->
  parse_number (s ++ t) = Some (l, rest ++ t).
Proof.
  unfold parse_number. intros Ht H.
  destruct (number_sign s) as [sg s1] eqn:E1.
  rewrite (number_sign_app t _ _ _ Ht E1).
  destruct (number_int s1) as [[i s2]|] eqn:E2; [|discriminate].
  rewrite (number_int_app t _ _ _ Ht E2).
  destruct (number_frac s2) as [[f s3]|] eqn:E3; [|discriminate].
  rewrite (number_frac_app t _ _ _ Ht E3).
  destruct (number_exp s3) as [[e s4]|] eqn:E4; [|discriminate].
  rewrite (number_exp_app t _ _ _ Ht E4).
  now injection H as <- <-.
Qed.

Lemma parse_number_units (s l rest : str) :
  parse_number s = Some (l, rest) -> forallb number_unit l = true.
Proof.
  unfold parse_number. intros H.
  destruct (number_sign s) as [sg s1] eqn:E1.
  destruct (number_int s1) as [[i s2]|] eqn:E2; [|discriminate].
  destruct (number_frac s2) as [[f s3]|] eqn:E3; [|discriminate].
  destruct (number_exp s3) as [[e s4]|] eqn:E4; [|discriminate].
  injection H as <- <-. rewrite !forallb_app.
  repeat (apply andb_true_intro; split).
  - destruct s as [|c s]; simpl in E1; [now injection E1 as <- <-|].
    destruct (c =? 45) eqn:E; injection E1 as <- <-; [|reflexivity].
    apply N.eqb_eq in E. now subst.
  - destruct s1 as [|c s1]; [discriminate|]. unfold number_int in E2.
    destruct (c =? 48) eqn:E.
    + injection E2 as <- <-. apply N.eqb_eq in E. now subst.
    + destruct (is_digit c); [|discriminate].
      now apply digits1_units in E2.
  - destruct s2 as [|c s2]; simpl in E3; [now injection E3 as <- <-|].
    destruct (c =? 46) eqn:E.
    + destruct (digits1 s2) as [[ds rest]|] eqn:Ed; [|discriminate].
      injection E3 as <- <-. apply N.eqb_eq in E. subst. simpl.
      now apply digits1_units in Ed.
    + now injection E3 as <- <-.
  - destruct s3 as [|c s3]; simpl in E4; [now injection E4 as <- <-|].
    destruct ((c =? 101) || (c =? 69)) eqn:E.
    + assert (Hc : number_unit c = true).
      { unfold number_unit. apply orb_prop in E as [E|E]; rewrite E;
          now rewrite ?orb_true_r. }
      destruct s3 as [|g s3]; [discriminate|].
      destruct ((g =? 43) || (g =? 45)) eqn:Eg.
      * destruct (digits1 s3) as [[ds rest]|] eqn:Ed; [|discriminate].
        injection E4 as <- <-. simpl. rewrite Hc. simpl.
        apply digits1_units in Ed. rewrite Ed, andb_true_r.
        unfold number_unit. apply orb_prop in Eg as [Eg|Eg]; rewrite Eg;
          now rewrite ?orb_true_r.
      * destruct (digits1 (g :: s3)) as [[ds rest]|] eqn:Ed; [|discriminate].
        injection E4 as <- <-. simpl. rewrite Hc. simpl.
        now apply digits1_units in Ed.
    + now injection E4 as <- <-.
Qed.

Lemma json_number_parse (lexeme : str) :
  json_number lexeme = true -> parse_number lexeme = Some (lexeme, []).
Proof.
  unfold json_number. destruct (parse_number lexeme) as [[l rest]|];
    [|discriminate].
  destruct rest; [|discriminate]. intros H.
  apply str_eqb_eq in H. now subst.
Qed.

Lemma json_number_units (lexeme : str) :
  json_number lexeme = true ->
  forallb number_unit lexeme = true /\ lexeme <> [].
Proof.
  intros H. apply json_number_parse in H. split.
  - now apply parse_number_units in H.
  - intros ->. discriminate.
Qed.

(** What a unit of a number is not. *)
Lemma number_unit_tests (c : N) :
  number_unit c = true ->
  (c =? 123) = false /\ (c =? 91) = false /\ (c =? 34) = false /\
  (116 =? c) = false /\ (102 =? c) = false /\ (110 =? c) = false /\
  (c =? 39) = false /\ is_ws c = false /\ (c =? 93) = false /\
  (c =? 125) = false.
Proof.
  unfold number_unit, is_digit, is_ws. intros H.
  repeat rewrite ?orb_true_iff, ?andb_true_iff, ?N.eqb_eq, ?N.leb_le in H.
  repeat split; try (apply N.eqb_neq; lia).
  rewrite !orb_false_iff, !N.eqb_neq. lia.
Qed.

Lemma parse_value_number (fuel : nat) (lexeme tail : str) :
  json_number lexeme = true -> stops tail = true ->
  parse_value (S fuel) (lexeme ++ tail) = Some (JNum lexeme, tail).
Proof.
  intros Hn Ht. destruct (json_number_units _ Hn) as [Hu Hne].
  apply json_number_parse in Hn.
  pose proof (parse_number_app tail _ _ _ Ht Hn) as Hp. simpl in Hp.
  destruct lexeme as [|c l]; [contradiction|].
  simpl in Hu. apply andb_prop in Hu as [Hc _].
  destruct (number_unit_tests c Hc)
    as (H1 & H2 & H3 & H4 & H5 & H6 & _).
  simpl app in *. cbn [parse_value]. rewrite H1, H2, H3.
  cbn [startsWith lit map list_ascii_of_string].
  change (N_of_ascii "t") with 116. change (N_of_ascii "f") with 102.
  change (N_of_ascii "n") with 110.
  rewrite H4, H5, H6. cbn [andb]. now rewrite Hp.
Qed.

(** *** Strings with escapes *)

Lemma sound_unescape (s : str) :
  sound s = true -> unescape s = Some (text_of s).
Proof.
  unfold sound, text_of. now destruct (unescape s).
Qed.

Lemma sound_words (s : str) :
  sound s = true ->
  occurs (lit "True") s = false /\
  occurs (lit "False") s = false /\
  occurs (lit "None") s = false.
Proof.
  unfold sound. intros H.
  apply andb_prop in H as [H Hn]. apply andb_prop in H as [H Hf].
  apply andb_prop in H as [_ Ht].
  now rewrite negb_true_iff in Hn, Hf, Ht.
Qed.

(** The escapes of [unescape] are escapes of JSON, with the same meaning;
    none of them is written with an apostrophe. *)
Lemma escape_letter (e u : N) :
  (if e =? 34 then Some 34
   else if e =? 92 then Some 92
   else if e =? 98 then Some 8
   else if e =? 102 then Some 12
   else if e =? 110 then Some 10
   else if e =? 114 then Some 13
   else if e =? 116 then Some 9
   else None) = Some u ->
  (if e =? 34 then Some 34
   else if e =? 92 then Some 92
   else if e =? 47 then Some 47
   else if e =? 98 then Some 8
   else if e =? 102 then Some 12
   else if e =? 110 then Some 10
   else if e =? 114 then Some 13
   else if e =? 116 then Some 9
   else None) = Some u /\ e <> 39.
Proof.
  destruct (e =? 34) eqn:E1; [apply N.eqb_eq in E1; subst; now split|].
  destruct (e =? 92) eqn:E2; [apply N.eqb_eq in E2; subst; now split|].
  destruct (e =? 98) eqn:E3; [apply N.eqb_eq in E3; subst; now split|].
  destruct (e =? 102) eqn:E4; [apply N.eqb_eq in E4; subst; now split|].
  destruct (e =? 110) eqn:E5; [apply N.eqb_eq in E5; subst; now split|].
  destruct (e =? 114) eqn:E6; [apply N.eqb_eq in E6; subst; now split|].
  destruct (e =? 116) eqn:E7; [apply N.eqb_eq in E7; subst; now split|].
  discriminate.
Qed.

Lemma hex_value_unit (h a : N) : hex_value h = Some a -> h <> 39.
Proof. intros H ->. discriminate. Qed.

(** A string that [unescape] reads is a string literal of JSON with the
    same meaning, and holds no apostrophe. *)
Lemma unescape_reads : forall (s d : str),
  unescape s = Some d ->
  (forall rest, parse_string_body (s ++ 34 :: rest) = Some (d, rest)) /\
  ~ In 39 s.
Proof.
  intros s. induction s as [s IH] using str_length_ind. intros d H.
  destruct s as [|c r]; [injection H as <-; split; [reflexivity|tauto]|].
  cbn [unescape] in H. destruct (c =? 92) eqn:E92.
  - apply N.eqb_eq in E92. subst c.
    destruct r as [|e r1]; [discriminate|].
    destruct (e =? 117) eqn:E117.
    + apply N.eqb_eq in E117. subst e.
      destruct r1 as [|h1 [|h2 [|h3 [|h4 r2]]]]; try discriminate.
      destruct (hex_value h1) as [a|] eqn:Ea; [|discriminate].
      destruct (hex_value h2) as [b|] eqn:Eb; [|discriminate].
      destruct (hex_value h3) as [c3|] eqn:Ec; [|discriminate].
      destruct (hex_value h4) as [d4|] eqn:Ed; [|discriminate].
      destruct (unescape r2) as [body|] eqn:Eu; [|discriminate].
      injection H as <-.
      destruct (IH r2 ltac:(simpl; lia) body Eu) as [Hp Hq]. split.
      * intros rest. cbn [app parse_string_body].
        change (92 =? 34) with false. change (92 =? 92) with true.
        change (117 =? 117) with true. cbv iota.
        now rewrite Ea, Eb, Ec, Ed, Hp.
      * apply hex_value_unit in Ea, Eb, Ec, Ed. simpl.
        intuition (discriminate || congruence).
    + match type of H with
      | match ?x with _ => _ end = _ => destruct x as [u|] eqn:Ee
      end; [|discriminate].
      destruct (unescape r1) as [body|] eqn:Eu; [|discriminate].
      injection H as <-.
      destruct (escape_letter e u Ee) as [Ee' He].
      destruct (IH r1 ltac:(simpl; lia) body Eu) as [Hp Hq]. split.
      * intros rest. cbn [app parse_string_body].
        change (92 =? 34) with false. change (92 =? 92) with true.
        cbv iota. rewrite E117, Ee', Hp. reflexivity.
      * simpl. intuition (discriminate || congruence).
  - destruct (plain_unit c) eqn:Ep; [|discriminate].
    destruct (unescape r) as [body|] eqn:Eu; [|discriminate].
    injection H as <-.
    destruct (IH r ltac:(simpl; lia) body Eu) as [Hp Hq].
    destruct (plain_unit_tests _ Ep) as (H34 & H92 & H32). split.
    + intros rest. cbn [app parse_string_body].
      now rewrite H34, H92, H32, Hp.
    + simpl. intros [Habs|Habs]; [|now apply Hq].
      subst c. discriminate.
Qed.

Lemma parse_string_sound (s rest : str) :
  sound s = true ->
  parse_string_body (s ++ 34 :: rest) = Some (text_of s, rest).
Proof.
  intros H. apply (unescape_reads s _ (sound_unescape s H)).
Qed.

Lemma parse_value_sound (fuel : nat) (s rest : str) :
  sound s = true ->
  parse_value (S fuel) (34 :: s ++ 34 :: rest) = Some (JStr (text_of s), rest).
Proof.
  intros H. cbn [parse_value].
  change (34 =? 123) with false. change (34 =? 91) with false.
  change (34 =? 34) with true. cbv iota.
  now rewrite (parse_string_sound _ _ H).
Qed.

Lemma requote_sound (s : str) : sound s = true -> map requote s = s.
Proof.
  intros H. pose proof (proj2 (unescape_reads s _ (sound_unescape s H))) as Hq.
  clear H. induction s as [|c s IH]; [reflexivity|].
  simpl. rewrite IH by (simpl in Hq; tauto). f_equal.
  unfold requote. destruct (c =? 39) eqn:E; [|reflexivity].
  apply N.eqb_eq in E. subst. simpl in Hq. tauto.
Qed.

(** *** Reading a literal written in the spelling of JSON *)

Lemma skip_ws_unit (c : N) (r : str) :
  is_ws c = false -> skip_ws (c :: r) = c :: r.
Proof. intros H. simpl. now rewrite H. Qed.

Lemma skip_ws_blank (gap rest : str) :
  blank gap = true -> skip_ws (gap ++ rest) = skip_ws rest.
Proof.
  induction gap as [|c gap IH]; intros H; [reflexivity|].
  simpl in H. apply andb_prop in H as [Hc Hg].
  simpl. rewrite Hc. now apply IH.
Qed.

Lemma stops_after (gap : str) (d : N) (rest : str) :
  blank gap = true -> number_unit d = false ->
  stops (gap ++ d :: rest) = true.
Proof.
  intros Hg Hd. destruct gap as [|c gap]; simpl.
  - now rewrite Hd.
  - simpl in Hg. apply andb_prop in Hg as [Hc _].
    destruct (number_unit c) eqn:E; [|reflexivity].
    apply number_unit_tests in E.
    destruct E as (_ & _ & _ & _ & _ & _ & _ & Hw & _). congruence.
Qed.

(** A value begins with a unit that is neither white space nor a closing
    bracket or brace. *)
Lemma write_value_head (v : py) (tail : str) :
  well_formed v = true ->
  exists (c : N) (r : str),
    write_value strict v tail = c :: r /\ is_ws c = false /\
    (c =? 93) = false /\ (c =? 125) = false.
Proof.
  destruct v; intros H; cbn [write_value strict quote word_none word_true
                             word_false]; try (eexists _, _; now split).
  - destruct b; eexists _, _; now split.
  - cbn [well_formed] in H. destruct (json_number_units _ H) as [Hu Hne].
    destruct lexeme as [|c l]; [contradiction|].
    simpl in Hu. apply andb_prop in Hu as [Hc _].
    apply number_unit_tests in Hc. exists c, (l ++ tail). tauto.
Qed.

Lemma skip_ws_write_value (gap : str) (v : py) (tail : str) :
  blank gap = true -> well_formed v = true ->
  skip_ws (gap ++ write_value strict v tail) = write_value strict v tail.
Proof.
  intros Hg Hv. rewrite (skip_ws_blank _ _ Hg).
  destruct (write_value_head v tail Hv) as (c & r & -> & Hc & _).
  now apply skip_ws_unit.
Qed.

Ltac split_and H :=
  repeat match type of H with
         | (_ && _) = true =>
             let H' := fresh H in apply andb_prop in H as [H H']
         end.

Lemma well_formed_one_item (lead : str) (v : py) (after : str) :
  well_formed_items (OneItem lead v after) = true ->
  blank lead = true /\ well_formed v = true /\ blank after = true.
Proof. cbn [well_formed_items]. intros H. split_and H. auto. Qed.

Lemma well_formed_more_items (lead : str) (v : py) (after : str)
  (rest : py_items) :
  well_formed_items (MoreItems lead v after rest) = true ->
  blank lead = true /\ well_formed v = true /\ blank after = true /\
  well_formed_items rest = true.
Proof. cbn [well_formed_items]. intros H. split_and H. auto. Qed.

Lemma well_formed_one_member (lead : str) (single : bool) (key g1 g2 : str)
  (v : py) (after : str) :
  well_formed_members (OneMember lead single key g1 g2 v after) = true ->
  blank lead = true /\ sound key = true /\ blank g1 = true /\
  blank g2 = true /\ well_formed v = true /\ blank after = true.
Proof. cbn [well_formed_members]. intros H. split_and H. auto 10. Qed.

Lemma well_formed_more_members (lead : str) (single : bool) (key g1 g2 : str)
  (v : py) (after : str) (rest : py_members) :
  well_formed_members (MoreMembers lead single key g1 g2 v after rest)
    = true ->
  blank lead = true /\ sound key = true /\ blank g1 = true /\
  blank g2 = true /\ well_formed v = true /\ blank after = true /\
  well_formed_members rest = true.
Proof. cbn [well_formed_members]. intros H. split_and H. auto 10. Qed.

Lemma write_items_head (items : py_items) (tail : str) :
  well_formed_items items = true ->
  exists (c : N) (r : str),
    skip_ws (write_items strict items tail) = c :: r /\ (c =? 93) = false.
Proof.
  intros H. destruct items as [lead v after|lead v after rest].
  - apply well_formed_one_item in H as (Hl & Hv & Ha).
    cbn [write_items]. rewrite (skip_ws_write_value _ _ _ Hl Hv).
    destruct (write_value_head v (after ++ tail) Hv)
      as (c & r & -> & _ & H93 & _). eauto.
  - apply well_formed_more_items in H as (Hl & Hv & Ha & Hr).
    cbn [write_items]. rewrite (skip_ws_write_value _ _ _ Hl Hv).
    destruct (write_value_head v
                (after ++ 44 :: write_items strict rest tail) Hv)
      as (c & r & -> & _ & H93 & _). eauto.
Qed.

Lemma write_members_head (members : py_members) (tail : str) :
  well_formed_members members = true ->
  exists r : str, skip_ws (write_members strict members tail) = 34 :: r.
Proof.
  intros H.
  destruct members as [lead q key g1 g2 v after
                      |lead q key g1 g2 v after rest].
  - apply well_formed_one_member in H as (Hl & _).
    cbn [write_members strict quote]. rewrite (skip_ws_blank _ _ Hl).
    eexists. reflexivity.
  - apply well_formed_more_members in H as (Hl & _).
    cbn [write_members strict quote]. rewrite (skip_ws_blank _ _ Hl).
    eexists. reflexivity.
Qed.

(** With fuel enough, each of the three parsers reads back what was
    written. *)
Lemma parse_written :
  (forall v : py,
     well_formed v = true ->
     forall tail, stops tail = true ->
     exists n, forall fuel, (n <= fuel)%nat ->
       parse_value fuel (write_value strict v tail) =
       Some (value_of v, tail)) /\
  (forall items : py_items,
     well_formed_items items = true ->
     forall tail acc,
     exists n, forall fuel, (n <= fuel)%nat ->
       parse_items fuel (skip_ws (write_items strict items (93 :: tail))) acc =
       Some (JArr (acc ++ values_of items), tail)) /\
  (forall members : py_members,
     well_formed_members members = true ->
     forall tail acc,
     exists n, forall fuel, (n <= fuel)%nat ->
       parse_members fuel
         (skip_ws (write_members strict members (125 :: tail))) acc =
       Some (JObj (acc ++ members_of members), tail)).
Proof.
  apply py_mutind.
  - intros capital _ tail _. exists 1%nat. intros [|fuel] Hf; [lia|].
    reflexivity.
  - intros capital b _ tail _. exists 1%nat. intros [|fuel] Hf; [lia|].
    now destruct b.
  - intros lexeme H tail Ht. exists 1%nat. intros [|fuel] Hf; [lia|].
    now apply parse_value_number.
  - intros single s H tail _. exists 1%nat. intros [|fuel] Hf; [lia|].
    now apply parse_value_sound.
  - intros inner H tail _. exists 1%nat. intros [|fuel] Hf; [lia|].
    cbn [write_value parse_value well_formed] in *.
    change (91 =? 123) with false. change (91 =? 91) with true. cbv iota.
    now rewrite (skip_ws_blank _ _ H).
  - intros items IH H tail _. cbn [well_formed] in H.
    destruct (IH H tail []) as [n Hn]. exists (S n).
    intros [|fuel] Hf; [lia|].
    cbn [write_value parse_value].
    change (91 =? 123) with false. change (91 =? 91) with true. cbv iota.
    specialize (Hn fuel ltac:(lia)).
    destruct (skip_ws (write_items strict items (93 :: tail)))
      as [|c r] eqn:E.
    + destruct fuel as [|[|fuel]]; discriminate.
    + destruct (write_items_head items (93 :: tail) H) as (c' & r' & E' & H93).
      rewrite E in E'. injection E' as <- <-. now rewrite H93.
  - intros inner H tail _. exists 1%nat. intros [|fuel] Hf; [lia|].
    cbn [write_value parse_value well_formed] in *.
    change (123 =? 123) with true. cbv iota.
    now rewrite (skip_ws_blank _ _ H).
  - intros members IH H tail _. cbn [well_formed] in H.
    destruct (IH H tail []) as [n Hn]. exists (S n).
    intros [|fuel] Hf; [lia|].
    cbn [write_value parse_value].
    change (123 =? 123) with true. cbv iota.
    specialize (Hn fuel ltac:(lia)).
    destruct (skip_ws (write_members strict members (125 :: tail)))
      as [|c r] eqn:E.
    + destruct fuel; discriminate.
    + destruct (write_members_head members (125 :: tail) H) as (r' & E').
      rewrite E in E'. injection E' as -> <-. exact Hn.
  - (* one item *)
    intros lead v IH after H tail acc.
    apply well_formed_one_item in H as (Hl & Hv & Ha).
    destruct (IH Hv (after ++ 93 :: tail)
                (stops_after after 93 tail Ha eq_refl)) as [n Hn].
    exists (S n). intros [|fuel] Hf; [lia|].
    cbn [write_items]. rewrite (skip_ws_write_value _ _ _ Hl Hv).
    cbn [parse_items]. rewrite (Hn fuel ltac:(lia)).
    rewrite (skip_ws_blank _ _ Ha). reflexivity.
  - (* more items *)
    intros lead v IHv after rest IHr H tail acc.
    apply well_formed_more_items in H as (Hl & Hv & Ha & Hr).
    destruct (IHv Hv (after ++ 44 :: write_items strict rest (93 :: tail))
                (stops_after after 44 _ Ha eq_refl)) as [n Hn].
    destruct (IHr Hr tail (acc ++ [value_of v])) as [m Hm].
    exists (S (Nat.max n m)). intros [|fuel] Hf; [lia|].
    cbn [write_items]. rewrite (skip_ws_write_value _ _ _ Hl Hv).
    cbn [parse_items]. rewrite (Hn fuel ltac:(lia)).
    rewrite (skip_ws_blank _ _ Ha).
    change (skip_ws (44 :: ?x)) with (44 :: x).
    change (44 =? 44) with true. cbv iota.
    rewrite (Hm fuel ltac:(lia)). cbn [values_of].
    now rewrite <- app_assoc.
  - (* one member *)
    intros lead q key g1 g2 v IH after H tail acc.
    apply well_formed_one_member in H as (Hl & Hk & H1 & H2 & Hv & Ha).
    destruct (IH Hv (after ++ 125 :: tail)
                (stops_after after 125 tail Ha eq_refl))
      as [n Hn].
    exists (S n). intros [|fuel] Hf; [lia|].
    cbn [write_members strict quote]. rewrite (skip_ws_blank _ _ Hl).
    change (skip_ws (34 :: ?x)) with (34 :: x).
    cbn [parse_members]. change (34 =? 34) with true. cbv iota.
    rewrite (parse_string_sound _ _ Hk).
    rewrite (skip_ws_blank _ _ H1).
    change (skip_ws (58 :: ?x)) with (58 :: x).
    change (58 =? 58) with true. cbv iota.
    rewrite (skip_ws_write_value _ _ _ H2 Hv).
    rewrite (Hn fuel ltac:(lia)).
    rewrite (skip_ws_blank _ _ Ha). reflexivity.
  - (* more members *)
    intros lead q key g1 g2 v IHv after rest IHr H tail acc.
    apply well_formed_more_members in H
      as (Hl & Hk & H1 & H2 & Hv & Ha & Hr).
    destruct (IHv Hv (after ++ 44 :: write_members strict rest (125 :: tail))
                (stops_after after 44 _ Ha eq_refl)) as [n Hn].
    destruct (IHr Hr tail (acc ++ [(text_of key, value_of v)])) as [m Hm].
    exists (S (Nat.max n m)). intros [|fuel] Hf; [lia|].
    cbn [write_members strict quote]. rewrite (skip_ws_blank _ _ Hl).
    change (skip_ws (34 :: ?x)) with (34 :: x).
    cbn [parse_members]. change (34 =? 34) with true. cbv iota.
    rewrite (parse_string_sound _ _ Hk).
    rewrite (skip_ws_blank _ _ H1).
    change (skip_ws (58 :: ?x)) with (58 :: x).
    change (58 =? 58) with true. cbv iota.
    rewrite (skip_ws_write_value _ _ _ H2 Hv).
    rewrite (Hn fuel ltac:(lia)).
    rewrite (skip_ws_blank _ _ Ha).
    change (skip_ws (44 :: ?x)) with (44 :: x).
    change (44 =? 44) with true. cbv iota.
    rewrite (Hm fuel ltac:(lia)). cbn [members_of].
    now rewrite <- app_assoc.
Qed.

(** JSON.parse reads a written literal back, whatever white space stands
    before and behind it. *)
Lemma JSON_parse_written (lead : str) (v : py) (trailing : str) :
  blank lead = true -> well_formed v = true -> blank trailing = true ->
  JSON_parse (lead ++ write_value strict v trailing) = Some (value_of v).
Proof.
  intros Hl Hv Ht. unfold JSON_parse.
  pose proof (skip_ws_length (lead ++ write_value strict v trailing)) as Hlen.
  rewrite (skip_ws_write_value _ _ _ Hl Hv) in *.
  assert (Hs : stops trailing = true).
  { destruct trailing as [|c t]; [reflexivity|]. simpl in *.
    apply andb_prop in Ht as [Hc _].
    destruct (number_unit c) eqn:E; [|reflexivity].
    apply number_unit_tests in E.
    destruct E as (_ & _ & _ & _ & _ & _ & _ & Hw & _). congruence. }
  destruct (proj1 parse_written v Hv trailing Hs) as [n Hn].
  set (fuel := S (2 * List.length (lead ++ write_value strict v trailing))).
  destruct (parse_fuel fuel (Nat.max n fuel) ltac:(lia)) as (Hf & _).
  rewrite <- Hf by (unfold fuel; lia).
  rewrite (Hn (Nat.max n fuel) ltac:(lia)).
  rewrite <- (app_nil_r trailing), (skip_ws_blank _ _ Ht). reflexivity.
Qed.

(** *** The four replaces on a written literal *)

Lemma requote_blank (gap : str) : blank gap = true -> map requote gap = gap.
Proof.
  induction gap as [|c gap IH]; intros H; [reflexivity|].
  simpl in H. apply andb_prop in H as [Hc Hg].
  simpl. rewrite (IH Hg). f_equal. unfold requote.
  destruct (c =? 39) eqn:E; [|reflexivity].
  apply N.eqb_eq in E. now subst.
Qed.

Lemma requote_number (lexeme : str) :
  forallb number_unit lexeme = true -> map requote lexeme = lexeme.
Proof.
  induction lexeme as [|c l IH]; intros H; [reflexivity|].
  simpl in H. apply andb_prop in H as [Hc Hl].
  simpl. rewrite (IH Hl). f_equal. unfold requote.
  apply number_unit_tests in Hc.
  destruct Hc as (_ & _ & _ & _ & _ & _ & -> & _). reflexivity.
Qed.

Section Requoting.

(** The first replace takes the quote of the spelling [sp] to the double
    quote and leaves its words alone. *)
Variables sp sp' : Spelling.

Hypothesis requote_quote : forall single,
  quote sp' single = requote (quote sp single).
Hypothesis requote_true : forall capital,
  map requote (word_true sp capital) = word_true sp' capital.
Hypothesis requote_false : forall capital,
  map requote (word_false sp capital) = word_false sp' capital.
Hypothesis requote_none : forall capital,
  map requote (word_none sp capital) = word_none sp' capital.

Lemma requote_written :
  (forall v : py,
     well_formed v = true ->
     forall tail,
       map requote (write_value sp v tail) =
       write_value sp' v (map requote tail)) /\
  (forall items : py_items,
     well_formed_items items = true ->
     forall tail,
       map requote (write_items sp items tail) =
       write_items sp' items (map requote tail)) /\
  (forall members : py_members,
     well_formed_members members = true ->
     forall tail,
       map requote (write_members sp members tail) =
       write_members sp' members (map requote tail)).
Proof.
  apply py_mutind.
  - intros capital _ tail. cbn [write_value].
    now rewrite map_app, requote_none.
  - intros capital b _ tail. cbn [write_value]. rewrite map_app.
    destruct b; now rewrite ?requote_true, ?requote_false.
  - intros lexeme H tail. cbn [write_value]. rewrite map_app.
    now rewrite (requote_number _ (proj1 (json_number_units _ H))).
  - intros single s H tail. cbn [write_value map].
    rewrite map_app. cbn [map].
    now rewrite (requote_sound _ H), requote_quote.
  - intros inner H tail. cbn [write_value map]. rewrite map_app.
    cbn [map]. now rewrite (requote_blank _ H).
  - intros items IH H tail. cbn [write_value map]. rewrite (IH H).
    reflexivity.
  - intros inner H tail. cbn [write_value map]. rewrite map_app.
    cbn [map]. now rewrite (requote_blank _ H).
  - intros members IH H tail. cbn [write_value map]. rewrite (IH H).
    reflexivity.
  - intros lead v IH after H tail.
    apply well_formed_one_item in H as (Hl & Hv & Ha).
    cbn [write_items]. rewrite map_app, (requote_blank _ Hl), (IH Hv).
    now rewrite map_app, (requote_blank _ Ha).
  - intros lead v IHv after rest IHr H tail.
    apply well_formed_more_items in H as (Hl & Hv & Ha & Hr).
    cbn [write_items]. rewrite map_app, (requote_blank _ Hl), (IHv Hv).
    rewrite map_app, (requote_blank _ Ha). cbn [map].
    now rewrite (IHr Hr).
  - intros lead q key g1 g2 v IH after H tail.
    apply well_formed_one_member in H as (Hl & Hk & H1 & H2 & Hv & Ha).
    cbn [write_members].
    rewrite map_app, (requote_blank _ Hl). cbn [map].
    rewrite map_app, (requote_sound _ Hk). cbn [map].
    rewrite map_app, (requote_blank _ H1). cbn [map].
    rewrite map_app, (requote_blank _ H2), (IH Hv).
    now rewrite map_app, (requote_blank _ Ha), requote_quote.
  - intros lead q key g1 g2 v IHv after rest IHr H tail.
    apply well_formed_more_members in H
      as (Hl & Hk & H1 & H2 & Hv & Ha & Hr).
    cbn [write_members].
    rewrite map_app, (requote_blank _ Hl). cbn [map].
    rewrite map_app, (requote_sound _ Hk). cbn [map].
    rewrite map_app, (requote_blank _ H1). cbn [map].
    rewrite map_app, (requote_blank _ H2), (IHv Hv).
    rewrite map_app, (requote_blank _ Ha). cbn [map].
    now rewrite (IHr Hr), requote_quote.
Qed.

End Requoting.

Section Respelling.

(** One of the three replaces of a word: [pat] begins with a capital
    letter, which no white space, no number and no punctuation of the
    syntax holds; it holds no double quote; and it takes the words of the
    spelling [sp] to those of [sp']. *)
Variables (first : N) (pat_rest rep : str) (sp sp' : Spelling).

Hypothesis first_ws : is_ws first = false.
Hypothesis first_number : number_unit first = false.
Hypothesis first_punct :
  forall q, In q [34; 44; 58; 91; 93; 123; 125] -> (first =? q) = false.
Hypothesis quote_absent : ~ In 34 (first :: pat_rest).
Hypothesis quote_sp : forall single, quote sp single = 34.
Hypothesis quote_sp' : forall single, quote sp' single = 34.
Hypothesis respell_true : forall capital tail,
  replaceAll (first :: pat_rest) rep (word_true sp capital ++ tail) =
  word_true sp' capital ++ replaceAll (first :: pat_rest) rep tail.
Hypothesis respell_false : forall capital tail,
  replaceAll (first :: pat_rest) rep (word_false sp capital ++ tail) =
  word_false sp' capital ++ replaceAll (first :: pat_rest) rep tail.
Hypothesis respell_none : forall capital tail,
  replaceAll (first :: pat_rest) rep (word_none sp capital ++ tail) =
  word_none sp' capital ++ replaceAll (first :: pat_rest) rep tail.
Hypothesis sound_absent : forall s,
  sound s = true -> occurs (first :: pat_rest) s = false.

Lemma replace_unit (c : N) (tail : str) :
  (first =? c) = false ->
  replaceAll (first :: pat_rest) rep (c :: tail) =
  c :: replaceAll (first :: pat_rest) rep tail.
Proof.
  intros H. unfold replaceAll. cbn [replace_from startsWith].
  now rewrite H.
Qed.

Lemma replace_run (ok : N -> bool) (x tail : str) :
  ok first = false -> forallb ok x = true ->
  replaceAll (first :: pat_rest) rep (x ++ tail) =
  x ++ replaceAll (first :: pat_rest) rep tail.
Proof.
  intros Hf. induction x as [|c x IH]; intros H; [reflexivity|].
  simpl in H. apply andb_prop in H as [Hc Hx].
  cbn [app]. rewrite replace_unit, (IH Hx); [reflexivity|].
  apply N.eqb_neq. intros <-. congruence.
Qed.

Lemma replace_punct (q : N) (tail : str) :
  In q [34; 44; 58; 91; 93; 123; 125] ->
  replaceAll (first :: pat_rest) rep (q :: tail) =
  q :: replaceAll (first :: pat_rest) rep tail.
Proof. intros H. apply replace_unit. now apply first_punct. Qed.

Lemma replace_string (s tail : str) :
  occurs (first :: pat_rest) s = false ->
  replaceAll (first :: pat_rest) rep (s ++ 34 :: tail) =
  s ++ 34 :: replaceAll (first :: pat_rest) rep tail.
Proof.
  induction s as [|c s IH]; intros H.
  - apply replace_punct. simpl. tauto.
  - rewrite occurs_cons in H. apply orb_false_elim in H as [Hs Ho].
    cbn [app]. unfold replaceAll in *. cbn [replace_from].
    destruct (startsWith (c :: s ++ 34 :: tail) (first :: pat_rest)) eqn:E.
    + change (c :: s ++ 34 :: tail) with ((c :: s) ++ 34 :: tail) in E.
      apply startsWith_cut in E; [congruence|exact quote_absent].
    + now rewrite (IH Ho).
Qed.

Lemma respell_written :
  (forall v : py,
     well_formed v = true ->
     forall tail,
       replaceAll (first :: pat_rest) rep (write_value sp v tail) =
       write_value sp' v (replaceAll (first :: pat_rest) rep tail)) /\
  (forall items : py_items,
     well_formed_items items = true ->
     forall tail,
       replaceAll (first :: pat_rest) rep (write_items sp items tail) =
       write_items sp' items (replaceAll (first :: pat_rest) rep tail)) /\
  (forall members : py_members,
     well_formed_members members = true ->
     forall tail,
       replaceAll (first :: pat_rest) rep (write_members sp members tail) =
       write_members sp' members (replaceAll (first :: pat_rest) rep tail)).
Proof.
  apply py_mutind.
  - intros capital _ tail. apply respell_none.
  - intros capital b _ tail. cbn [write_value].
    destruct b; [apply respell_true|apply respell_false].
  - intros lexeme H tail. cbn [write_value].
    exact (replace_run number_unit _ _ first_number
             (proj1 (json_number_units _ H))).
  - intros single s H tail. cbn [write_value].
    rewrite quote_sp, quote_sp'.
    rewrite replace_punct by (simpl; tauto).
    now rewrite (replace_string _ _ (sound_absent _ H)).
  - intros inner H tail. cbn [write_value].
    rewrite replace_punct by (simpl; tauto).
    rewrite (replace_run is_ws _ _ first_ws H).
    now rewrite replace_punct by (simpl; tauto).
  - intros items IH H tail. cbn [write_value].
    rewrite replace_punct by (simpl; tauto).
    rewrite (IH H). now rewrite replace_punct by (simpl; tauto).
  - intros inner H tail. cbn [write_value].
    rewrite replace_punct by (simpl; tauto).
    rewrite (replace_run is_ws _ _ first_ws H).
    now rewrite replace_punct by (simpl; tauto).
  - intros members IH H tail. cbn [write_value].
    rewrite replace_punct by (simpl; tauto).
    rewrite (IH H). now rewrite replace_punct by (simpl; tauto).
  - intros lead v IH after H tail.
    apply well_formed_one_item in H as (Hl & Hv & Ha).
    cbn [write_items].
    rewrite (replace_run is_ws _ _ first_ws Hl), (IH Hv).
    now rewrite (replace_run is_ws _ _ first_ws Ha).
  - intros lead v IHv after rest IHr H tail.
    apply well_formed_more_items in H as (Hl & Hv & Ha & Hr).
    cbn [write_items].
    rewrite (replace_run is_ws _ _ first_ws Hl), (IHv Hv).
    rewrite (replace_run is_ws _ _ first_ws Ha).
    rewrite replace_punct by (simpl; tauto). now rewrite (IHr Hr).
  - intros lead q key g1 g2 v IH after H tail.
    apply well_formed_one_member in H as (Hl & Hk & H1 & H2 & Hv & Ha).
    cbn [write_members]. rewrite quote_sp, quote_sp'.
    rewrite (replace_run is_ws _ _ first_ws Hl).
    rewrite replace_punct by (simpl; tauto).
    rewrite (replace_string _ _ (sound_absent _ Hk)).
    rewrite (replace_run is_ws _ _ first_ws H1).
    rewrite replace_punct by (simpl; tauto).
    rewrite (replace_run is_ws _ _ first_ws H2), (IH Hv).
    now rewrite (replace_run is_ws _ _ first_ws Ha).
  - intros lead q key g1 g2 v IHv after rest IHr H tail.
    apply well_formed_more_members in H
      as (Hl & Hk & H1 & H2 & Hv & Ha & Hr).
    cbn [write_members]. rewrite quote_sp, quote_sp'.
    rewrite (replace_run is_ws _ _ first_ws Hl).
    rewrite replace_punct by (simpl; tauto).
    rewrite (replace_string _ _ (sound_absent _ Hk)).
    rewrite (replace_run is_ws _ _ first_ws H1).
    rewrite replace_punct by (simpl; tauto).
    rewrite (replace_run is_ws _ _ first_ws H2), (IHv Hv).
    rewrite (replace_run is_ws _ _ first_ws Ha).
    rewrite replace_punct by (simpl; tauto). now rewrite (IHr Hr).
Qed.

End Respelling.

Ltac capital :=
  solve [ reflexivity
        | intros []; reflexivity
        | intros [] tail; reflexivity
        | intros q Hq; simpl in Hq; intuition (subst; reflexivity)
        | simpl; intuition discriminate
        | intros s Hs; apply sound_words in Hs; tauto ].

Lemma replace_trailing (first : N) (pat_rest rep trailing : str) :
  is_ws first = false -> blank trailing = true ->
  replaceAll (first :: pat_rest) rep trailing = trailing.
Proof.
  intros Hf Ht. rewrite <- (app_nil_r trailing) at 1.
  rewrite (replace_run first pat_rest rep is_ws _ _ Hf Ht).
  now rewrite app_nil_r.
Qed.

(** On a well-formed literal the normaliser changes the spelling and
    nothing else: whatever the spelling of each word and each string, the
    text becomes the one written in the spelling of JSON. *)
Lemma normalise_written (v : py) (trailing : str) :
  well_formed v = true -> blank trailing = true ->
  normalise (write_value as_written v trailing) =
  write_value strict v trailing.
Proof.
  intros Hv Ht. unfold normalise. rewrite replaceAll_quotes.
  rewrite (proj1 (requote_written as_written quoted ltac:(capital)
                    ltac:(capital) ltac:(capital) ltac:(capital)) v Hv),
    (requote_blank _ Ht).
  rewrite (proj1 (respell_written 84 (lit "rue") (lit "true")
                    quoted quoted_true ltac:(capital) ltac:(capital)
                    ltac:(capital) ltac:(capital) ltac:(capital)
                    ltac:(capital) ltac:(capital) ltac:(capital)
                    ltac:(capital) ltac:(capital)) v Hv).
  rewrite (proj1 (respell_written 70 (lit "alse") (lit "false")
                    quoted_true quoted_false ltac:(capital) ltac:(capital)
                    ltac:(capital) ltac:(capital) ltac:(capital)
                    ltac:(capital) ltac:(capital) ltac:(capital)
                    ltac:(capital) ltac:(capital)) v Hv).
  rewrite (proj1 (respell_written 78 (lit "one") (lit "null")
                    quoted_false strict ltac:(capital) ltac:(capital)
                    ltac:(capital) ltac:(capital) ltac:(capital)
                    ltac:(capital) ltac:(capital) ltac:(capital)
                    ltac:(capital) ltac:(capital)) v Hv).
  rewrite (replace_trailing 84 (lit "rue") (lit "true") _ eq_refl Ht).
  rewrite (replace_trailing 70 (lit "alse") (lit "false") _ eq_refl Ht).
  now rewrite (replace_trailing 78 (lit "one") (lit "null") _ eq_refl Ht).
Qed.

(** And the spelling of JSON stays. *)
Lemma normalise_strict (v : py) (trailing : str) :
  well_formed v = true -> blank trailing = true ->
  normalise (write_value strict v trailing) = write_value strict v trailing.
Proof.
  intros Hv Ht. unfold normalise. rewrite replaceAll_quotes.
  rewrite (proj1 (requote_written strict strict ltac:(capital)
                    ltac:(capital) ltac:(capital) ltac:(capital)) v Hv),
    (requote_blank _ Ht).
  rewrite (proj1 (respell_written 84 (lit "rue") (lit "true")
                    strict strict ltac:(capital) ltac:(capital)
                    ltac:(capital) ltac:(capital) ltac:(capital)
                    ltac:(capital) ltac:(capital) ltac:(capital)
                    ltac:(capital) ltac:(capital)) v Hv).
  rewrite (proj1 (respell_written 70 (lit "alse") (lit "false")
                    strict strict ltac:(capital) ltac:(capital)
                    ltac:(capital) ltac:(capital) ltac:(capital)
                    ltac:(capital) ltac:(capital) ltac:(capital)
                    ltac:(capital) ltac:(capital)) v Hv).
  rewrite (proj1 (respell_written 78 (lit "one") (lit "null")
                    strict strict ltac:(capital) ltac:(capital)
                    ltac:(capital) ltac:(capital) ltac:(capital)
                    ltac:(capital) ltac:(capital) ltac:(capital)
                    ltac:(capital) ltac:(capital)) v Hv).
  rewrite (replace_trailing 84 (lit "rue") (lit "true") _ eq_refl Ht).
  rewrite (replace_trailing 70 (lit "alse") (lit "false") _ eq_refl Ht).
  now rewrite (replace_trailing 78 (lit "one") (lit "null") _ eq_refl Ht).
Qed.

(** *** The event a literal describes *)

Lemma lookup_written (k : str) (members : py_members) :
  lookup k (members_of members) = option_map value_of (written k members).
Proof.
  induction members as [lead q key g1 g2 v after
                       |lead q key g1 g2 v after rest IH];
    cbn [members_of lookup written].
  - now destruct (str_eqb k (text_of key)).
  - rewrite IH. destruct (written k rest); [reflexivity|].
    now destruct (str_eqb k (text_of key)).
Qed.

Lemma string_field_written (k : str) (members : py_members) :
  string_field (JObj (members_of members)) k = written_text k members.
Proof.
  unfold string_field, written_text, get. rewrite lookup_written.
  destruct (written k members) as [v|]; [|reflexivity]. now destruct v.
Qed.

Lemma as_step_written (members : py_members) :
  as_step (JObj (members_of members)) = event_written members.
Proof.
  unfold as_step, event_written. now rewrite !string_field_written.
Qed.

Lemma valid_written (members : py_members) :
  isValidLogisticsStreamStep (JObj (members_of members)) =
  forallb (written_nonblank members) requiredStringFields.
Proof.
  unfold isValidLogisticsStreamStep. cbn [truthy typeof_object negb orb].
  induction requiredStringFields as [|k ks IH]; [reflexivity|].
  cbn [forallb]. rewrite IH. f_equal.
  unfold nonblank_string_field, written_nonblank, get.
  rewrite lookup_written.
  destruct (written k members) as [v|]; [|reflexivity]. now destruct v.
Qed.

Lemma literal_style_written (sp : Spelling) (members : py_members)
  (trailing : str) :
  sp = as_written \/ sp = strict ->
  first_lead members = [] ->
  literal_style (write_value sp (PyDict members) trailing) = true.
Proof.
  intros Hsp Hl.
  destruct members as [lead q key g1 g2 v after
                      |lead q key g1 g2 v after rest];
    cbn [first_lead] in Hl; subst lead;
    cbn [write_value write_members app]; destruct Hsp as [-> | ->];
    destruct q; reflexivity.
Qed.

(** A well-formed dictionary literal is processed as the object it
    denotes. *)
Lemma process_literal_written (members : py_members) (trailing : str)
  (w : World) :
  well_formed_members members = true -> blank trailing = true ->
  JSON_parse (normalise (write_value as_written (PyDict members) trailing)) =
    Some (JObj (members_of members)) /\
  process_literal w (write_value as_written (PyDict members) trailing) =
    if forallb (written_nonblank members) requiredStringFields
    then update (addEvent (event_written members)) w
    else w.
Proof.
  intros Hm Ht.
  assert (Hp : JSON_parse
                 (normalise
                    (write_value as_written (PyDict members) trailing)) =
               Some (JObj (members_of members))).
  { rewrite (normalise_written (PyDict members) trailing Hm Ht).
    exact (JSON_parse_written [] (PyDict members) trailing eq_refl Hm Ht). }
  split; [exact Hp|].
  unfold process_literal. rewrite Hp, valid_written, as_step_written.
  reflexivity.
Qed.

(** C5, as the code has it. Take a dictionary literal in the spelling of
    Python, in that of JSON, or in any mixture of the two: every string
    between single or between double quotes, every one of the three words
    with its capital (None, True, False) or without (null, true, false);
    string keys; values that are strings, one of the three words, numbers
    in the notation of JSON, lists, or dictionaries of the same kind; any
    layout, that is any JSON white space around keys, colons, values and
    commas and behind the closing brace, the first key standing right
    behind the opening brace; strings, keys included, written with plain
    code units and the escapes that Python and JSON read alike, with no
    bare quote of either kind, no control character and none of the words
    True, False, None.  Its text has the literal style, the normaliser
    turns it into JSON that parses to the object the literal denotes, and
    when the six required fields are written with strings that do not
    stand for a blank text the event made of what these strings stand for
    is accepted.  In particular the flat text of an event with clean
    fields (each field verbatim between apostrophes, a colon and a space
    behind each key, a comma and a space between members, the way Python
    prints a dictionary) is accepted as that event.  A candidate whose
    normalised text fails the strict parse leaves the store as it was,
    and so does one in which a required field is absent, not a string, or
    blank; in each case the frame ends with the loop going on, never with
    an error. *)
Theorem normaliser_accepts_and_rejects :
  (forall (members : py_members) (trailing : str) (w : World),
     well_formed_members members = true ->
     first_lead members = [] ->
     blank trailing = true ->
     literal_style (write_value as_written (PyDict members) trailing)
       = true /\
     JSON_parse
       (normalise (write_value as_written (PyDict members) trailing)) =
       Some (JObj (members_of members)) /\
     (forallb (written_nonblank members) requiredStringFields = true ->
      process_literal w (write_value as_written (PyDict members) trailing) =
        update (addEvent (event_written members)) w)) /\
  (forall (event : LogisticsStreamStep) (w : World),
     clean_fields (fields_of event) = true ->
     forallb (present_nonblank (fields_of event)) requiredStringFields
       = true ->
     process_literal w (literal_repr (fields_of event)) =
       update (addEvent event) w) /\
  (forall (w : World) (response : str),
     JSON_parse (normalise response) = None ->
     store (process_literal w response) = store w) /\
  (forall (w : World) (response : str) (eventObj : json) (field : str),
     JSON_parse (normalise response) = Some eventObj ->
     In field requiredStringFields ->
     (forall s, get eventObj field = Value (JStr s) -> trim s = []) ->
     process_literal w response = w) /\
  (forall (w : World) (jsonStr : str) (parsed : json) (response : str),
     JSON_parse jsonStr = Some parsed ->
     get parsed (lit "response") = Value (JStr response) ->
     literal_style response = true ->
     process_frame w jsonStr = Continue (process_literal w response)).
Proof.
  repeat apply conj.
  - intros members trailing w Hm Hl Ht.
    destruct (process_literal_written members trailing w Hm Ht) as [Hp Hw].
    repeat apply conj.
    + apply literal_style_written; [now left|exact Hl].
    + exact Hp.
    + intros Hv. now rewrite Hw, Hv.
  - intros event w Hc Hp.
    rewrite (process_literal_rendered _ w Hc Hp).
    now rewrite event_of_fields.
  - intros w response Hfail. unfold process_literal. now rewrite Hfail.
  - intros w response eventObj field Hparse Hin Hbad.
    unfold process_literal.
    now rewrite Hparse, (invalid_field eventObj field Hin Hbad).
  - intros w jsonStr parsed response Hparse Hget Hstyle.
    unfold process_frame.
    now rewrite Hparse, Hget, (literal_style_nonempty _ Hstyle), Hstyle.
Qed.

Lemma normaliser_accepts_and_rejects_witness :
  write_value as_written (PyDict Samples.compact_literal) [10] =
    litq "{'order_id':'1', 'sender' : 'A','receiver':`B`,'message':'hi','timestamp':'t','state':'DELIVERED','urgent':True,'eta':None,'note':'two\nlines','legs':[1, -2.5e3],'meta':{ }}"
    ++ [10] /\
  process_literal Samples.fresh_world
    (write_value as_written (PyDict Samples.compact_literal) [10]) =
  update (addEvent Samples.delivered_event) Samples.fresh_world.
Proof.
  split; [vm_compute; reflexivity|].
  apply (proj1 normaliser_accepts_and_rejects
           Samples.compact_literal [10] Samples.fresh_world).
  - vm_compute. reflexivity.
  - reflexivity.
  - reflexivity.
  - vm_compute. reflexivity.
Defined.

(** C5 fails as stated. Both candidates below have the six required fields
    present and not blank.  The first, whose message holds an apostrophe,
    is rejected: its normalised text does not parse.  The second, whose
    message holds the word None, is accepted with another message. *)
Lemma normaliser_unsound_on_apostrophe_and_None :
  (literal_style Samples.apostrophe_response = true /\
   JSON_parse (normalise Samples.apostrophe_response) = None /\
   events (store (process_literal Samples.fresh_world
                    Samples.apostrophe_response)) = []) /\
  (forallb (present_nonblank (fields_of Samples.none_event))
     requiredStringFields = true /\
   map message
     (events (store (process_literal Samples.fresh_world
                       (literal_repr (fields_of Samples.none_event))))) =
   [lit "null left"] /\
   message Samples.none_event = lit "None left").
Proof.
  repeat split; vm_compute; reflexivity.
Qed.

End Normaliser.

(** ** The agent API hook *)

Section HookFacts.

Import AgentAPI.
Local Open Scope N_scope.

(** *** Blank strings *)

Lemma trimStart_blank (s : str) :
  trimStart s = [] <-> forallb is_whitespace s = true.
Proof.
  induction s as [|c s IH]; simpl; [tauto|].
  destruct (is_whitespace c); simpl; [exact IH|].
  split; discriminate.
Qed.

Lemma trimStart_head (s : str) (c : N) (t : str) :
  trimStart s = c :: t -> is_whitespace c = false.
Proof.
  induction s as [|d s IH]; simpl; [discriminate|].
  destruct (is_whitespace d) eqn:E; [exact IH|].
  intros H. injection H as -> _. exact E.
Qed.

(** [trim] yields the empty string exactly on the strings made of white
    space only. *)
Lemma trim_blank (s : str) :
  trim s = [] <-> forallb is_whitespace s = true.
Proof.
  unfold trim, trimEnd. split.
  - intros H. apply trimStart_blank.
    destruct (trimStart s) as [|c t] eqn:E; [reflexivity|].
    apply (f_equal (@rev N)) in H. rewrite rev_involutive in H. simpl in H.
    apply trimStart_blank in H.
    rewrite forallb_forall in H.
    assert (Hc : is_whitespace c = true).
    { apply H. apply in_or_app. right. now left. }
    apply trimStart_head in E. congruence.
  - intros H. apply trimStart_blank in H. now rewrite H.
Qed.

(** A unit that [trim] strips cannot start a JSON value. *)
Lemma whitespace_starts_no_value (c : N) :
  is_whitespace c = true ->
  (c =? 123) = false /\ (c =? 91) = false /\ (c =? 34) = false /\
  (116 =? c) = false /\ (102 =? c) = false /\ (110 =? c) = false /\
  (c =? 45) = false /\ (c =? 48) = false /\ is_digit c = false.
Proof.
  unfold is_whitespace, is_digit. intros H.
  repeat rewrite ?orb_true_iff, ?andb_true_iff, ?N.eqb_eq, ?N.leb_le in H.
  repeat split; try (apply N.eqb_neq; lia).
  apply andb_false_iff. rewrite !N.leb_gt. lia.
Qed.

Lemma parse_value_whitespace (fuel : nat) (c : N) (r : str) :
  is_whitespace c = true -> Json.parse_value fuel (c :: r) = None.
Proof.
  intros H. destruct fuel as [|fuel]; [reflexivity|].
  destruct (whitespace_starts_no_value c H)
    as (H1 & H2 & H3 & H4 & H5 & H6 & H7 & H8 & H9).
  cbn [Json.parse_value]. rewrite H1, H2, H3.
  cbn [startsWith lit map list_ascii_of_string].
  change (N_of_ascii "t") with 116. change (N_of_ascii "f") with 102.
  change (N_of_ascii "n") with 110.
  rewrite H4, H5, H6. cbn [andb].
  unfold parse_number, number_sign. rewrite H7.
  unfold number_int. now rewrite H8, H9.
Qed.

Lemma skip_ws_suffix (s : str) (c : N) (r : str) :
  skip_ws s = c :: r -> In c s.
Proof.
  induction s as [|d s IH]; simpl; [discriminate|].
  destruct (is_ws d).
  - intros H. right. now apply IH.
  - intros H. injection H as -> _. now left.
Qed.

(** A line that parses is not blank. *)
Lemma parsed_line_not_blank (line : str) (data : json) :
  JSON_parse line = Some data -> trim line <> [].
Proof.
  unfold JSON_parse. intros H Hblank.
  apply trim_blank in Hblank. rewrite forallb_forall in Hblank.
  destruct (skip_ws line) as [|c r] eqn:E; [discriminate|].
  rewrite parse_value_whitespace in H; [discriminate|].
  apply Hblank. now apply skip_ws_suffix with r.
Qed.

Section Gate.

Variable getApiUrlForPattern : option str -> str.
Variable isProvisioningPattern : option str -> bool.

(** C10. For a prompt that is empty or made of white space only,
    [sendMessage] throws the error "Prompt cannot be empty" before it does
    anything else: no request is issued and the state, with its loading
    flag and its request generation, is the one it was called in. *)
Theorem sendMessage_blank_prompt :
  forall (prompt : str) (pattern : option str) (c : Client),
    forallb is_whitespace prompt = true ->
    sendMessage getApiUrlForPattern prompt pattern c =
    Threw (lit "Prompt cannot be empty") c.
Proof.
  intros prompt pattern c H. unfold sendMessage.
  apply trim_blank in H. now rewrite H.
Qed.

(** *** Generations *)





(** *** Lines *)

Lemma process_line_blank (p : Pending) (c : Client) (line : str) :
  trim line = [] -> process_line p c line = c.
Proof. unfold process_line. now intros ->. Qed.

Lemma process_line_unparsed (p : Pending) (c : Client) (line : str) :
  trim line <> [] -> JSON_parse line = None ->
  process_line p c line =
  console_error (lit "Error parsing stream line:") c.
Proof.
  unfold process_line. intros Hne ->.
  destruct (trim line); [contradiction|reflexivity].
Qed.

(** What the body does with a line that parsed to a value other than
    [null]. *)
Lemma process_line_parsed (p : Pending) (c : Client) (line : str)
  (data : json) :
  JSON_parse line = Some data ->
  get data (lit "response") <> Throws ->
  process_line p c line =
  let afterNode :=
    match get data (lit "node") with
    | Value v =>
        if truthy v && onNodeHighlight (callbacks p)
        then invoke (NodeHighlighted v) c
        else c
    | _ => c
    end in
  match get data (lit "response") with
  | Value v =>
      if truthy v
      then setMessages
             (append_token (assistantMessageId (ids p)) v)
             afterNode
      else afterNode
  | _ => afterNode
  end.
Proof.
  intros Hparse Hget. unfold process_line.
  pose proof (parsed_line_not_blank line data Hparse) as Hne.
  destruct (trim line); [contradiction|]. rewrite Hparse.
  destruct (get data (lit "response")) as [| |v]; try reflexivity.
  - contradiction.
  - destruct (truthy v) eqn:Hv; cbv zeta; now rewrite ?Hv.
Qed.

Lemma get_throws (data : json) (k : str) :
  get data k = Throws -> data = JNull.
Proof.
  destruct data; simpl; try discriminate; [reflexivity|].
  now destruct (lookup k members).
Qed.

(** C8, as the code has it. In newline-delimited framing a blank line is
    skipped; a line that is not blank and fails to parse is logged and
    discarded; a line that parses and has no response text (no [response],
    or a falsy one) leaves the message list as it is; a [node] that is
    present and truthy is handed to the node-highlight callback when the
    caller supplied one.  None of these ends the stream: every line of the
    chunk is processed in order and the loop goes on to the next read. *)
Theorem line_framing_tolerates_noise :
  forall (p : Pending) (c : Client) (line : str),
    (trim line = [] -> process_line p c line = c) /\
    (trim line <> [] -> JSON_parse line = None ->
     process_line p c line =
     console_error (lit "Error parsing stream line:") c) /\
    (forall data,
       JSON_parse line = Some data ->
       truthy_access (get data (lit "response")) = false ->
       messages (process_line p c line) = messages c) /\
    (forall data v,
       JSON_parse line = Some data ->
       get data (lit "node") = Value v ->
       truthy v = true ->
       onNodeHighlight (callbacks p) = true ->
       calls (process_line p c line) =
       calls c ++ [NodeHighlighted v]) /\
    (forall text,
       isCurrent (myRequestId p) c = true ->
       on_read p (ReadValue text) c =
       (fold_left (process_line p)
          (removelast (split_lines (buffer p ++ text))) c,
        Some (with_buffer (last (split_lines (buffer p ++ text)) []) p))).
Proof.
  intros p c line. repeat apply conj.
  - apply process_line_blank.
  - apply process_line_unparsed.
  - intros data Hparse Hfalsy.
    destruct (get data (lit "response")) as [| |v] eqn:Hget.
    + unfold process_line.
      destruct (trim line); [reflexivity|]. now rewrite Hparse, Hget.
    + rewrite (process_line_parsed p c line data Hparse) by congruence.
      rewrite Hget. cbv zeta.
      destruct (get data (lit "node")) as [| |n]; try reflexivity.
      now destruct (truthy n && onNodeHighlight (callbacks p)).
    + rewrite (process_line_parsed p c line data Hparse) by congruence.
      rewrite Hget. cbv zeta. simpl in Hfalsy. rewrite Hfalsy.
      destruct (get data (lit "node")) as [| |n]; try reflexivity.
      now destruct (truthy n && onNodeHighlight (callbacks p)).
  - intros data v Hparse Hnode Hv Hcb.
    assert (Hget : get data (lit "response") <> Throws).
    { intros Habs. apply get_throws in Habs. subst. discriminate. }
    rewrite (process_line_parsed p c line data Hparse Hget).
    rewrite Hnode, Hv, Hcb. cbv zeta. simpl andb. cbv iota.
    destruct (get data (lit "response")) as [| |r]; try reflexivity.
    now destruct (truthy r).
  - intros text Hcur. unfold on_read. now rewrite Hcur.
Qed.

End Gate.

Lemma sendMessage_blank_prompt_witness :
  sendMessage Samples.local_url (lit "  ") None Samples.idle_client =
  Threw (lit "Prompt cannot be empty") Samples.idle_client.
Proof.
  apply (sendMessage_blank_prompt Samples.local_url (lit "  ") None
           Samples.idle_client).
  vm_compute. reflexivity.
Defined.



Lemma line_framing_tolerates_noise_witness :
  process_line (snd Samples.first_call)
    (fst Samples.first_call) (lit "event: ping") =
  console_error (lit "Error parsing stream line:") (fst Samples.first_call).
Proof.
  apply (proj1 (proj2 (line_framing_tolerates_noise
                         (snd Samples.first_call) (fst Samples.first_call)
                         (lit "event: ping")))).
  - vm_compute. discriminate.
  - vm_compute. reflexivity.
Defined.

(** C8 fails as stated. A blank line fails to parse and is dropped without
    being logged; and a heartbeat whose [node] is present but falsy (the
    empty string, or a number so small that it is read as zero) does not
    reach the node-highlight callback, although the caller supplied one. *)
Lemma blank_line_and_empty_node :
  (JSON_parse (lit "  ") = None /\
   process_line (snd Samples.first_call)
     (fst Samples.first_call) (lit "  ") = fst Samples.first_call) /\
  (JSON_parse (litq "{`status`: `working`, `node`: ``}") =
   Some (JObj [(lit "status", JStr (lit "working")); (lit "node", JStr [])]) /\
   onNodeHighlight (callbacks (snd Samples.first_call)) = true /\
   process_line (snd Samples.first_call)
     (fst Samples.first_call) (litq "{`status`: `working`, `node`: ``}") =
   fst Samples.first_call) /\
  (JSON_parse (litq "{`node`: 1e-400}") =
   Some (JObj [(lit "node", JNum (lit "1e-400"))]) /\
   process_line (snd Samples.first_call)
     (fst Samples.first_call) (litq "{`node`: 1e-400}") =
   fst Samples.first_call).
Proof.
  repeat apply conj; vm_compute; reflexivity.
Qed.

End HookFacts.

(** ** The retry executor *)

Section RetryFacts.

Import Retry.

Variables E V : Type.
Variable operation : nat -> E + V.
Variable base : Z.
Hypothesis base_nonneg : (0 <= base)%Z.

(** Every delay announced from attempt [index] on is at least
    [base * 2^index], and the delays come in non-decreasing order. *)
Lemma attempt_delays (remaining : nat) : forall index : nat,
  Sorted Z.le (map delay (snd (attempt operation base remaining index))) /\
  Forall (fun d => (base * 2 ^ Z.of_nat index <= d)%Z)
    (map delay (snd (attempt operation base remaining index))).
Proof.
  induction remaining as [|remaining IH]; intros index; simpl.
  - destruct (operation index); simpl; split; constructor.
  - destruct (operation index) as [error|value]; simpl;
      [|split; constructor].
    destruct (IH (S index)) as [Hsorted Hlow].
    destruct (attempt operation base remaining (S index))
      as [result notices]. simpl in *.
    assert (Hstep : (base * 2 ^ Z.of_nat index <=
                     base * 2 ^ Z.of_nat (S index))%Z).
    { rewrite Nat2Z.inj_succ, Z.pow_succ_r by lia.
      assert (0 < 2 ^ Z.of_nat index)%Z by (apply Z.pow_pos_nonneg; lia).
      nia. }
    split.
    + constructor; [assumption|].
      destruct (map delay notices) as [|d ds]; constructor.
      inversion Hlow; subst. lia.
    + constructor; [lia|].
      eapply Forall_impl; [|exact Hlow]. simpl. intros d Hd. lia.
Qed.

(** When every attempt fails, the result is the failure of the last one,
    after one notice per earlier attempt. *)
Lemma attempt_all_fail (errors : nat -> E) (remaining : nat) :
  forall index : nat,
    (forall i, (index <= i <= index + remaining)%nat ->
               operation i = inl (errors i)) ->
    fst (attempt operation base remaining index) =
      inl (errors (index + remaining)%nat) /\
    List.length (snd (attempt operation base remaining index)) = remaining.
Proof.
  induction remaining as [|remaining IH]; intros index Hfail; simpl.
  - rewrite (Hfail index) by lia. simpl. now rewrite Nat.add_0_r.
  - rewrite (Hfail index) by lia.
    destruct (IH (S index)) as [Hres Hlen].
    { intros i Hi. apply Hfail. lia. }
    destruct (attempt operation base remaining (S index))
      as [result notices]. simpl in *.
    rewrite Hres, Hlen. split; [f_equal; f_equal; lia|reflexivity].
Qed.

(** C7. With [maxAttempts = 3] and an operation that fails on its first two
    attempts and succeeds on the third, [onRetry] is notified exactly
    twice, with the delays [base * 2^0] and [base * 2^1], and the result is
    the success value; the delays of any run are in non-decreasing order;
    and when all [maxAttempts] attempts fail, the failure of the last
    attempt is the result, unchanged. *)
Theorem withRetry_contract :
  (forall (e0 e1 : E) (v : V),
     operation 0%nat = inl e0 ->
     operation 1%nat = inl e1 ->
     operation 2%nat = inr v ->
     withRetry operation base 3 =
     (inr v,
      [{| attemptIndex := 0; failure := e0; delay := (base * 2 ^ 0)%Z |};
       {| attemptIndex := 1; failure := e1; delay := (base * 2 ^ 1)%Z |}]) /\
     List.length (snd (withRetry operation base 3)) = 2%nat) /\
  (forall maxAttempts : nat,
     Sorted Z.le (map delay (snd (withRetry operation base maxAttempts)))) /\
  (forall (maxAttempts : nat) (errors : nat -> E),
     (1 <= maxAttempts)%nat ->
     (forall i, (i < maxAttempts)%nat -> operation i = inl (errors i)) ->
     fst (withRetry operation base maxAttempts) =
       inl (errors (maxAttempts - 1)%nat) /\
     List.length (snd (withRetry operation base maxAttempts)) =
       (maxAttempts - 1)%nat).
Proof.
  repeat apply conj.
  - intros e0 e1 v H0 H1 H2.
    unfold withRetry. simpl. rewrite H0, H1, H2. simpl. now split.
  - intros maxAttempts. apply attempt_delays.
  - intros maxAttempts errors Hpos Hfail. unfold withRetry.
    destruct (attempt_all_fail errors (Nat.pred maxAttempts) 0) as [Hr Hl].
    { intros i Hi. apply Hfail. lia. }
    rewrite Hr, Hl. split; [f_equal; f_equal; lia|lia].
Qed.

End RetryFacts.

Lemma withRetry_contract_witness :
  Retry.withRetry Samples.flaky 1000 3 =
  (inr (lit "pong"),
   [{| Retry.attemptIndex := 0; Retry.failure := lit "timeout";
       Retry.delay := (1000 * 2 ^ 0)%Z |};
    {| Retry.attemptIndex := 1; Retry.failure := lit "timeout";
       Retry.delay := (1000 * 2 ^ 1)%Z |}]).
Proof.
  assert (Hbase : (0 <= 1000)%Z) by lia.
  apply (proj1 (withRetry_contract str str Samples.flaky 1000 Hbase)
           (lit "timeout") (lit "timeout") (lit "pong"));
    reflexivity.
Defined.

(* ================================================================== *)
(** * Further properties of the group streaming store *)
(* ================================================================== *)

Section ExtractorMore.

Import GroupStore.
Local Open Scope N_scope.

Lemma braces_cons (c : N) (s : str) :
  opens (c :: s) = ((if (c =? 123)%N then 1 else 0) + opens s)%nat /\
  closes (c :: s) = ((if (c =? 125)%N then 1 else 0) + closes s)%nat.
Proof.
  unfold opens, closes. cbn [count_occ].
  destruct (N.eq_dec c 123) as [E1|E1], (N.eq_dec c 125) as [E2|E2];
    try (apply N.eqb_eq in E1; rewrite E1);
    try (apply N.eqb_eq in E2; rewrite E2);
    try (apply N.eqb_neq in E1; rewrite E1);
    try (apply N.eqb_neq in E2; rewrite E2);
    auto.
Qed.

Lemma extract_conserves (s : str) :
  List.concat (fst (extract [] s)) ++ snd (extract [] s) = s.
Proof.
  induction s as [s IH] using str_length_ind.
  destruct (find_json_end s) as [jsonEnd|] eqn:Hend.
  - rewrite (extract_some _ _ Hend). simpl.
    rewrite <- app_assoc, IH.
    + apply firstn_skipn.
    + destruct s as [|c rest]; [discriminate|]. apply skipn_shorter.
  - now rewrite (extract_none _ Hend).
Qed.

(** X1. Extraction neither loses nor invents text: the emitted values, in
    order, followed by the retained buffer are the old buffer followed by
    the chunks. *)
Theorem extraction_conserves_text :
  forall (buffer : str) (chunks : list str),
    List.concat (fst (extract_chunks buffer chunks)) ++
    snd (extract_chunks buffer chunks) =
    buffer ++ List.concat chunks.
Proof.
  intros buffer chunks. revert buffer.
  induction chunks as [|chunk rest IH]; intros buffer; simpl.
  - now rewrite app_nil_r.
  - pose proof (extract_conserves (buffer ++ chunk)) as Hc.
    rewrite <- extract_eq in Hc.
    destruct (extract buffer chunk) as [emitted buffer'].
    specialize (IH buffer').
    destruct (extract_chunks buffer' rest) as [later final].
    simpl in *. rewrite concat_app, <- app_assoc, IH, app_assoc, Hc.
    now rewrite <- app_assoc.
Qed.

(** Where the scan stops, the text read so far closes with a brace and
    brings the count back to zero. *)
Lemma scan_braces_frame (s : str) : forall (i : nat) (b : Z) (e : nat),
  scan_braces s i b = Some e ->
  exists body,
    firstn (e - i + 1) s = body ++ [125] /\
    (b + Z.of_nat (opens (firstn (e - i + 1) s))
       - Z.of_nat (closes (firstn (e - i + 1) s)) = 0)%Z.
Proof.
  induction s as [|c s IH]; intros i b e H; simpl in H; [discriminate|].
  assert (Hcase : forall b',
            scan_braces s (S i) b' = Some e ->
            (b + (if (c =? 123)%N then 1 else 0)
               - (if (c =? 125)%N then 1 else 0) = b')%Z ->
            exists body,
              firstn (e - i + 1) (c :: s) = body ++ [125] /\
              (b + Z.of_nat (opens (firstn (e - i + 1) (c :: s)))
                 - Z.of_nat (closes (firstn (e - i + 1) (c :: s))) = 0)%Z).
  { intros b' H' Hb'. pose proof (scan_braces_bound _ _ _ _ H') as Hb.
    destruct (IH _ _ _ H') as (body & Hf & Hz).
    replace (e - i + 1)%nat with (S (e - S i + 1)) by lia.
    cbn [firstn]. exists (c :: body). split.
    - now rewrite Hf.
    - destruct (braces_cons c (firstn (e - S i + 1) s)) as [Ho Hc].
      rewrite Ho, Hc.
      destruct (c =? 123), (c =? 125); simpl in *; lia. }
  destruct (c =? 123) eqn:E1.
  - apply (Hcase _ H).
    destruct (c =? 125) eqn:E2; [|lia].
    apply N.eqb_eq in E1, E2. congruence.
  - destruct (c =? 125) eqn:E2.
    + destruct (b - 1 =? 0)%Z eqn:Ez.
      * injection H as <-. replace (i - i + 1)%nat with 1%nat by lia.
        apply N.eqb_eq in E2. subst c.
        exists []. split; [reflexivity|]. apply Z.eqb_eq in Ez.
        cbn. lia.
      * apply (Hcase _ H). lia.
    + apply (Hcase _ H). lia.
Qed.

Lemma extract_frames_closed (s : str) :
  Forall (fun jsonStr =>
            (exists body, jsonStr = body ++ [125]) /\
            opens jsonStr = closes jsonStr)
    (fst (extract [] s)).
Proof.
  induction s as [s IH] using str_length_ind.
  destruct (find_json_end s) as [jsonEnd|] eqn:Hend.
  - rewrite (extract_some _ _ Hend). simpl. constructor.
    + destruct (scan_braces_frame _ _ _ _ Hend) as (body & Hf & Hz).
      replace (jsonEnd - 0 + 1)%nat with (jsonEnd + 1)%nat in * by lia.
      split; [eauto|lia].
    + apply IH. destruct s as [|c rest]; [discriminate|]. apply skipn_shorter.
  - rewrite (extract_none _ Hend). constructor.
Qed.

Lemma scan_braces_unclosed (s : str) : forall (i : nat) (b : Z),
  ~ In 125 s -> scan_braces s i b = None.
Proof.
  induction s as [|c s IH]; intros i b H; [reflexivity|]. simpl.
  destruct (c =? 123); [apply IH; simpl in H; tauto|].
  destruct (c =? 125) eqn:E.
  - apply N.eqb_eq in E. subst. simpl in H. tauto.
  - apply IH. simpl in H. tauto.
Qed.

(** X2. No value is emitted before its closing brace has been read: every
    emitted value ends with a closing brace and has as many opening as
    closing braces, and a text without a closing brace emits nothing and is
    retained whole. *)
Theorem emitted_values_are_closed :
  (forall (buffer chunk : str),
     Forall (fun jsonStr =>
               (exists body, jsonStr = body ++ [125]) /\
               opens jsonStr = closes jsonStr)
       (fst (extract buffer chunk))) /\
  (forall (buffer chunk : str),
     ~ In 125 (buffer ++ chunk) ->
     extract buffer chunk = ([], buffer ++ chunk)).
Proof.
  split.
  - intros buffer chunk. rewrite extract_eq. apply extract_frames_closed.
  - intros buffer chunk H. rewrite extract_eq. apply extract_none.
    now apply scan_braces_unclosed.
Qed.

Lemma emitted_values_are_closed_witness :
  extract (litq "{`respo") (litq "nse`: `") =
  ([], litq "{`respo" ++ litq "nse`: `").
Proof.
  apply (proj2 emitted_values_are_closed (litq "{`respo") (litq "nse`: `")).
  vm_compute. intros H. repeat (destruct H as [H|H]; [discriminate|]).
  exact H.
Defined.

(** X3. The retained buffer never holds a complete value: the scan finds no
    closing position in it. *)
Theorem retained_buffer_is_incomplete :
  forall (buffer chunk : str),
    find_json_end (snd (extract buffer chunk)) = None.
Proof.
  intros buffer chunk. rewrite extract_eq.
  pose proof (extract_kept (buffer ++ chunk)) as Hk.
  destruct (find_json_end (snd (extract [] (buffer ++ chunk))))
    as [jsonEnd|] eqn:Hend; [|reflexivity].
  rewrite (extract_some _ _ Hend) in Hk. discriminate.
Qed.

End ExtractorMore.

Section StoreMore.

Import GroupStore Literal.
Local Open Scope N_scope.

(** *** The validator *)

Lemma validator_fields (data : json) :
  isValidLogisticsStreamStep data = true ->
  nonblank_step (as_step data) = true.
Proof.
  unfold isValidLogisticsStreamStep.
  destruct (negb (truthy data) || negb (typeof_object data));
    [discriminate|].
  intros H. rewrite forallb_forall in H.
  assert (Hf : forall field, In field requiredStringFields ->
            negb (str_eqb (trim (string_field data field)) []) = true).
  { intros field Hin. specialize (H field Hin).
    unfold nonblank_string_field in H. unfold string_field.
    destruct (get data field) as [| |v]; try discriminate.
    now destruct v. }
  unfold nonblank_step, as_step. cbn [forallb order_id sender receiver
    message timestamp state].
  rewrite !Hf; [reflexivity| | | | | |]; unfold requiredStringFields;
    simpl; tauto.
Qed.

(** X4. [isValidLogisticsStreamStep] accepts exactly the objects in which each
    of the six required names is bound, by its last binding, to a string
    that is not blank; [null], booleans, numbers, strings and arrays are
    rejected. *)
Theorem validator_accepts_exactly :
  forall data : json,
    isValidLogisticsStreamStep data = true <->
    exists members,
      data = JObj members /\
      Forall (fun field =>
                exists s, lookup field members = Some (JStr s) /\
                          trim s <> [])
        requiredStringFields.
Proof.
  intros data. unfold isValidLogisticsStreamStep. split.
  - intros H. destruct data as [|b|n|s|items|members];
      cbn [truthy typeof_object negb orb] in H; try discriminate.
    + destruct b; discriminate.
    + destruct (negb (denotes_zero n)); discriminate.
    + destruct s; discriminate.
    + exists members. split; [reflexivity|].
      apply Forall_forall. intros field Hin.
      rewrite forallb_forall in H. specialize (H field Hin).
      unfold nonblank_string_field, get in H.
      destruct (lookup field members) as [v|]; [|discriminate].
      destruct v; try discriminate.
      exists s. split; [reflexivity|].
      apply negb_true_iff in H. now apply str_eqb_neq.
  - intros (members & -> & H). cbn [truthy typeof_object negb orb].
    apply forallb_forall. intros field Hin.
    rewrite Forall_forall in H. destruct (H field Hin) as (s & Hl & Hs).
    unfold nonblank_string_field, get. rewrite Hl.
    apply negb_true_iff. now apply str_eqb_neq.
Qed.

(** *** What a run keeps true *)

Section RunInvariant.

(** A property of the store that the actions of a run keep. *)
Variable P : LogisticsStreamingState -> Prop.
Hypothesis P_addEvent :
  forall eventObj st,
    isValidLogisticsStreamStep eventObj = true ->
    P st -> P (addEvent (as_step eventObj) st).
Hypothesis P_setFinalResponse :
  forall response st, P st -> P (setFinalResponse response st).
Hypothesis P_setComplete : forall st, P st -> P (setComplete true st).
Hypothesis P_setError : forall message st, P st -> P (setError message st).

Lemma process_frame_keeps (w : World) (jsonStr : str) :
  P (store w) ->
  match process_frame w jsonStr with
  | Continue w' | Return w' => P (store w')
  end.
Proof.
  intros H. unfold process_frame.
  destruct (JSON_parse jsonStr) as [parsed|]; [|exact H].
  destruct (get parsed (lit "response")) as [| |v]; try exact H.
  destruct v as [|b|n|response|items|members]; try exact H.
  destruct (truthy (JStr response)); [|exact H].
  destruct (literal_style response).
  - unfold process_literal.
    destruct (JSON_parse (normalise response)) as [eventObj|]; [|exact H].
    destruct (isValidLogisticsStreamStep eventObj) eqn:Hv; [|exact H].
    now apply P_addEvent.
  - now apply P_setFinalResponse.
Qed.

Lemma handle_frames_keeps (frames : list str) : forall w : World,
  P (store w) ->
  match handle_frames process_frame frames w with
  | Continue w' | Return w' => P (store w')
  end.
Proof.
  induction frames as [|jsonStr rest IH]; intros w H; simpl; [exact H|].
  pose proof (process_frame_keeps w jsonStr H) as Hf.
  destruct (process_frame w jsonStr) as [w1|w1]; [now apply IH|exact Hf].
Qed.

Lemma on_chunk_keeps (buffer chunk : str) (w : World) :
  P (store w) ->
  match on_chunk buffer chunk w with
  | Pending w' _ | Returned w' => P (store w')
  end.
Proof.
  intros H. rewrite on_chunk_frames.
  pose proof (handle_frames_keeps (fst (extract buffer chunk)) w H) as Hf.
  now destruct (handle_frames process_frame (fst (extract buffer chunk)) w).
Qed.

Lemma read_chunks_keeps (chunks : list str) : forall (buffer : str) (w : World),
  P (store w) -> P (store (read_loop (map Chunk chunks) buffer w)).
Proof.
  induction chunks as [|chunk rest IH]; intros buffer w H; simpl.
  - now apply P_setComplete.
  - pose proof (on_chunk_keeps buffer chunk w H) as Hc.
    destruct (on_chunk buffer chunk w) as [w' buffer'|w'];
      [now apply IH|exact Hc].
Qed.

Lemma read_loop_keeps (reads : list Read) : forall (buffer : str) (w : World),
  P (store w) -> P (store (read_loop reads buffer w)).
Proof.
  induction reads as [|r rest IH]; intros buffer w H; simpl.
  - now apply P_setComplete.
  - destruct r as [text|message].
    + pose proof (on_chunk_keeps buffer text w H) as Hc.
      destruct (on_chunk buffer text w) as [w' buffer'|w'];
        [now apply IH|exact Hc].
    + now apply P_setError.
Qed.

End RunInvariant.

Lemma startStreaming_keeps (P : LogisticsStreamingState -> Prop) :
  (forall eventObj st,
     isValidLogisticsStreamStep eventObj = true ->
     P st -> P (addEvent (as_step eventObj) st)) ->
  (forall response st, P st -> P (setFinalResponse response st)) ->
  (forall st, P st -> P (setComplete true st)) ->
  (forall message st, P st -> P (setError message st)) ->
  P (setStreaming true initialState) ->
  forall prompt response w, P (store (startStreaming prompt response w)).
Proof.
  intros Ha Hf Hc He H0 prompt response w. unfold startStreaming.
  destruct response as [message|status statusText| |reads].
  - now apply He.
  - now apply He.
  - now apply He.
  - apply read_loop_keeps; assumption.
Qed.

(** X5. After any run of [startStreaming], [currentOrderId] is the order id of
    the most recent event of the log, and is unset when the log is empty. *)
Theorem currentOrderId_tracks_log :
  forall (prompt : str) (response : Response) (w : World),
    currentOrderId (store (startStreaming prompt response w)) =
    latest_order_id (events (store (startStreaming prompt response w))).
Proof.
  apply (startStreaming_keeps
           (fun st => currentOrderId st = latest_order_id (events st)));
    try (intros; assumption); try reflexivity.
  intros eventObj st _ _. unfold latest_order_id. simpl.
  now rewrite rev_app_distr.
Qed.

(** X6. Every event a run of [startStreaming] leaves in the log has its six
    fields not blank. *)
Theorem logged_events_are_nonblank :
  forall (prompt : str) (response : Response) (w : World),
    Forall (fun event => nonblank_step event = true)
      (events (store (startStreaming prompt response w))).
Proof.
  apply (startStreaming_keeps
           (fun st => Forall (fun event => nonblank_step event = true)
                        (events st)));
    try (intros; assumption); try (now constructor).
  intros eventObj st Hv H. simpl. apply Forall_app. split; [exact H|].
  constructor; [|constructor]. now apply validator_fields.
Qed.

(** *** How a run ends *)

Lemma handle_frames_return (frames : list str) : forall w w' : World,
  handle_frames process_frame frames w = Return w' ->
  isStreaming (store w') = false /\ isComplete (store w') = true /\
  exists response, finalResponse (store w') = Some response.
Proof.
  induction frames as [|jsonStr rest IH]; intros w w' H; simpl in H;
    [discriminate|].
  destruct (process_frame w jsonStr) as [w1|w1] eqn:E; [now apply IH in H|].
  injection H as <-. unfold process_frame in E.
  destruct (JSON_parse jsonStr) as [parsed|]; [|discriminate].
  destruct (get parsed (lit "response")) as [| |v]; try discriminate.
  destruct v as [|b|n|response|items|members]; try discriminate.
  destruct (truthy (JStr response)); [|discriminate].
  destruct (literal_style response); [discriminate|].
  injection E as <-. simpl. eauto.
Qed.

Lemma on_chunk_returned (buffer chunk : str) (w w' : World) :
  on_chunk buffer chunk w = Returned w' ->
  isStreaming (store w') = false /\ isComplete (store w') = true /\
  exists response, finalResponse (store w') = Some response.
Proof.
  rewrite on_chunk_frames.
  destruct (handle_frames process_frame (fst (extract buffer chunk)) w)
    as [w1|w1] eqn:E; [discriminate|].
  intros H. injection H as <-. now apply handle_frames_return in E.
Qed.

Lemma read_loop_terminal (reads : list Read) : forall (buffer : str) (w : World),
  isStreaming (store (read_loop reads buffer w)) = false /\
  isComplete (store (read_loop reads buffer w)) = true.
Proof.
  induction reads as [|r rest IH]; intros buffer w; simpl; [now split|].
  destruct r as [text|message]; [|now split].
  destruct (on_chunk buffer text w) as [w' buffer'|w'] eqn:E; [apply IH|].
  apply on_chunk_returned in E. tauto.
Qed.

(** X7. Whatever the transport delivers, a run of [startStreaming] that has
    ended leaves the session terminal: [isStreaming = false] and
    [isComplete = true], that is Complete or Error. *)
Theorem startStreaming_ends_terminal :
  forall (prompt : str) (response : Response) (w : World),
    let st := store (startStreaming prompt response w) in
    isStreaming st = false /\ isComplete st = true /\
    (status st = Complete \/ status st = Error).
Proof.
  intros prompt response w st.
  assert (H : isStreaming st = false /\ isComplete st = true).
  { subst st. unfold startStreaming.
    destruct response as [message|status statusText| |reads];
      try (now split). apply read_loop_terminal. }
  destruct H as [Hs Hc]. repeat split; try assumption.
  unfold status. rewrite Hs, Hc. destruct (error st); auto.
Qed.

(** X8. When the transport does not fail, no content of the body can put the
    session in Error: malformed frames and rejected candidates are only
    logged or skipped, [error] stays unset and the run ends Complete. *)
Theorem clean_transport_ends_complete :
  forall (prompt : str) (chunks : list str) (w : World),
    let st := store (startStreaming prompt (Body (map Chunk chunks)) w) in
    error st = None /\ status st = Complete.
Proof.
  intros prompt chunks w st.
  assert (He : error st = None).
  { subst st. unfold startStreaming.
    apply (read_chunks_keeps (fun st => error st = None));
      try (intros; assumption). reflexivity. }
  split; [exact He|].
  destruct (read_loop_terminal (map Chunk chunks) []
              (begin_streaming w)) as [Hs Hc].
  unfold status. rewrite He. subst st. unfold startStreaming.
  now rewrite Hs, Hc.
Qed.

(** X9. A failure of the transport ends the run in Error with the message of
    the failure and keeps the events logged before it: before the body
    there are none; inside the body the chunks read before the failure
    count as if they had come in one piece, and a failure that follows a
    final response is never seen. *)
Theorem transport_failure_sets_error :
  (forall (message : option str) (w : World),
     let w' := on_failure message w in
     error (store w') =
       Some (match message with
             | Some m => m
             | None => lit "Streaming failed"
             end) /\
     status (store w') = Error /\
     events (store w') = events (store w) /\
     finalResponse (store w') = finalResponse (store w)) /\
  (forall (prompt : str) (w : World),
     (forall message,
        startStreaming prompt (FetchFails message) w =
        on_failure message (begin_streaming w)) /\
     (forall status statusText,
        startStreaming prompt (NotOk status statusText) w =
        on_failure (Some (lit "HTTP " ++ status ++ lit ": " ++ statusText))
          (begin_streaming w)) /\
     startStreaming prompt NoReader w =
       on_failure (Some (lit "No response body reader available"))
         (begin_streaming w) /\
     events (store (begin_streaming w)) = []) /\
  (forall (chunks : list str) (message : option str) (rest : list Read)
          (w : World),
     read_loop (map Chunk chunks ++ ReadFails message :: rest) [] w =
     match on_chunk [] (List.concat chunks) w with
     | Pending w' _ => on_failure message w'
     | Returned w' => w'
     end).
Proof.
  repeat apply conj; try reflexivity.
  - intros message w. repeat split.
  - intros prompt w. repeat split.
  - intros chunks message rest w.
    assert (H : forall buffer w,
              extract [] buffer = ([], buffer) ->
              read_loop (map Chunk chunks ++ ReadFails message :: rest)
                buffer w =
              match drain process_frame (buffer ++ List.concat chunks) w with
              | Pending w' _ => on_failure message w'
              | Returned w' => w'
              end).
    { clear w. induction chunks as [|chunk more IH]; intros buffer w Hres;
        simpl.
      - now rewrite app_nil_r, (drain_residual _ _ _ Hres).
      - unfold on_chunk.
        rewrite app_assoc,
          (drain_app process_frame (List.concat more) (buffer ++ chunk) w).
        destruct (drain process_frame (buffer ++ chunk) w)
          as [w' buffer'|w'] eqn:E; [|reflexivity].
        apply IH. now apply drain_pending_residual in E. }
    unfold on_chunk. now apply H.
Qed.

End StoreMore.

Section NormaliserMore.

Import GroupStore Literal.
Local Open Scope N_scope.

Lemma replace_from_units (pat rep : str) (c : N) :
  forall (s : str) (skip : nat),
    In c (replace_from pat rep skip s) -> In c rep \/ In c s.
Proof.
  induction s as [|d s IH]; intros skip H; simpl in H; [tauto|].
  destruct skip as [|k].
  - destruct (startsWith (d :: s) pat).
    + apply in_app_or in H as [H|H]; [now left|].
      apply IH in H. simpl. tauto.
    + destruct H as [H|H]; [subst; simpl; tauto|].
      apply IH in H. simpl. tauto.
  - apply IH in H. simpl. tauto.
Qed.

Lemma requote_no_apostrophe (s : str) : ~ In 39 (map requote s).
Proof.
  intros H. apply in_map_iff in H as (c & Hc & _).
  unfold requote in Hc. destruct (c =? 39) eqn:E; [discriminate|].
  apply N.eqb_neq in E. congruence.
Qed.

Lemma requote_absent (s : str) : ~ In 39 s -> map requote s = s.
Proof.
  induction s as [|c s IH]; intros H; [reflexivity|].
  simpl. rewrite IH by (simpl in H; tauto). f_equal.
  unfold requote. destruct (c =? 39) eqn:E; [|reflexivity].
  apply N.eqb_eq in E. subst. simpl in H. tauto.
Qed.

(** X10. The normalised text never holds an apostrophe, wherever the
    apostrophes of the response stood; and a response with no apostrophe
    and none of the words True, False, None is left as it is. *)
Theorem normalise_apostrophes :
  (forall response : str, ~ In 39 (normalise response)) /\
  (forall response : str,
     ~ In 39 response ->
     occurs (lit "True") response = false ->
     occurs (lit "False") response = false ->
     occurs (lit "None") response = false ->
     normalise response = response).
Proof.
  split.
  - intros response H. unfold normalise, replaceAll in H.
    apply replace_from_units in H as [H|H];
      [vm_compute in H; repeat (destruct H as [H|H]; [discriminate|]);
       exact H|].
    apply replace_from_units in H as [H|H];
      [vm_compute in H; repeat (destruct H as [H|H]; [discriminate|]);
       exact H|].
    apply replace_from_units in H as [H|H];
      [vm_compute in H; repeat (destruct H as [H|H]; [discriminate|]);
       exact H|].
    fold (replaceAll (lit "'") (litq "`") response) in H.
    rewrite replaceAll_quotes in H. now apply requote_no_apostrophe in H.
  - intros response Hq Ht Hf Hn. unfold normalise.
    rewrite replaceAll_quotes, (requote_absent _ Hq).
    rewrite (replaceAll_absent (lit "True") _ _ Ht).
    rewrite (replaceAll_absent (lit "False") _ _ Hf).
    now rewrite (replaceAll_absent (lit "None") _ _ Hn).
Qed.

Lemma normalise_apostrophes_witness :
  normalise (litq "{`state`: `DELIVERED`}") = litq "{`state`: `DELIVERED`}".
Proof.
  apply (proj2 normalise_apostrophes (litq "{`state`: `DELIVERED`}")).
  - vm_compute. intros H. repeat (destruct H as [H|H]; [discriminate|]).
    exact H.
  - vm_compute. reflexivity.
  - vm_compute. reflexivity.
  - vm_compute. reflexivity.
Defined.

(** X11. Strict JSON goes through the literal branch unharmed.  A response
    that opens with a brace and a double quote, holds no apostrophe and
    none of the words True, False, None, and that JSON.parse accepts as it
    stands, is processed as the value it parses to: accepted as the event
    of its fields when the validator passes it, dropped otherwise.  Such
    are the dictionaries written in the spelling of JSON, compact or
    spaced, nested or flat, whenever their strings are clean. *)
Theorem strict_json_event_accepted :
  (forall (response : str) (data : json) (w : World),
     startsWith response (litq "{`") = true ->
     ~ In 39 response ->
     occurs (lit "True") response = false ->
     occurs (lit "False") response = false ->
     occurs (lit "None") response = false ->
     JSON_parse response = Some data ->
     literal_style response = true /\
     process_literal w response =
       if isValidLogisticsStreamStep data
       then update (addEvent (as_step data)) w
       else w) /\
  (forall (members : py_members) (trailing : str) (w : World),
     well_formed_members members = true ->
     first_lead members = [] ->
     blank trailing = true ->
     literal_style (write_value strict (PyDict members) trailing) = true /\
     JSON_parse (write_value strict (PyDict members) trailing) =
       Some (JObj (members_of members)) /\
     process_literal w (write_value strict (PyDict members) trailing) =
       if forallb (written_nonblank members) requiredStringFields
       then update (addEvent (event_written members)) w
       else w).
Proof.
  split.
  - intros response data w Hs Hq Ht Hf Hn Hp. split.
    + unfold literal_style. rewrite Hs. apply orb_true_r.
    + unfold process_literal, normalise.
      rewrite replaceAll_quotes, (requote_absent _ Hq).
      rewrite (replaceAll_absent (lit "True") _ _ Ht).
      rewrite (replaceAll_absent (lit "False") _ _ Hf).
      rewrite (replaceAll_absent (lit "None") _ _ Hn).
      now rewrite Hp.
  - intros members trailing w Hm Hl Ht.
    pose proof (JSON_parse_written [] (PyDict members) trailing
                  eq_refl Hm Ht) as Hp.
    cbn [app value_of] in Hp. repeat apply conj.
    + apply literal_style_written; [now right|exact Hl].
    + exact Hp.
    + unfold process_literal.
      rewrite (normalise_strict (PyDict members) trailing Hm Ht), Hp.
      now rewrite valid_written, as_step_written.
Qed.

Lemma strict_json_event_accepted_witness :
  process_literal Samples.fresh_world
    (litq "{`order_id`:`1`,`sender`:`A`,`receiver`:`B`,`message`:`two\nlines`,`timestamp`:`t`,`state`:`DELIVERED`}") =
  update
    (addEvent
       {| order_id := lit "1"; sender := lit "A"; receiver := lit "B";
          message := lit "two" ++ [10] ++ lit "lines"; timestamp := lit "t";
          state := lit "DELIVERED" |})
    Samples.fresh_world.
Proof.
  refine (proj2 (proj1 strict_json_event_accepted
                   (litq "{`order_id`:`1`,`sender`:`A`,`receiver`:`B`,`message`:`two\nlines`,`timestamp`:`t`,`state`:`DELIVERED`}")
                   (JObj [(lit "order_id", JStr (lit "1"));
                          (lit "sender", JStr (lit "A"));
                          (lit "receiver", JStr (lit "B"));
                          (lit "message",
                           JStr (lit "two" ++ [10] ++ lit "lines"));
                          (lit "timestamp", JStr (lit "t"));
                          (lit "state", JStr (lit "DELIVERED"))])
                   Samples.fresh_world _ _ _ _ _ _)).
  - reflexivity.
  - vm_compute. intros H. repeat (destruct H as [H|H]; [discriminate|]).
    exact H.
  - vm_compute. reflexivity.
  - vm_compute. reflexivity.
  - vm_compute. reflexivity.
  - vm_compute. reflexivity.
Defined.

End NormaliserMore.

(* ================================================================== *)
(** * Further properties of the agent API hook *)
(* ================================================================== *)

Section LinesMore.

Local Open Scope N_scope.

Lemma split_lines_nonempty (s : str) : split_lines s <> [].
Proof.
  destruct s as [|c s]; [discriminate|]. simpl.
  destruct (split_lines s); [discriminate|].
  destruct (c =? 10); discriminate.
Qed.

Lemma split_lines_cons (c : N) (s : str) :
  exists cur rest,
    split_lines s = cur :: rest /\
    split_lines (c :: s) =
    if c =? 10 then [] :: cur :: rest else (c :: cur) :: rest.
Proof.
  pose proof (split_lines_nonempty s) as H. simpl.
  destruct (split_lines s) as [|cur rest]; [contradiction|]. eauto.
Qed.

Lemma split_lines_join (s : str) : join [10] (split_lines s) = s.
Proof.
  induction s as [|c s IH]; [reflexivity|].
  destruct (split_lines_cons c s) as (cur & rest & Hs & Hc).
  rewrite Hc. rewrite Hs in IH.
  destruct (c =? 10) eqn:E.
  - apply N.eqb_eq in E. subst c.
    change (join [10] ([] :: cur :: rest)) with
      ([] ++ [10] ++ join [10] (cur :: rest)).
    now rewrite IH.
  - destruct rest as [|r rest']; simpl in *; now rewrite IH.
Qed.

Lemma split_lines_pieces (s : str) :
  Forall (fun piece => ~ In 10 piece) (split_lines s).
Proof.
  induction s as [|c s IH]; [repeat constructor; tauto|].
  destruct (split_lines_cons c s) as (cur & rest & Hs & Hc).
  rewrite Hc. rewrite Hs in IH. inversion IH; subst.
  destruct (c =? 10) eqn:E.
  - constructor; [tauto|assumption].
  - constructor; [|assumption].
    apply N.eqb_neq in E. simpl. intros [H|H]; [congruence|tauto].
Qed.

Lemma split_lines_single (s : str) : ~ In 10 s -> split_lines s = [s].
Proof.
  induction s as [|c s IH]; intros H; [reflexivity|].
  simpl. rewrite IH by (simpl in H; tauto).
  destruct (c =? 10) eqn:E; [|reflexivity].
  apply N.eqb_eq in E. subst. simpl in H. tauto.
Qed.

Lemma join_split_lines (pieces : list str) :
  pieces <> [] ->
  Forall (fun piece => ~ In 10 piece) pieces ->
  split_lines (join [10] pieces) = pieces.
Proof.
  induction pieces as [|piece rest IH]; intros Hne H; [contradiction|].
  inversion H as [|? ? Hp Hrest]; subst.
  destruct rest as [|r rest'].
  - simpl. now apply split_lines_single.
  - change (join [10] (piece :: r :: rest')) with
      (piece ++ 10 :: join [10] (r :: rest')).
    specialize (IH ltac:(discriminate) Hrest).
    clear H Hne. induction piece as [|c piece IHp].
    + cbn [app split_lines]. now rewrite IH.
    + cbn [app split_lines]. rewrite IHp by (simpl in Hp; tauto).
      destruct (c =? 10) eqn:E; [|reflexivity].
      apply N.eqb_eq in E. subst. simpl in Hp. tauto.
Qed.

(** X12. Splitting on line feeds loses nothing: the pieces, none of which holds
    a line feed, joined by line feeds are the text again, and splitting
    what such pieces join to gives the pieces back. *)
Theorem split_lines_round_trip :
  (forall s : str,
     split_lines s <> [] /\
     Forall (fun piece => ~ In 10 piece) (split_lines s) /\
     join [10] (split_lines s) = s) /\
  (forall pieces : list str,
     pieces <> [] ->
     Forall (fun piece => ~ In 10 piece) pieces ->
     split_lines (join [10] pieces) = pieces).
Proof.
  split.
  - intros s. split; [apply split_lines_nonempty|].
    split; [apply split_lines_pieces|apply split_lines_join].
  - apply join_split_lines.
Qed.

Lemma split_lines_round_trip_witness :
  split_lines (join [10] [lit "{}"; lit "noise"; []]) =
  [lit "{}"; lit "noise"; []].
Proof.
  apply (proj2 split_lines_round_trip [lit "{}"; lit "noise"; []]).
  - discriminate.
  - repeat constructor; vm_compute; intros H;
      repeat (destruct H as [H|H]; [discriminate|]); exact H.
Defined.

(** The lines of a text that continues: the complete lines seen so far,
    then the lines of the unfinished piece followed by the new text. *)
Lemma split_lines_app (t : str) : forall s : str,
  split_lines (s ++ t) =
  removelast (split_lines s) ++ split_lines (last (split_lines s) [] ++ t).
Proof.
  induction s as [|c s IH]; [reflexivity|].
  destruct (split_lines_cons c s) as (cur & rest & Hs & Hc).
  destruct (split_lines_cons c (s ++ t)) as (cur' & rest' & Hs' & Hc').
  rewrite <- app_comm_cons, Hc', Hc.
  rewrite Hs in IH. rewrite IH in Hs'.
  destruct rest as [|r rest0].
  - simpl in Hs'.
    destruct (c =? 10) eqn:E.
    + simpl. now rewrite Hs'.
    + simpl. destruct (split_lines (cur ++ t)) as [|x xs] eqn:Ex;
        [discriminate|].
      injection Hs' as <- <-. now rewrite E.
  - change (removelast (cur :: r :: rest0)) with
      (cur :: removelast (r :: rest0)) in Hs'.
    change (last (cur :: r :: rest0) []) with (last (r :: rest0) []) in Hs'.
    simpl in Hs'. injection Hs' as <- <-.
    destruct (c =? 10); reflexivity.
Qed.

End LinesMore.

Section HookMore.

Import AgentAPI.
Local Open Scope N_scope.

Variable getApiUrlForPattern : option str -> str.
Variable shouldEnableRetries : option str -> bool.
Variable isProvisioningPattern : option str -> bool.
Variable maxRetries : str.

(** *** What a line touches *)

Lemma process_line_buffer (p : Pending) (b : str) (c : Client) (line : str) :
  process_line (with_buffer b p) c line = process_line p c line.
Proof. reflexivity. Qed.

Lemma process_line_requestId (p : Pending) (c : Client) (line : str) :
  requestIdRef (process_line p c line) = requestIdRef c.
Proof.
  unfold process_line.
  repeat match goal with
         | |- context [match ?x with _ => _ end] => destruct x
         end; reflexivity.
Qed.

Lemma process_lines_requestId (p : Pending) (lines : list str) :
  forall c, requestIdRef (fold_left (process_line p) lines c)
            = requestIdRef c.
Proof.
  induction lines as [|line rest IH]; intros c; simpl; [reflexivity|].
  now rewrite IH, process_line_requestId.
Qed.

Lemma last_append (a b : list str) :
  b <> [] -> last (a ++ b) [] = last b [].
Proof.
  intros Hb. induction a as [|x a IH]; [reflexivity|].
  simpl. rewrite IH. destruct (a ++ b) eqn:E; [|reflexivity].
  apply app_eq_nil in E. tauto.
Qed.

Lemma with_buffer_buffer (p : Pending) : with_buffer (buffer p) p = p.
Proof. now destruct p. Qed.

Lemma read_values_lines (texts : list str) : forall (p : Pending) (c : Client),
  isCurrent (myRequestId p) c = true ->
  ~ In 10 (buffer p) ->
  read_values p texts c =
  (fold_left (process_line p)
     (removelast (split_lines (buffer p ++ List.concat texts))) c,
   Some (with_buffer
           (last (split_lines (buffer p ++ List.concat texts)) []) p)).
Proof.
  induction texts as [|text rest IH]; intros p c Hcur Hbuf.
  - simpl. rewrite app_nil_r, (split_lines_single _ Hbuf). simpl.
    now rewrite with_buffer_buffer.
  - cbn [read_values on_read]. rewrite Hcur. cbn [negb].
    pose proof (split_lines_nonempty (buffer p ++ text)) as Hne.
    pose proof (split_lines_pieces (buffer p ++ text)) as Hpieces.
    rewrite IH.
    + cbn [List.concat buffer with_buffer myRequestId callbacks ids].
      rewrite (app_assoc (buffer p) text),
        (split_lines_app (List.concat rest) (buffer p ++ text)).
      pose proof (split_lines_nonempty
                    (last (split_lines (buffer p ++ text)) [] ++
                     List.concat rest)) as Hne2.
      rewrite removelast_app, last_append by assumption.
      rewrite fold_left_app. reflexivity.
    + unfold isCurrent in *. simpl.
      now rewrite process_lines_requestId.
    + simpl. rewrite Forall_forall in Hpieces. apply Hpieces.
      destruct (split_lines (buffer p ++ text)) as [|x xs];
        [contradiction|].
      destruct (exists_last (l := x :: xs) ltac:(discriminate))
        as (front & final & E).
      rewrite E, last_last. apply in_or_app. right. now left.
Qed.

(** X13. Chunk-boundary invariance of the line framing: for a request that is
    current and whose buffer holds no line feed, reading the chunks one at
    a time leaves the same client state and the same buffer as reading
    their concatenation in one piece. *)
Theorem line_chunk_invariance :
  forall (p : Pending) (c : Client) (texts : list str),
    isCurrent (myRequestId p) c = true ->
    ~ In 10 (buffer p) ->
    read_values p texts c =
    read_values p [List.concat texts] c.
Proof.
  intros p c texts Hcur Hbuf.
  rewrite (read_values_lines texts p c Hcur Hbuf).
  rewrite (read_values_lines [List.concat texts] p c Hcur Hbuf).
  simpl. now rewrite app_nil_r.
Qed.

(** *** Tokens *)

Lemma without_placeholder_idem (l : list Message) :
  without_placeholder (without_placeholder l) = without_placeholder l.
Proof.
  unfold without_placeholder. induction l as [|m l IH]; [reflexivity|].
  simpl. destruct (negb (str_eqb (id m) placeholder_id)) eqn:E;
    [|exact IH].
  simpl. now rewrite E, IH.
Qed.

Lemma without_placeholder_app (a b : list Message) :
  without_placeholder (a ++ b) = without_placeholder a ++ without_placeholder b.
Proof. apply filter_app. Qed.

Lemma findIndex_none (q : Message -> bool) (l : list Message) :
  (forall m, In m l -> q m = false) -> findIndex q l = None.
Proof.
  induction l as [|m l IH]; intros H; [reflexivity|].
  simpl. rewrite (H m (or_introl eq_refl)), IH; [reflexivity|].
  intros x Hx. apply H. now right.
Qed.

Lemma findIndex_last (q : Message -> bool) (l : list Message) (m : Message) :
  (forall x, In x l -> q x = false) -> q m = true ->
  findIndex q (l ++ [m]) = Some (List.length l).
Proof.
  induction l as [|x l IH]; intros H Hm; simpl.
  - now rewrite Hm.
  - rewrite (H x (or_introl eq_refl)), IH; [reflexivity| |assumption].
    intros y Hy. apply H. now right.
Qed.

Lemma update_at_last (f : Message -> Message) (l : list Message)
  (m : Message) :
  update_at (List.length l) f (l ++ [m]) = l ++ [f m].
Proof. induction l as [|x l IH]; simpl; [reflexivity|now rewrite IH]. Qed.

(** The message that holds the tokens streamed so far. *)
Lemma append_token_first (aid : str) (token : json) (prev : list Message) :
  (forall m, In m prev -> id m <> aid) ->
  append_token aid token prev =
  without_placeholder prev ++
  [{| role := ASSISTANT; content := as_content token; id := aid;
      animate := true |}].
Proof.
  intros Hfresh. unfold append_token.
  rewrite findIndex_none; [reflexivity|].
  intros m Hm. apply str_eqb_neq. apply Hfresh.
  unfold without_placeholder in Hm. now apply filter_In in Hm.
Qed.

Lemma append_token_next (aid : str) (token : json) (text : Content)
  (others : list Message) (anim : bool) :
  aid <> placeholder_id ->
  (forall m, In m others -> id m <> aid) ->
  append_token aid token
    (without_placeholder others ++
     [{| role := ASSISTANT; content := text; id := aid; animate := anim |}]) =
  without_placeholder others ++
  [{| role := ASSISTANT; content := plus text token; id := aid;
      animate := false |}].
Proof.
  intros Hid Hfresh. unfold append_token.
  rewrite without_placeholder_app, without_placeholder_idem.
  assert (Hkeep : without_placeholder
                    [{| role := ASSISTANT; content := text; id := aid;
                        animate := anim |}] =
                  [{| role := ASSISTANT; content := text; id := aid;
                      animate := anim |}]).
  { unfold without_placeholder. simpl.
    now rewrite (proj2 (str_eqb_neq aid placeholder_id) Hid). }
  rewrite Hkeep, findIndex_last.
  - apply update_at_last.
  - intros m Hm. apply str_eqb_neq. apply Hfresh.
    unfold without_placeholder in Hm. now apply filter_In in Hm.
  - apply str_eqb_refl.
Qed.

(** Tokens that are strings are concatenated. *)
Lemma plus_strings (texts : list str) : forall text : str,
  fold_left plus (map JStr texts) (Text text) =
  Text (text ++ List.concat texts).
Proof.
  induction texts as [|t rest IH]; intros text; simpl.
  - now rewrite app_nil_r.
  - now rewrite IH, <- app_assoc.
Qed.

(** X14. Streamed tokens accumulate in one message: if the id of the active
    assistant message is not the placeholder's and no message has it yet,
    then applying the tokens one after the other removes the placeholder,
    keeps every other message in place, and leaves after them a single
    assistant message whose content is the first token with the later ones
    added to it in order, which for tokens that are strings is their
    concatenation; it is animated only while it holds one token. *)
Theorem tokens_accumulate :
  forall (aid : str) (token : json) (tokens : list json)
         (prev : list Message),
    aid <> placeholder_id ->
    (forall m, In m prev -> id m <> aid) ->
    fold_left (fun msgs t => append_token aid t msgs) (token :: tokens) prev =
    without_placeholder prev ++
    [{| role := ASSISTANT;
        content := fold_left plus tokens (as_content token);
        id := aid;
        animate := match tokens with [] => true | _ :: _ => false end |}] /\
    (forall (text : str) (texts : list str),
       token = JStr text -> tokens = map JStr texts ->
       fold_left plus tokens (as_content token) =
       Text (text ++ List.concat texts)).
Proof.
  intros aid token tokens prev Hid Hfresh. split.
  - cbn [fold_left].
    rewrite (append_token_first aid token prev Hfresh).
    assert (H : forall text anim,
              fold_left (fun msgs t => append_token aid t msgs) tokens
                (without_placeholder prev ++
                 [{| role := ASSISTANT; content := text; id := aid;
                     animate := anim |}]) =
              without_placeholder prev ++
              [{| role := ASSISTANT; content := fold_left plus tokens text;
                  id := aid;
                  animate := match tokens with
                             | [] => anim
                             | _ :: _ => false
                             end |}]).
    { induction tokens as [|t rest IH]; intros text anim; simpl.
      - reflexivity.
      - rewrite (append_token_next aid t text prev anim Hid Hfresh), IH.
        now destruct rest. }
    apply H.
  - intros text texts -> ->. apply plus_strings.
Qed.

(** *** Streams that say nothing *)

Lemma silent_line_messages (p : Pending) (c : Client) (line : str) :
  silent_line line = true ->
  messages (process_line p c line) = messages c /\
  loading (process_line p c line) = loading c.
Proof.
  unfold silent_line. intros H.
  destruct (JSON_parse line) as [data|] eqn:Hparse.
  - apply negb_true_iff in H.
    destruct (get data (lit "response")) as [| |v] eqn:Hget.
    + unfold process_line.
      destruct (trim line); [now split|]. now rewrite Hparse, Hget.
    + rewrite (process_line_parsed p c line data Hparse)
        by congruence.
      rewrite Hget. cbv zeta.
      destruct (get data (lit "node")) as [| |n]; try now split.
      now destruct (truthy n && onNodeHighlight (callbacks p)).
    + rewrite (process_line_parsed p c line data Hparse)
        by congruence.
      rewrite Hget. cbv zeta. simpl in H. rewrite H.
      destruct (get data (lit "node")) as [| |n]; try now split.
      now destruct (truthy n && onNodeHighlight (callbacks p)).
  - unfold process_line. destruct (trim line); [now split|].
    now rewrite Hparse.
Qed.

Lemma silent_lines_messages (p : Pending) (lines : list str) :
  forall c,
    (forall line, In line lines -> silent_line line = true) ->
    messages (fold_left (process_line p) lines c) = messages c /\
    loading (fold_left (process_line p) lines c) = loading c.
Proof.
  induction lines as [|line rest IH]; intros c H; simpl; [now split|].
  destruct (IH (process_line p c line)) as [Hm Hl].
  { intros l Hl. apply H. now right. }
  destruct (silent_line_messages p c line (H line (or_introl eq_refl)))
    as [Hm' Hl'].
  split; congruence.
Qed.

(** X15. A stream none of whose lines brings response text ends like a success
    ([loading] is cleared and [onSuccess], when supplied, is told "Workflow
    completed") and yet leaves the message list exactly as the call set it
    up: whatever it held, the "Thinking" placeholder included, is still
    there. *)
Theorem silent_stream_keeps_messages :
  forall (p : Pending) (c : Client) (texts : list str),
    isCurrent (myRequestId p) c = true ->
    ~ In 10 (buffer p) ->
    (forall line,
       In line (removelast (split_lines (buffer p ++ List.concat texts))) ->
       silent_line line = true) ->
    let c' := fst (read_values p texts c) in
    let ended := stream_end p c' in
    messages c' = messages c /\
    messages ended = messages c /\
    loading ended = false /\
    (onSuccess (callbacks p) = true ->
     calls ended = calls c' ++ [Succeeded (lit "Workflow completed")]).
Proof.
  intros p c texts Hcur Hbuf Hsilent c' ended.
  subst ended c'. rewrite (read_values_lines texts p c Hcur Hbuf).
  cbn [fst].
  destruct (silent_lines_messages p _ c Hsilent) as [Hm Hl].
  set (c' := fold_left (process_line p) _ c) in *.
  assert (Hcur' : isCurrent (myRequestId p) c' = true).
  { unfold isCurrent in *. subst c'. now rewrite process_lines_requestId. }
  unfold stream_end. rewrite Hcur'.
  destruct (onSuccess (callbacks p)); repeat split; auto; discriminate.
Qed.

(** *** Generations, thread ids, controllers *)

Lemma step_requestId (c : Client) (e : Event) :
  (requestIdRef c <=
   requestIdRef
     (step getApiUrlForPattern shouldEnableRetries isProvisioningPattern
        maxRetries c e))
  %nat.
Proof.
  destruct e as [| |prompt pattern|my|prompt cb pattern uuids
                 |p r|p r|p responseText assistantId|p error
                 |pattern attempt|pattern request|];
    simpl; try lia.
  - unfold sendMessage. destruct (trim prompt); simpl; lia.
  - unfold sendMessage_finally.
    destruct (isCurrent my c); simpl; lia.
  - unfold sendMessageWithCallback.
    destruct (isProvisioningPattern pattern), (onStart cb); simpl; lia.
  - destruct r; simpl; unfold stream_failure;
      destruct (isCurrent (myRequestId p) c),
        (onError (callbacks p)); simpl; lia.
  - destruct r; simpl.
    + unfold stream_failure.
      destruct (isCurrent (myRequestId p) c),
        (onError (callbacks p)); simpl; lia.
    + unfold stream_end.
      destruct (isCurrent (myRequestId p) c),
        (onSuccess (callbacks p)); simpl; lia.
    + destruct (isCurrent (myRequestId p) c) eqn:E; simpl.
      * rewrite process_lines_requestId. lia.
      * unfold stream_end. rewrite E. lia.
  - unfold on_http_success.
    destruct (isCurrent (myRequestId p) c) eqn:E,
      (onSuccess (callbacks p)); unfold isCurrent in *; simpl;
      rewrite E; simpl; lia.
  - unfold on_http_failure.
    destruct (isCurrent (myRequestId p) c) eqn:E,
      (onError (callbacks p)); unfold isCurrent in *; simpl;
      rewrite E; simpl; lia.
  - destruct (negb (isProvisioningPattern pattern) &&
              shouldEnableRetries pattern); [|lia].
    destruct (retry_notice maxRetries attempt (messages c)); simpl; lia.
  - destruct (shouldEnableRetries pattern); simpl; lia.
  - unfold abort. destruct (abortRef c); simpl; lia.
Qed.

(** X16. The generation counter never goes down, whatever is called,
    whatever resumes, whatever [withRetry] does between two attempts and
    whether or not the component unmounts, in whatever order; so a
    generation that is below the counter is stale for ever. *)
Theorem generation_never_decreases :
  forall (events : list Event) (c : Client),
    (requestIdRef c <=
     requestIdRef
       (run getApiUrlForPattern shouldEnableRetries isProvisioningPattern
          maxRetries events c))%nat /\
    (forall my : nat,
       (my < requestIdRef c)%nat ->
       isCurrent my
         (run getApiUrlForPattern shouldEnableRetries isProvisioningPattern
            maxRetries events c)
       = false).
Proof.
  intros events c.
  assert (H : (requestIdRef c <=
               requestIdRef
                 (run getApiUrlForPattern shouldEnableRetries
                    isProvisioningPattern maxRetries events c))%nat).
  { unfold run. revert c. induction events as [|e rest IH]; intros c;
      simpl; [lia|].
    pose proof (step_requestId c e).
    specialize (IH (step getApiUrlForPattern shouldEnableRetries
                      isProvisioningPattern maxRetries c e)).
    lia. }
  split; [exact H|].
  intros my Hmy. unfold isCurrent. apply Nat.eqb_neq. lia.
Qed.

Lemma process_lines_thread (p : Pending) (lines : list str) :
  forall c,
    provisioning_thread_id (fold_left (process_line p) lines c) =
    provisioning_thread_id c.
Proof.
  induction lines as [|line rest IH]; intros c; simpl; [reflexivity|].
  rewrite IH. unfold process_line.
  repeat match goal with
         | |- context [match ?x with _ => _ end] => destruct x
         end; reflexivity.
Qed.

Lemma step_thread (c : Client) (e : Event) (t : str) :
  t <> [] ->
  provisioning_thread_id c = Some t ->
  e <> CallResetWebSocket ->
  provisioning_thread_id
    (step getApiUrlForPattern shouldEnableRetries isProvisioningPattern
       maxRetries c e) = Some t.
Proof.
  intros Ht Hc He.
  destruct e as [| |prompt pattern|my|prompt cb pattern uuids
                 |p r|p r|p responseText assistantId|p error
                 |pattern attempt|pattern request|];
    simpl.
  - unfold cancel, abort. now destruct (abortRef c).
  - contradiction.
  - unfold sendMessage. now destruct (trim prompt).
  - unfold sendMessage_finally. now destruct (isCurrent my c).
  - unfold sendMessageWithCallback.
    destruct (isProvisioningPattern pattern), (onStart cb); simpl;
      rewrite ?Hc; try assumption; now destruct t.
  - destruct r; simpl; try assumption; unfold stream_failure;
      now destruct (isCurrent (myRequestId p) c), (onError (callbacks p)).
  - destruct r; simpl.
    + unfold stream_failure.
      now destruct (isCurrent (myRequestId p) c), (onError (callbacks p)).
    + unfold stream_end.
      now destruct (isCurrent (myRequestId p) c), (onSuccess (callbacks p)).
    + destruct (isCurrent (myRequestId p) c) eqn:E; simpl.
      * now rewrite process_lines_thread.
      * unfold stream_end. now rewrite E.
  - unfold on_http_success.
    destruct (isCurrent (myRequestId p) c) eqn:E,
      (onSuccess (callbacks p)); unfold isCurrent in *; simpl;
      rewrite E; simpl; assumption.
  - unfold on_http_failure.
    destruct (isCurrent (myRequestId p) c) eqn:E,
      (onError (callbacks p)); unfold isCurrent in *; simpl;
      rewrite E; simpl; assumption.
  - destruct (negb (isProvisioningPattern pattern) &&
              shouldEnableRetries pattern); [|assumption].
    now destruct (retry_notice maxRetries attempt (messages c)).
  - now destruct (shouldEnableRetries pattern).
  - unfold abort. now destruct (abortRef c).
Qed.

(** X17. The thread id of the session: the first streaming call stores the
    id it generates; from then on every streaming call sends the stored
    id, and nothing but [resetWebSocket] changes it, whatever else is
    called or resumes or is retried, [cancel] and the unmounting included;
    [resetWebSocket] removes it. *)
Theorem thread_id_is_stable :
  (forall (prompt : str) (cb : Callbacks) (pattern : option str)
          (uuids : Ids) (c : Client),
     isProvisioningPattern pattern = true ->
     provisioning_thread_id c = None ->
     let c' := fst (fst (sendMessageWithCallback getApiUrlForPattern
                           isProvisioningPattern prompt cb pattern uuids c)) in
     provisioning_thread_id c' = Some (freshThreadId uuids) /\
     exists r, requests c' = requests c ++ [r] /\
               thread_sent r = Some (freshThreadId uuids)) /\
  (forall (prompt : str) (cb : Callbacks) (pattern : option str)
          (uuids : Ids) (c : Client) (t : str),
     isProvisioningPattern pattern = true ->
     t <> [] ->
     provisioning_thread_id c = Some t ->
     let c' := fst (fst (sendMessageWithCallback getApiUrlForPattern
                           isProvisioningPattern prompt cb pattern uuids c)) in
     exists r, requests c' = requests c ++ [r] /\ thread_sent r = Some t) /\
  (forall (events : list Event) (c : Client) (t : str),
     t <> [] ->
     provisioning_thread_id c = Some t ->
     ~ In CallResetWebSocket events ->
     provisioning_thread_id
       (run getApiUrlForPattern shouldEnableRetries isProvisioningPattern
          maxRetries events c)
     = Some t) /\
  (forall c : Client, provisioning_thread_id (resetWebSocket c) = None).
Proof.
  repeat apply conj.
  - intros prompt cb pattern uuids c Hprov Hnone c'. subst c'.
    unfold sendMessageWithCallback. rewrite Hprov.
    destruct (onStart cb); simpl; rewrite Hnone; split; eauto.
  - intros prompt cb pattern uuids c t Hprov Ht Hsome c'. subst c'.
    unfold sendMessageWithCallback. rewrite Hprov.
    destruct (onStart cb); simpl; rewrite Hsome;
      (destruct t; [contradiction|eauto]).
  - intros events. unfold run.
    induction events as [|e rest IH]; intros c t Ht Hc Hno; simpl;
      [assumption|].
    apply IH; [assumption| |simpl in Hno; tauto].
    apply step_thread; [assumption|assumption|].
    intros ->. simpl in Hno. tauto.
  - reflexivity.
Qed.

(** X18. The loading flag belongs to the latest request: when a second
    [sendMessage] has begun before the first settles, the first one's
    [finally] leaves the flag raised, and only the second one's clears it;
    a request that settles with no other begun in between clears it. *)
Theorem loading_follows_latest_request :
  forall (promptA promptB : str) (patternA patternB : option str)
         (c cA cB : Client) (a b : nat),
    sendMessage getApiUrlForPattern promptA patternA c = InFlight a cA ->
    sendMessage getApiUrlForPattern promptB patternB cA = InFlight b cB ->
    loading cA = true /\
    loading (sendMessage_finally a cA) = false /\
    loading (sendMessage_finally a cB) = true /\
    loading (sendMessage_finally b (sendMessage_finally a cB)) = false.
Proof.
  intros promptA promptB patternA patternB c cA cB a b HA HB.
  unfold sendMessage in HA, HB.
  destruct (trim promptA); [discriminate|].
  destruct (trim promptB); [discriminate|].
  injection HA as <- <-. injection HB as <- <-.
  unfold sendMessage_finally, isCurrent. simpl.
  rewrite Nat.eqb_refl. simpl.
  replace (requestIdRef c + 1 + 1 =? requestIdRef c + 1)%nat with false
    by (symmetry; apply Nat.eqb_neq; lia).
  simpl. rewrite Nat.eqb_refl. now repeat split.
Qed.

(** X19. [cancel] raises the signal of the controller of the latest request
    (every request is sent with the controller its call stored in
    [abortRef]), clears the loading flag and makes that request stale;
    with no controller stored it raises no signal. *)
Theorem cancel_aborts_latest_request :
  (forall (prompt : str) (cb : Callbacks) (pattern : option str)
          (uuids : Ids) (c : Client),
     let '(c', p, _) :=
       sendMessageWithCallback getApiUrlForPattern isProvisioningPattern
         prompt cb pattern uuids c in
     abortRef c' = Some (myRequestId p) /\
     (exists r, requests c' = requests c ++ [r] /\
                controller r = myRequestId p) /\
     In (myRequestId p) (aborted (cancel c')) /\
     loading (cancel c') = false /\
     isCurrent (myRequestId p) (cancel c') = false) /\
  (forall c : Client,
     abortRef c = None ->
     aborted (cancel c) = aborted c /\ loading (cancel c) = false).
Proof.
  split.
  - intros prompt cb pattern uuids c.
    unfold sendMessageWithCallback.
    destruct (isProvisioningPattern pattern), (onStart cb); simpl;
      (repeat split;
       try (now left);
       try (unfold isCurrent; apply Nat.eqb_neq; simpl; lia);
       eauto).
  - intros c H. unfold cancel, abort. now rewrite H.
Qed.

End HookMore.

Lemma thread_id_is_stable_witness :
  AgentAPI.provisioning_thread_id
    (AgentAPI.run Samples.local_url Samples.retrying
       Samples.always_provisioning Samples.three_retries
       [AgentAPI.CallCancel;
        AgentAPI.CallSendMessageWithCallback (lit "again")
          Samples.every_callback None Samples.some_ids]
       (fst Samples.first_call)) = Some (lit "t-1").
Proof.
  apply (proj1 (proj2 (proj2 (thread_id_is_stable Samples.local_url
                                 Samples.retrying
                                 Samples.always_provisioning
                                 Samples.three_retries)))).
  - discriminate.
  - vm_compute. reflexivity.
  - intros H. simpl in H. destruct H as [H|[H|H]]; try discriminate H.
    exact H.
Defined.

Lemma loading_follows_latest_request_witness :
  AgentAPI.loading
    (AgentAPI.sendMessage_finally 1
       (AgentAPI.step Samples.local_url Samples.retrying
          Samples.always_provisioning Samples.three_retries
          (AgentAPI.step Samples.local_url Samples.retrying
             Samples.always_provisioning Samples.three_retries
             Samples.idle_client
             (AgentAPI.CallSendMessage (lit "one") None))
          (AgentAPI.CallSendMessage (lit "two") None))) = true.
Proof.
  refine (proj1 (proj2 (proj2
    (loading_follows_latest_request Samples.local_url
       (lit "one") (lit "two") None None Samples.idle_client _ _ 1 2 _ _)))).
  - vm_compute. reflexivity.
  - vm_compute. reflexivity.
Defined.

Lemma cancel_aborts_latest_request_witness :
  AgentAPI.aborted (AgentAPI.cancel Samples.idle_client) =
  AgentAPI.aborted Samples.idle_client /\
  AgentAPI.loading (AgentAPI.cancel Samples.idle_client) = false.
Proof.
  apply (proj2 (cancel_aborts_latest_request Samples.local_url
                  Samples.always_provisioning) Samples.idle_client).
  reflexivity.
Defined.

Lemma tokens_accumulate_witness :
  fold_left (fun msgs t => AgentAPI.append_token (lit "a-1") t msgs)
    [JStr (lit "Hel"); JStr (lit "lo")]
    (AgentAPI.messages (fst Samples.first_call)) =
  AgentAPI.without_placeholder (AgentAPI.messages (fst Samples.first_call)) ++
  [{| AgentAPI.role := AgentAPI.ASSISTANT;
      AgentAPI.content := AgentAPI.Text (lit "Hello");
      AgentAPI.id := lit "a-1";
      AgentAPI.animate := false |}].
Proof.
  assert (Hfresh : forall m,
            In m (AgentAPI.messages (fst Samples.first_call)) ->
            AgentAPI.id m <> lit "a-1").
  { vm_compute. intros m H.
    repeat (destruct H as [H|H]; [subst m; discriminate|]). contradiction. }
  destruct (tokens_accumulate (lit "a-1") (JStr (lit "Hel"))
              [JStr (lit "lo")]
              (AgentAPI.messages (fst Samples.first_call))
              ltac:(discriminate) Hfresh) as [Hlist Htext].
  rewrite Hlist, (Htext (lit "Hel") [lit "lo"] eq_refl eq_refl).
  reflexivity.
Defined.

Lemma silent_stream_keeps_messages_witness :
  AgentAPI.messages
    (fst (AgentAPI.read_values (snd Samples.first_call)
            [litq "{`status`: `working`}" ++ [10%N]]
            (fst Samples.first_call))) =
  AgentAPI.messages (fst Samples.first_call).
Proof.
  apply (silent_stream_keeps_messages
           (snd Samples.first_call) (fst Samples.first_call)
           [litq "{`status`: `working`}" ++ [10%N]]).
  - vm_compute. reflexivity.
  - vm_compute. intros H. exact H.
  - vm_compute. intros line H.
    destruct H as [H|H]; [subst line; reflexivity|contradiction].
Defined.

Lemma generation_never_decreases_witness :
  AgentAPI.isCurrent 1
    (AgentAPI.run Samples.local_url Samples.retrying
       Samples.always_provisioning Samples.three_retries
       [AgentAPI.ResumeRead (snd Samples.first_call) AgentAPI.ReadDone]
       (AgentAPI.cancel (fst Samples.first_call))) = false.
Proof.
  apply (proj2 (generation_never_decreases Samples.local_url
                  Samples.retrying Samples.always_provisioning
                  Samples.three_retries
                  [AgentAPI.ResumeRead (snd Samples.first_call)
                     AgentAPI.ReadDone]
                  (AgentAPI.cancel (fst Samples.first_call))) 1%nat).
  vm_compute. lia.
Defined.

Lemma line_chunk_invariance_witness :
  AgentAPI.read_values (snd Samples.first_call)
    [litq "{`respon"; litq "se`: `Hi`}" ++ [10%N] ++ litq "{`node"]
    (fst Samples.first_call) =
  AgentAPI.read_values (snd Samples.first_call)
    [List.concat
       [litq "{`respon"; litq "se`: `Hi`}" ++ [10%N] ++ litq "{`node"]]
    (fst Samples.first_call).
Proof.
  apply (line_chunk_invariance (snd Samples.first_call)
           (fst Samples.first_call)).
  - vm_compute. reflexivity.
  - vm_compute. intros H. exact H.
Defined.

(* ================================================================== *)
(** * Properties of the callers of the hook *)
(* ================================================================== *)

Section AppFacts.

Import AgentAPI App.
Local Open Scope N_scope.

Variable getApiUrlForPattern : option str -> str.
Variable isProvisioningPattern : option str -> bool.

Lemma set_last_app (f : Message -> Message) (front : list Message)
  (m : Message) :
  set_last f (front ++ [m]) = front ++ [f m].
Proof.
  induction front as [|x front IH]; [reflexivity|].
  simpl. rewrite IH. now destruct front.
Qed.

Lemma set_last_length (f : Message -> Message) (l : list Message) :
  List.length (set_last f l) = List.length l.
Proof.
  induction l as [|m l IH]; [reflexivity|].
  simpl. destruct l; [reflexivity|]. simpl in *. now rewrite IH.
Qed.

(** X20. [handleApiResponse] rewrites the last message and nothing else of the
    list: the list keeps its length and every earlier message; the last
    one keeps its role and id and gets the response as content, animated
    unless the response is an error; an empty list stays empty.  The agent
    is no longer loading. *)
Theorem handleApiResponse_rewrites_last :
  forall (isGroup : bool) (response : str) (isError : bool)
         (shell : Shell) (c : Client),
    let '(shell', c') :=
      handleApiResponse isGroup response isError (shell, c) in
    List.length (messages c') = List.length (messages c) /\
    (messages c = [] -> messages c' = []) /\
    (forall front m,
       messages c = front ++ [m] ->
       messages c' =
       front ++ [{| role := role m; content := Text response; id := id m;
                    animate := negb isError |}]) /\
    isAgentLoading shell' = false /\
    agentResponse shell' = response /\
    loading c' = loading c /\
    requestIdRef c' = requestIdRef c.
Proof.
  intros isGroup response isError shell c. simpl.
  repeat split.
  - apply set_last_length.
  - now intros ->.
  - intros front m ->. apply set_last_app.
Qed.

Lemma handleApiResponse_rewrites_last_witness :
  let c := fst Samples.chat_call in
  let '(shell', c') :=
    handleApiResponse true (lit "done") false
      ({| agentResponse := []; isAgentLoading := true; apiError := true;
          groupCommResponseReceived := false; aiReplied := false |}, c) in
  List.length (messages c') = List.length (messages c) /\
  removelast (messages c') = removelast (messages c) /\
  option_map content (nth_error (messages c') 1) = Some (Text (lit "done")) /\
  isAgentLoading shell' = false.
Proof.
  pose proof (handleApiResponse_rewrites_last true (lit "done") false
                {| agentResponse := []; isAgentLoading := true;
                   apiError := true; groupCommResponseReceived := false;
                   aiReplied := false |} (fst Samples.chat_call)) as H.
  cbv zeta. destruct (handleApiResponse _ _ _ _) as [shell' c'].
  destruct H as (Hlen & _ & Hlast & Hload & _).
  specialize (Hlast (removelast (messages (fst Samples.chat_call)))
                (last (messages (fst Samples.chat_call))
                   {| role := USER; content := Text []; id := [];
                      animate := false |}) eq_refl).
  repeat split; try assumption.
  - rewrite Hlast. apply removelast_last.
  - rewrite Hlast. reflexivity.
Defined.

Lemma skipn_all_app {A : Type} (a b : list A) :
  skipn (List.length a) (a ++ b) = b.
Proof. induction a; simpl; auto. Qed.

(** X21. The failure of a request reaches the message list through the
    [onError] of [ChatArea] even when the request is stale: the hook leaves
    the list alone, but [onError] is invoked all the same and
    [handleApiResponse] overwrites the content of whatever message is last
    in the list, which belongs to the conversation now under way.  For a
    current request the text the hook wrote into its error message is
    overwritten in the same way. *)
Theorem failure_overwrites_last_message :
  forall (isGroup : bool) (pattern : option str) (shell : Shell)
         (p : Pending) (error : str) (c : Client),
    callbacks p = chat_callbacks ->
    let '(shell', c') :=
      with_callbacks isGroup pattern shell c (stream_failure p error c) in
    agentResponse shell' = lit "Sorry, I encountered an error." /\
    (isCurrent (myRequestId p) c = false ->
     messages c' =
     set_last (fun m => {| role := role m;
                           content :=
                             Text (lit "Sorry, I encountered an error.");
                           id := id m; animate := false |})
       (messages c)) /\
    (isCurrent (myRequestId p) c = true ->
     messages c' =
     without_placeholder (messages c) ++
     [{| role := ASSISTANT;
         content := Text (lit "Sorry, I encountered an error.");
         id := errorMessageId (ids p); animate := false |}]).
Proof.
  intros isGroup pattern shell p error c Hcb.
  unfold with_callbacks, stream_failure. rewrite Hcb.
  cbn [onError chat_callbacks].
  destruct (isCurrent (myRequestId p) c) eqn:Hcur.
  - cbn [calls invoke setLoading setMessages].
    rewrite skipn_all_app. cbn [fold_left on_call handleApiResponse].
    split; [reflexivity|]. split; intros Hc; [discriminate|].
    cbn [messages setMessages invoke setLoading].
    now rewrite set_last_app.
  - cbn [calls invoke]. rewrite skipn_all_app.
    cbn [fold_left on_call handleApiResponse].
    split; [reflexivity|]. split; intros Hc; [reflexivity|discriminate].
Qed.

(** X22. [processMessageWithQuery] drops an empty or blank input before it
    touches anything; the hook function it calls has no such check: for
    every prompt, blank ones included, it appends the user message and the
    placeholder and puts a request with that prompt on the network. *)
Theorem blank_input_is_dropped_by_the_caller :
  (forall (messageContent : str) (pattern : option str) (uuids : Ids)
          (chat : Chat) (c : Client),
     forallb is_whitespace messageContent = true ->
     processMessageWithQuery getApiUrlForPattern isProvisioningPattern
       messageContent pattern uuids chat c = (chat, c, None)) /\
  (forall (prompt : str) (cb : Callbacks) (pattern : option str)
          (uuids : Ids) (c : Client),
     let c' := fst (fst (sendMessageWithCallback getApiUrlForPattern
                           isProvisioningPattern prompt cb pattern uuids c)) in
     messages c' =
       messages c ++
       [{| role := USER; content := Text prompt; id := userMessageId uuids;
           animate := false |}; loadingMessage] /\
     exists r, requests c' = requests c ++ [r] /\ prompt_sent r = prompt).
Proof.
  split.
  - intros messageContent pattern uuids chat c H.
    unfold processMessageWithQuery. apply trim_blank in H. now rewrite H.
  - intros prompt cb pattern uuids c. unfold sendMessageWithCallback.
    destruct (isProvisioningPattern pattern), (onStart cb); simpl;
      split; eauto.
Qed.

End AppFacts.

Lemma failure_overwrites_last_message_witness :
  let '(shell', c') :=
    App.with_callbacks false None
      {| App.agentResponse := []; App.isAgentLoading := true;
         App.apiError := false; App.groupCommResponseReceived := false;
         App.aiReplied := false |}
      (AgentAPI.cancel (fst Samples.chat_call))
      (AgentAPI.stream_failure (snd Samples.chat_call) (lit "AbortError")
         (AgentAPI.cancel (fst Samples.chat_call))) in
  AgentAPI.messages c' =
  App.set_last
    (fun m => {| AgentAPI.role := AgentAPI.role m;
                 AgentAPI.content :=
                   AgentAPI.Text (lit "Sorry, I encountered an error.");
                 AgentAPI.id := AgentAPI.id m;
                 AgentAPI.animate := false |})
    (AgentAPI.messages (AgentAPI.cancel (fst Samples.chat_call))).
Proof.
  pose proof (failure_overwrites_last_message false None
                {| App.agentResponse := []; App.isAgentLoading := true;
                   App.apiError := false;
                   App.groupCommResponseReceived := false;
                   App.aiReplied := false |}
                (snd Samples.chat_call) (lit "AbortError")
                (AgentAPI.cancel (fst Samples.chat_call)) eq_refl) as H.
  destruct (App.with_callbacks _ _ _ _ _) as [shell' c'].
  exact (proj1 (proj2 H) eq_refl).
Defined.

Lemma blank_input_is_dropped_by_the_caller_witness :
  App.processMessageWithQuery Samples.local_url Samples.always_provisioning
    (lit "   ") None Samples.some_ids
    {| App.content_box := lit "   "; App.chat_loading := false;
       App.buttonClicked := false |}
    Samples.idle_client =
  ({| App.content_box := lit "   "; App.chat_loading := false;
      App.buttonClicked := false |}, Samples.idle_client, None).
Proof.
  apply (proj1 (blank_input_is_dropped_by_the_caller Samples.local_url
                  Samples.always_provisioning)).
  vm_compute. reflexivity.
Defined.
